(** * Loss and likelihood utilities of CNPP-SAHP ([utils.py])

    A shallow embedding of [softplus], [compute_event],
    [compute_integral_biased], [compute_integral_unbiased],
    [log_likelihood], [type_loss], [time_loss] and [LabelSmoothingLoss].

    Conventions of the embedding.
    - A float tensor entry is a real number ([R]): rounding, overflow,
      infinities and NaN of the machine format are not represented.  A
      [LongTensor] entry is an integer ([Z]).
    - A tensor is a nested list, one nesting level per dimension, as
      [tensor.tolist()] prints it; a tensor with an empty outer dimension
      does not record its inner sizes.
    - Tensors are objects in a heap and are passed by reference ([loc]), as
      in Python.  An operation that builds a new tensor allocates; an
      in-place operation ([+=], [masked_fill_], [squeeze_], indexed
      assignment) overwrites the object it is applied to.
    - A Python exception ends the call but keeps the heap as it was when
      it was raised.
    - Element-wise operations between two tensors are modelled for equal
      shapes.  For unequal shapes the tensor library either broadcasts a
      size-1 dimension or raises a [RuntimeError]; the embedding does
      neither and answers [Unmodelled].  Size-1 broadcasting is modelled
      only where the source relies on it ([unsqueeze(2)] in
      [compute_integral_unbiased]).  Scalars broadcast.
    - Division is the division of [R], which is total: a quotient by 0
      ([1.0 / beta] at [beta = 0], [temp_time / (time + 1)] at a time -1)
      is an infinity, a NaN or a [ZeroDivisionError] in the code and has no
      meaning here.  Statements about values exclude these inputs by
      hypothesis.
    - A tensor that is only read, never written in place, between its
      creation and its last use is a value; a slice ([t[:, 1:]]) is a view
      in PyTorch, and a value here, since nothing writes through a view in
      this module.  A tensor that is written in place, or handed to a
      function that writes in place, is an object of the heap.
    - Devices ([.to(device)], [.cpu()]) and autograd ([.detach()]) do not
      change values and are left out, as is console output ([print]). *)

From Stdlib Require Import Reals Lra Lia ZArith List.
From stdpp Require Import base list.

Open Scope R_scope.

(** ** Exceptions and results *)

(** [Unmodelled] marks a call outside the typed signature of the embedding:
    a dangling reference, a tensor whose rank or dtype is not the one the
    callers of this module pass, or an element-wise operation between
    tensors of different shapes. *)
Inductive exn : Set :=
| AssertionError
| RuntimeError
| IndexError
| Unmodelled.

Inductive result (A : Type) : Type :=
| Ok (a : A)
| Raise (e : exn).

Arguments Ok {A} a.
Arguments Raise {A} e.

Definition rbind {A B : Type} (r : result A) (k : A -> result B) : result B :=
  match r with
  | Ok a => k a
  | Raise e => Raise e
  end.

Definition of_option {A : Type} (e : exn) (o : option A) : result A :=
  match o with
  | Some a => Ok a
  | None => Raise e
  end.

(** ** Tensors and the heap *)

(** Vectors, matrices and rank-3 tensors.  These are abbreviations, so that
    the list lemmas apply to them as they are. *)
Abbreviation vec A := (list A) (only parsing).
Abbreviation mat A := (list (list A)) (only parsing).
Abbreviation cube A := (list (list (list A))) (only parsing).

Inductive tensor : Type :=
| F1 (v : vec R)
| F2 (m : mat R)
| F3 (c : cube R)
| L1 (v : vec Z)
| L2 (m : mat Z).

Definition loc : Set := nat.

(** [rng] is the stream of numbers the global generator of [torch.rand]
    will deliver next. *)
Record world : Type := mkWorld {
  heap : list tensor;
  rng : nat -> R
}.

(** ** The monad of calls: state, and exceptions that keep the state *)

Definition M (A : Type) : Type := world -> world * result A.

Definition ret {A : Type} (a : A) : M A := fun w => (w, Ok a).

Definition raise {A : Type} (e : exn) : M A := fun w => (w, Raise e).

Definition bind {A B : Type} (c : M A) (k : A -> M B) : M B :=
  fun w =>
    match c w with
    | (w', Ok a) => k a w'
    | (w', Raise e) => (w', Raise e)
    end.

Definition lift {A : Type} (r : result A) : M A := fun w => (w, r).

Notation "x <- c ;; k" := (bind c (fun x => k))
  (at level 100, c at next level, right associativity).

Definition alloc (t : tensor) : M loc :=
  fun w => (mkWorld (heap w ++ [t]) (rng w), Ok (length (heap w))).

Definition load (l : loc) : M tensor :=
  fun w => (w, of_option Unmodelled (heap w !! l)).

Definition store (l : loc) (t : tensor) : M unit :=
  fun w => (mkWorld (<[l := t]> (heap w)) (rng w), Ok tt).

(** [torch.rand] of [n] entries: the next [n] numbers of the stream. *)
Definition draw (n : nat) : M (list R) :=
  fun w => (mkWorld (heap w) (fun k => rng w (n + k)%nat),
            Ok (map (rng w) (seq 0 n))).

Definition as_F2 (t : tensor) : result (mat R) :=
  match t with F2 m => Ok m | _ => Raise Unmodelled end.

(** A rank-2 operand that is only read in float arithmetic: a
    [LongTensor] is promoted. *)
Definition as_N2 (t : tensor) : result (mat R) :=
  match t with
  | F2 m => Ok m
  | L2 m => Ok (map (map IZR) m)
  | _ => Raise Unmodelled
  end.

Definition as_F3 (t : tensor) : result (cube R) :=
  match t with F3 c => Ok c | _ => Raise Unmodelled end.

Definition as_L2 (t : tensor) : result (mat Z) :=
  match t with L2 m => Ok m | _ => Raise Unmodelled end.

Definition loadF2 (l : loc) : M (mat R) := t <- load l ;; lift (as_F2 t).
Definition loadF3 (l : loc) : M (cube R) := t <- load l ;; lift (as_F3 t).
Definition loadL2 (l : loc) : M (mat Z) := t <- load l ;; lift (as_L2 t).
Definition loadN2 (l : loc) : M (mat R) := t <- load l ;; lift (as_N2 t).

Fixpoint for_range (l : list nat) (body : nat -> M unit) : M unit :=
  match l with
  | [] => ret tt
  | i :: l' => _ <- body i ;; for_range l' body
  end.

(** ** Tensor primitives *)

Definition sum_list (l : list R) : R := fold_right Rplus 0 l.

(** An element-wise float operation applied to a tensor of any rank; a
    [LongTensor] operand is promoted to float first. *)
Definition pointwise (f : R -> R) (t : tensor) : tensor :=
  match t with
  | F1 v => F1 (map f v)
  | F2 m => F2 (map (map f) m)
  | F3 c => F3 (map (map (map f)) c)
  | L1 v => F1 (map (fun z => f (IZR z)) v)
  | L2 m => F2 (map (map (fun z => f (IZR z))) m)
  end.

(** Every entry of a float tensor satisfies [P]. *)
Definition all_entries (P : R -> Prop) (t : tensor) : Prop :=
  match t with
  | F1 v => Forall P v
  | F2 m => Forall (Forall P) m
  | F3 c => Forall (Forall (Forall P)) c
  | L1 _ | L2 _ => False
  end.

(** [torch.sum(t)] over all entries. *)
Definition sum_all (t : tensor) : R :=
  match t with
  | F1 v => sum_list v
  | F2 m => sum_list (map sum_list m)
  | F3 c => sum_list (map (fun m => sum_list (map sum_list m)) c)
  | L1 v => sum_list (map IZR v)
  | L2 m => sum_list (map (fun r => sum_list (map IZR r)) m)
  end.

(** Element-wise combination of two lists of one length.  Lists of
    different lengths are outside the embedding: the tensor library
    broadcasts some of them and rejects the others. *)
Fixpoint zip_same {A B C : Type} (f : A -> B -> result C)
    (l1 : list A) (l2 : list B) : result (list C) :=
  match l1, l2 with
  | [], [] => Ok []
  | a :: l1', b :: l2' =>
      rbind (f a b) (fun c =>
      rbind (zip_same f l1' l2') (fun cs => Ok (c :: cs)))
  | _, _ => Raise Unmodelled
  end.

Definition ew1 {A B C : Type} (g : A -> B -> C) : vec A -> vec B -> result (vec C) :=
  zip_same (fun a b => Ok (g a b)).

Definition ew2 {A B C : Type} (g : A -> B -> C) : mat A -> mat B -> result (mat C) :=
  zip_same (ew1 g).

Definition ew3 {A B C : Type} (g : A -> B -> C) : cube A -> cube B -> result (cube C) :=
  zip_same (ew2 g).

(** Broadcasting along the last dimension: a size-1 operand is repeated. *)
Definition bcast1 (g : R -> R -> R) (x y : vec R) : result (vec R) :=
  match x, y with
  | [x0], _ => Ok (map (g x0) y)
  | _, [y0] => Ok (map (fun v => g v y0) x)
  | _, _ => ew1 g x y
  end.

Definition ew3_bcast (g : R -> R -> R) : cube R -> cube R -> result (cube R) :=
  zip_same (zip_same (bcast1 g)).

(** [m[:, 1:]] and [m[:, :-1]]. *)
Definition tail2 {A : Type} (m : mat A) : mat A := map (drop 1) m.
Definition init2 {A : Type} (m : mat A) : mat A :=
  map (fun r => take (length r - 1) r) m.

(** [m.unsqueeze(2)] *)
Definition unsqueeze2 {A : Type} (m : mat A) : cube A := map (map (fun v => [v])) m.

(** [t.sum(dim=-1)] of a rank-3 and of a rank-2 tensor. *)
Definition sum_last3 (c : cube R) : mat R := map (map sum_list) c.
Definition sum_last2 (m : mat R) : vec R := map sum_list m.

Definition singleton {A : Type} (l : list A) : bool :=
  match l with [_] => true | _ => false end.

(** [t.squeeze(-1)]: the last dimension is dropped when its size is 1; the
    value is its own first result when it is not. *)
Definition squeeze_last (t : tensor) : tensor :=
  match t with
  | F3 c =>
      if forallb (forallb singleton) c
      then F2 (map (map (hd 0)) c) else t
  | F2 m =>
      if forallb singleton m then F1 (map (hd 0) m) else t
  | L2 m =>
      if forallb singleton m then L1 (map (hd 0%Z) m) else t
  | _ => t
  end.

(** [t.bool()] on one entry, and [temp[temp > 20] = 20] on one entry. *)
Definition to_bool (v : R) : bool := if Req_dec_T v 0 then false else true.
Definition clamp20 (v : R) : R := if Rlt_dec 20 v then 20 else v.

(** [math.pow(10, -9)] *)
Definition tiny : R := 1e-9.

(** [m.transpose(1, 2)] of a rank-3 tensor transposes every matrix. *)
Fixpoint transpose {A : Type} (m : mat A) : mat A :=
  match m with
  | [] => []
  | [r] => map (fun a => [a]) r
  | r :: m' => zip_with cons r (transpose m')
  end.

(** [torch.max(row)[1]]: the index of the first maximal entry. *)
Fixpoint argmax_from (best : R) (bi i : nat) (l : list R) : nat :=
  match l with
  | [] => bi
  | x :: l' =>
      if Rlt_dec best x then argmax_from x i (S i) l'
      else argmax_from best bi (S i) l'
  end.

Definition argmax (row : vec R) : result Z :=
  match row with
  | [] => Raise IndexError
  | x :: l => Ok (Z.of_nat (argmax_from x 0 1 l))
  end.

Fixpoint mapM {A B : Type} (f : A -> result B) (l : list A) : result (list B) :=
  match l with
  | [] => Ok []
  | a :: l' => rbind (f a) (fun b => rbind (mapM f l') (fun bs => Ok (b :: bs)))
  end.

(** [torch.nonzero(row)] of a boolean row: the indices that hold [True]. *)
Fixpoint nonzero_from (i : nat) (row : list bool) : list nat :=
  match row with
  | [] => []
  | b :: row' => if b then i :: nonzero_from (S i) row' else nonzero_from (S i) row'
  end.

Definition nonzero (row : list bool) : list nat := nonzero_from 0 row.

(** [torch.sum] of a boolean matrix. *)
Definition count_true (m : mat bool) : Z :=
  Z.of_nat (length (filter (fun b => b = true) (concat m))).

(** ** softplus *)

(** [beta] is a Python float or a 0-dim tensor ([torch.abs(model.beta)]).
    [1.0 / beta] is read in [R]: at [beta = 0] the code raises
    [ZeroDivisionError] (a float) or yields infinities (a tensor), which the
    values below do not show. *)
Definition softplus (x : loc) (beta : R) : M loc :=
  tx <- load x ;;
  temp <- alloc (pointwise (fun v => beta * v) tx) ;;
  tt <- load temp ;;
  _ <- store temp (pointwise clamp20 tt) ;;
  tt <- load temp ;;
  alloc (pointwise (fun v => 1 / beta * ln (1 + exp v)) tt).

(** ** compute_event *)

Definition compute_event (event non_pad_mask : loc) : M loc :=
  e <- loadF2 event ;;
  _ <- store event (F2 (map (map (fun v => v + tiny)) e)) ;;
  m <- loadN2 non_pad_mask ;;
  e <- loadF2 event ;;
  filled <- lift (ew2 (fun v k => if negb (to_bool k) then 1 else v) e m) ;;
  _ <- store event (F2 filled) ;;
  e <- loadF2 event ;;
  alloc (F2 (map (map ln) e)).

(** ** compute_integral_biased *)

Definition compute_integral_biased (all_lambda time non_pad_mask : loc) : M loc :=
  t <- loadN2 time ;;
  gap <- lift (ew2 Rminus (tail2 t) (init2 t)) ;;
  m <- loadN2 non_pad_mask ;;
  diff_time <- lift (ew2 Rmult gap (tail2 m)) ;;
  lam <- loadN2 all_lambda ;;
  lam_sum <- lift (ew2 Rplus (tail2 lam) (init2 lam)) ;;
  m <- loadN2 non_pad_mask ;;
  diff_lambda <- lift (ew2 Rmult lam_sum (tail2 m)) ;;
  biased_integral <- lift (ew2 Rmult diff_lambda diff_time) ;;
  alloc (F2 (map (map (fun v => 0.5 * v)) biased_integral)).

(** ** time_loss *)

(** The tensor that [prediction[:, :-1]] is taken from: two indices need
    rank 2 at least; a prediction that is still of rank 3 is outside the
    embedding. *)
Definition as_sliceable (p : tensor) : result (mat R) :=
  match p with
  | F2 m => Ok m
  | F1 _ | L1 _ => Raise IndexError
  | _ => Raise Unmodelled
  end.

(** Returns the 0-dim tensor [se] as its value. *)
Definition time_loss (prediction event_time : loc) : M R :=
  p <- load prediction ;;
  _ <- store prediction (squeeze_last p) ;;
  t <- loadN2 event_time ;;
  true_gap <- lift (ew2 Rminus (tail2 t) (init2 t)) ;;
  p <- load prediction ;;
  p2 <- lift (as_sliceable p) ;;
  diff <- lift (ew2 Rminus (init2 p2) true_gap) ;;
  ret (sum_all (F2 (map (map (fun d => d * d)) diff))).

(** ** LabelSmoothingLoss *)

Record LabelSmoothingLoss : Type := mkLabelSmoothingLoss {
  eps : R;
  num_classes : nat;
  ignore_index : Z
}.

Definition default_ignore_index : Z := (-100)%Z.

(** [__init__] *)
Definition LabelSmoothingLoss_init (label_smoothing : R) (tgt_vocab_size : nat)
    (ignore_index : Z) : result LabelSmoothingLoss :=
  if Rlt_dec 0 label_smoothing then
    if Rle_dec label_smoothing 1 then
      Ok (mkLabelSmoothingLoss label_smoothing tgt_vocab_size ignore_index)
    else Raise AssertionError
  else Raise AssertionError.

(** An element-wise operation on a [LongTensor], with a Long and with a
    float result. *)
Definition long_map (f : Z -> Z) (t : tensor) : result tensor :=
  match t with
  | L1 v => Ok (L1 (map f v))
  | L2 m => Ok (L2 (map (map f) m))
  | _ => Raise Unmodelled
  end.

Definition long_to_float (f : Z -> R) (t : tensor) : result tensor :=
  match t with
  | L1 v => Ok (F1 (map f v))
  | L2 m => Ok (F2 (map (map f) m))
  | _ => Raise Unmodelled
  end.

(** [F.one_hot(z, num_classes=K).float()] of one class index. *)
Definition one_hot_row (K : nat) (z : Z) : result (vec R) :=
  if ((0 <=? z) && (z <? Z.of_nat K))%Z
  then Ok (<[Z.to_nat z := 1]> (replicate K 0))
  else Raise RuntimeError.

Definition one_hot (K : nat) (t : tensor) : result tensor :=
  if (K =? 0)%nat then Raise RuntimeError
  else match t with
       | L1 v => rbind (mapM (one_hot_row K) v) (fun m => Ok (F2 m))
       | L2 m => rbind (mapM (mapM (one_hot_row K)) m) (fun c => Ok (F3 c))
       | _ => Raise RuntimeError
       end.

(** [one_hot * (1 - eps) + (1 - one_hot) * eps / num_classes] on one entry. *)
Definition smooth (eps : R) (K : nat) (h : R) : R :=
  h * (1 - eps) + (1 - h) * eps / INR K.

(** [F.log_softmax(row, dim=-1)] *)
Definition log_softmax_row (row : vec R) : vec R :=
  map (fun x => x - ln (sum_list (map exp row))) row.

Definition log_softmax (t : tensor) : result tensor :=
  match t with
  | F1 v => Ok (F1 (log_softmax_row v))
  | F2 m => Ok (F2 (map log_softmax_row m))
  | F3 c => Ok (F3 (map (map log_softmax_row) c))
  | _ => Raise RuntimeError
  end.

(** An element-wise operation on two float tensors of one shape. *)
Definition ew_tensor (g : R -> R -> R) (a b : tensor) : result tensor :=
  match a, b with
  | F1 x, F1 y => rbind (ew1 g x y) (fun r => Ok (F1 r))
  | F2 x, F2 y => rbind (ew2 g x y) (fun r => Ok (F2 r))
  | F3 x, F3 y => rbind (ew3 g x y) (fun r => Ok (F3 r))
  | _, _ => Raise Unmodelled
  end.

(** [t.sum(dim=-1)] *)
Definition sum_last (t : tensor) : result tensor :=
  match t with
  | F2 m => Ok (F1 (sum_last2 m))
  | F3 c => Ok (F2 (sum_last3 c))
  | _ => Raise Unmodelled
  end.

(** [forward]: [target] is a [LongTensor] of rank 1 (as documented) or of
    rank 2 (as [type_loss] calls it), [output] has one more dimension. *)
Definition forward (self : LabelSmoothingLoss) (output target : loc) : M loc :=
  t <- load target ;;
  non_pad_mask <-
    lift (long_to_float
            (fun z => if (z =? ignore_index self)%Z then 0 else 1) t) ;;
  t <- load target ;;
  cleared <-
    lift (long_map (fun z => if (z =? ignore_index self)%Z then 0%Z else z) t) ;;
  _ <- store target cleared ;;
  t <- load target ;;
  one_hot <- lift (one_hot (num_classes self) t) ;;
  let one_hot := pointwise (smooth (eps self) (num_classes self)) one_hot in
  o <- load output ;;
  log_prb <- lift (log_softmax o) ;;
  prod <- lift (ew_tensor Rmult one_hot log_prb) ;;
  s <- lift (sum_last prod) ;;
  loss <- lift (ew_tensor Rmult (pointwise Ropp s) non_pad_mask) ;;
  alloc loss.

(** ** type_loss *)

(** [loss_func]: a [LabelSmoothingLoss], or another criterion.  The other
    criterion is a function of the values of its two arguments that does
    not write to the heap, such as [nn.CrossEntropyLoss]. *)
Inductive loss_fn : Type :=
| Smoothing (self : LabelSmoothingLoss)
| Criterion (f : cube R -> mat Z -> result tensor).

(** One pass of the loop over the batch: what is appended to [true_list]
    and to [pred_list] for sequence [i]. *)
Definition trim (truth_i pred_i : vec Z) : vec Z * vec Z :=
  match nonzero (map (fun z => (z =? -1)%Z) truth_i) with
  | [] => (truth_i, pred_i)
  | pos :: _ => (take pos truth_i, take pos pred_i)
  end.

Fixpoint report (truth pred_type : mat Z) (true_list pred_list : list Z)
  : list Z * list Z :=
  match truth, pred_type with
  | truth_i :: truth', pred_i :: pred' =>
      let '(a, b) := trim truth_i pred_i in
      report truth' pred' (true_list ++ a) (pred_list ++ b)
  | _, _ => (true_list, pred_list)
  end.

Definition run_loss (loss_func : loss_fn) (prediction truth : loc) : M tensor :=
  match loss_func with
  | Smoothing self =>
      l <- forward self prediction truth ;; load l
  | Criterion f =>
      p <- loadF3 prediction ;;
      t <- loadL2 truth ;;
      lift (f (map transpose p) t)
  end.

(** Returns [(loss_r, correct_num, true_list, pred_list)].  [truth] and the
    sliced [prediction] are handed to the loss function, so both are
    objects of the heap. *)
Definition type_loss (prediction types : loc) (loss_func : loss_fn)
  : M (R * Z * list Z * list Z) :=
  ty <- loadL2 types ;;
  truth <- alloc (L2 (map (map (fun z => z - 1)%Z) (tail2 ty))) ;;
  p <- loadF3 prediction ;;
  prediction <- alloc (F3 (map (fun m => take (length m - 1) m) p)) ;;
  p <- loadF3 prediction ;;
  pred_type <- lift (mapM (mapM argmax) p) ;;
  tr <- loadL2 truth ;;
  hits <- lift (ew2 Z.eqb pred_type tr) ;;
  let correct_num := count_true hits in
  tr <- loadL2 truth ;;
  let lists := report tr pred_type [] [] in
  loss <- run_loss loss_func prediction truth ;;
  ret (sum_all loss, correct_num, fst lists, snd lists).

(** ** The model object (external) *)

(** [linear_list[i]] stands for the call of the [i]-th linear layer on the
    value of its argument: it returns a fresh tensor and writes nothing. *)
Record Model : Type := mkModel {
  linear_list : list (cube R -> result (cube R));
  alpha : R;
  beta : R;
  num_types : list nat
}.

(** Modelled from the spec: [get_non_pad_mask] of module [model] is not part
    of the sources.  The spec's data model marks padding positions (type 0)
    with 0 and real events with 1; the caller's [squeeze(2)] shows the
    trailing singleton dimension. *)
Definition get_non_pad_mask (types : mat Z) : cube R :=
  map (map (fun z => [if (z =? 0)%Z then 0 else 1])) types.

(** ** compute_integral_unbiased *)

Definition num_samples : nat := 100.

Definition cols {A : Type} (m : mat A) : nat :=
  match m with
  | [] => 0
  | r :: _ => length r
  end.

(** [torch.rand([b, l, n])] *)
Definition rand3 (b l n : nat) : M (cube R) :=
  xs <- draw (b * l * n) ;;
  ret (reshape (replicate b l) (reshape (replicate (b * l) n) xs)).

(** [temp_time /= (time[:, :-1] + 1)] is read in [R]: at a time -1 the
    code divides by 0 and yields an infinity or a NaN, which the values
    below do not show. *)
Definition compute_integral_unbiased (model : Model) (process_idx : nat)
    (data time non_pad_mask type_mask : loc) : M loc :=
  t <- loadN2 time ;;
  gap <- lift (ew2 Rminus (tail2 t) (init2 t)) ;;
  m <- loadN2 non_pad_mask ;;
  diff_time <- lift (ew2 Rmult gap (tail2 m)) ;;
  u <- rand3 (length diff_time) (cols diff_time) num_samples ;;
  scaled <- lift (ew3_bcast Rmult (unsqueeze2 diff_time) u) ;;
  temp_time <- alloc (F3 scaled) ;;
  t <- loadN2 time ;;
  tv <- loadF3 temp_time ;;
  divided <-
    lift (ew3_bcast Rdiv tv
            (unsqueeze2 (map (map (fun v => v + 1)) (init2 t)))) ;;
  _ <- store temp_time (F3 divided) ;;
  lin <- lift (of_option IndexError (linear_list model !! process_idx)) ;;
  d <- loadF3 data ;;
  hid <- lift (lin d) ;;
  tm <- loadF3 type_mask ;;
  prod <- lift (ew3 Rmult (map (drop 1) hid) (map (drop 1) tm)) ;;
  let temp_hid := map (map (fun r => [sum_list r])) prod in
  tv <- loadF3 temp_time ;;
  arg <-
    lift (ew3_bcast Rplus temp_hid
            (map (map (map (fun v => alpha model * v))) tv)) ;;
  arg <- alloc (F3 arg) ;;
  all_lambda <- softplus arg (Rabs (beta model)) ;;
  al <- loadF3 all_lambda ;;
  let all_lambda := map (map (fun v => v / INR num_samples)) (sum_last3 al) in
  unbiased_integral <- lift (ew2 Rmult all_lambda diff_time) ;;
  alloc (F2 unbiased_integral).

(** ** log_likelihood *)

(** Returns [(event_ll, non_event_ll)], one entry per sequence. *)
Definition log_likelihood (model : Model) (process_idx : nat)
    (data time types : loc) : M (vec R * vec R) :=
  ty <- loadL2 types ;;
  non_pad_mask <- alloc (squeeze_last (F3 (get_non_pad_mask ty))) ;;
  nt <- lift (of_option IndexError (num_types model !! process_idx)) ;;
  ty <- loadL2 types ;;
  type_mask <- alloc (F3 (map (map (fun _ => replicate nt 0)) ty)) ;;
  _ <- for_range (seq 0 nt) (fun i =>
         ty <- loadL2 types ;;
         tm <- loadF3 type_mask ;;
         tm' <- lift (zip_same
                        (zip_same (fun row z =>
                           Ok (<[i := if (z =? Z.of_nat (i + 1))%Z then 1 else 0]> row)))
                        tm ty) ;;
         store type_mask (F3 tm')) ;;
  lin <- lift (of_option IndexError (linear_list model !! process_idx)) ;;
  d <- loadF3 data ;;
  hid <- lift (lin d) ;;
  all_hid <- alloc (F3 hid) ;;
  all_lambda <- softplus all_hid (Rabs (beta model)) ;;
  al <- loadF3 all_lambda ;;
  tm <- loadF3 type_mask ;;
  prod <- lift (ew3 Rmult al tm) ;;
  type_lambda <- alloc (F2 (sum_last3 prod)) ;;
  event_ll <- compute_event type_lambda non_pad_mask ;;
  ev <- loadF2 event_ll ;;
  non_event_ll <-
    compute_integral_unbiased model process_idx data time non_pad_mask type_mask ;;
  ne <- loadF2 non_event_ll ;;
  ret (sum_last2 ev, sum_last2 ne).

(** ** Reasoning about calls *)

(** [wp c w Q]: running [c] in world [w] ends in a world and a result that
    satisfy [Q]. *)
Definition wp {A : Type} (c : M A) (w : world) (Q : world -> result A -> Prop) : Prop :=
  Q (fst (c w)) (snd (c w)).

(** A result that raises, if it raises, an exception of [E]. *)
Definition benign {A : Type} (E : exn -> Prop) (r : result A) : Prop :=
  forall e, r = Raise e -> E e.

(** The exceptions of the tensor library and of the embedding, as opposed to
    a check that the module itself makes. *)
Definition no_assertion : exn -> Prop := fun e => e <> AssertionError.
Definition any_exn : exn -> Prop := fun _ => True.

(** [agree_except S w w']: every tensor of [w] outside [S] is still there,
    unchanged, in [w']. *)
Definition agree_except (S : loc -> Prop) (w w' : world) : Prop :=
  (length (heap w) <= length (heap w'))%nat /\
  forall l, ~ S l -> (l < length (heap w))%nat -> heap w' !! l = heap w !! l.

Definition nowhere : loc -> Prop := fun _ => False.
Definition only (x : loc) : loc -> Prop := fun l => l = x.

(** Entry [(i, j)] of a matrix. *)
Definition at2 {A : Type} (m : mat A) (i j : nat) : option A :=
  match m !! i with
  | Some r => r !! j
  | None => None
  end.

(** Two matrices of one shape. *)
Definition same_shape {A B : Type} (a : mat A) (b : mat B) : Prop :=
  Forall2 (fun r s => length r = length s) a b.

(** [sound E S w0 c P]: started in any world that still holds the tensors
    of [w0] outside [S], the call [c] keeps them, raises exceptions of [E]
    only, and returns a value that satisfies [P]. *)
Definition sound {A : Type} (E : exn -> Prop) (S : loc -> Prop) (w0 : world)
    (c : M A) (P : A -> Prop) : Prop :=
  forall w, agree_except S w0 w ->
    agree_except S w0 (fst (c w)) /\
    benign E (snd (c w)) /\
    forall a, snd (c w) = Ok a -> P a.

(** A location that a call may overwrite: one of [S], or one allocated
    after [w0]. *)
Definition writable (S : loc -> Prop) (w0 : world) (l : loc) : Prop :=
  S l \/ (length (heap w0) <= l)%nat.

Definition any {A : Type} : A -> Prop := fun _ => True.

(** The external callables raise exceptions of [E] only. *)
Definition criterion_benign (E : exn -> Prop) (loss_func : loss_fn) : Prop :=
  forall f p t, loss_func = Criterion f -> benign E (f p t).

Definition linear_benign (E : exn -> Prop) (model : Model) (process_idx : nat)
  : Prop :=
  forall lin d, linear_list model !! process_idx = Some lin -> benign E (lin d).

(** The entries of [row] at the positions that the mask row [mrow] marks as
    real events (non-zero), in order. *)
Fixpoint valid_entries (mrow row : vec R) : vec R :=
  match mrow, row with
  | k :: mrow', v :: row' =>
      if to_bool k then v :: valid_entries mrow' row'
      else valid_entries mrow' row'
  | _, _ => []
  end.

(** Every tensor of [w] is still there in [w'], with the value and the shape
    it had; and the same but for the tensor at [x]. *)
Definition unchanged (w w' : world) : Prop :=
  forall l t, heap w !! l = Some t -> heap w' !! l = Some t.

Definition unchanged_but (x : loc) (w w' : world) : Prop :=
  forall l t, l <> x -> heap w !! l = Some t -> heap w' !! l = Some t.

(** The entries of a tensor in row-major order, whatever its shape. *)
Definition entries (t : tensor) : list R :=
  match t with
  | F1 v => v
  | F2 m => concat m
  | F3 c => concat (map (@concat R) c)
  | L1 v => map IZR v
  | L2 m => map IZR (concat m)
  end.

(** What [target[target.eq(ignore_index)] = 0] makes of one entry. *)
Definition clear_ignored (self : LabelSmoothingLoss) (z : Z) : Z :=
  if (z =? ignore_index self)%Z then 0%Z else z.

(** The sum of squared differences between predicted and true gaps, written
    over the positions: for sequence [i], position [j] ranges over all gaps
    of the sequence, and nothing is masked. *)
Definition sq_gap_error (prow trow : vec R) : R :=
  sum_list
    (map (fun j => (nth j prow 0 - (nth (S j) trow 0 - nth j trow 0)) *
                   (nth j prow 0 - (nth (S j) trow 0 - nth j trow 0)))
       (seq 0 (length trow - 1))).

Definition sum_sq_gaps (p t : mat R) : R := sum_list (zip_with sq_gap_error p t).

(** The shifted truth and the shifted prediction of [type_loss]:
    [types[:, 1:] - 1] and [prediction[:, :-1, :]]. *)
Definition shifted_truth (types : mat Z) : mat Z :=
  map (map (fun z => z - 1)%Z) (tail2 types).

Definition shifted_prediction (prediction : cube R) : cube R :=
  map (fun m => take (length m - 1) m) prediction.

(** The number of positions [j] of a sequence at which the predicted class
    is the true class, over all positions and over the positions that are
    not padding. *)
Definition row_matches (pred_i truth_i : vec Z) : nat :=
  length (filter (fun j => pred_i !! j = truth_i !! j) (seq 0 (length truth_i))).

Definition row_matches_valid (pred_i truth_i : vec Z) : nat :=
  length (filter (fun j => truth_i !! j <> Some (-1)%Z /\ pred_i !! j = truth_i !! j)
            (seq 0 (length truth_i))).

Definition sum_nat (l : list nat) : nat := fold_right Nat.add 0%nat l.

Definition matches (pred truth : mat Z) : Z :=
  Z.of_nat (sum_nat (zip_with row_matches pred truth)).

Definition matches_valid (pred truth : mat Z) : Z :=
  Z.of_nat (sum_nat (zip_with row_matches_valid pred truth)).

(** The number of entries of a row before the first padding sentinel -1:
    the whole row when there is none. *)
Fixpoint before_pad (truth_i : vec Z) : nat :=
  match truth_i with
  | [] => 0
  | z :: r => if (z =? -1)%Z then 0 else S (before_pad r)
  end.

(** A model with one process of two event types, used in examples: its
    linear layer maps a hidden vector to the two logits (sum of the vector,
    1). *)
Definition toy_model : Model :=
  mkModel [fun d => Ok (map (map (fun r => [sum_list r; 1])) d)] (-0.1) 1 [2%nat].

(** What [softplus] makes of one entry [v]. *)
Definition softplus_value (beta v : R) : R :=
  1 / beta * ln (1 + exp (clamp20 (beta * v))).

(** The value at which [softplus] saturates. *)
Definition softplus_cap (beta : R) : R := 1 / beta * ln (1 + exp 20).

(** The class of a target entry after the ignored entries are cleared is a
    class of the [K] classes. *)
Definition class_in_range (self : LabelSmoothingLoss) (z : Z) : Prop :=
  (0 <= clear_ignored self z < Z.of_nat (num_classes self))%Z.

(** The loss of one position: minus the smoothed target times the
    log-probabilities, summed over the classes. *)
Definition position_loss (self : LabelSmoothingLoss) (z : Z) (logits : vec R) : R :=
  - sum_list
      (zip_with Rmult
         (map (smooth (eps self) (num_classes self))
            (<[Z.to_nat (clear_ignored self z) := 1]>
               (replicate (num_classes self) 0)))
         (log_softmax_row logits)).

(** 0 for an ignored target, 1 for any other: [target.ne(ignore_index)]. *)
Definition keep (self : LabelSmoothingLoss) (z : Z) : R :=
  if (z =? ignore_index self)%Z then 0 else 1.

(** A matrix all of whose rows have one length. *)
Definition rectangular {A : Type} (m : mat A) : Prop :=
  Forall (fun r => length r = cols m) m.

(** [diff_time] of the two integrals: the gaps, masked by the later
    position. *)
Definition diff_time_of (t m : mat R) : mat R :=
  zip_with (zip_with Rmult) (zip_with (zip_with Rminus) (tail2 t) (init2 t))
    (tail2 m).

(** The numbers [torch.rand([b, l, n])] takes from the stream [g], in the
    shape it returns them. *)
Definition rand_cube (g : nat -> R) (b l n : nat) : cube R :=
  reshape (replicate b l) (reshape (replicate (b * l) n) (map g (seq 0 (b * l * n)))).

(** [temp_time] of [compute_integral_unbiased] after the division: sample
    [u] of the interval that starts at time [t0] and has masked length [d]
    becomes [d * u / (t0 + 1)]. *)
Definition sample_times (t m : mat R) (u : cube R) : cube R :=
  zip_with (zip_with (fun s d => map (fun v => v / d) s))
    (zip_with (zip_with (fun d s => map (Rmult d) s)) (diff_time_of t m) u)
    (map (map (fun v => v + 1)) (init2 t)).

(** The pre-activation of an interval: the hidden values of the later
    position, summed under its type mask. *)
Definition masked_hidden (hid tm : cube R) : mat R :=
  map (map sum_list)
    (zip_with (zip_with (zip_with Rmult)) (map (drop 1) hid) (map (drop 1) tm)).

(** The Monte Carlo estimate of one interval: the mean over the samples of
    the intensity, times the masked length of the interval. *)
Definition mc_estimate (model : Model) (h : R) (samples : vec R) (d : R) : R :=
  sum_list
    (map (fun v => softplus_value (Rabs (beta model)) (h + alpha model * v)) samples)
  / INR num_samples * d.

(** Two rank-3 tensors of one shape. *)
Definition same_shape3 {A B : Type} (a : cube A) (b : cube B) : Prop :=
  Forall2 same_shape a b.

(** The argument of [softplus] in [compute_integral_unbiased]:
    [temp_hid + model.alpha * temp_time]. *)
Definition softplus_arg (model : Model) (hid tm : cube R) (t m : mat R)
    (u : cube R) : cube R :=
  zip_with (zip_with (fun h s => map (Rplus h) s)) (masked_hidden hid tm)
    (map (map (map (fun v => alpha model * v))) (sample_times t m u)).

(** The value [compute_integral_unbiased] returns, from the hidden values
    [hid] of the linear layer, the type mask [tm], the times [t], the
    padding mask [m] and the random numbers [u]. *)
Definition unbiased_integral_of (model : Model) (hid tm : cube R) (t m : mat R)
    (u : cube R) : mat R :=
  zip_with (zip_with Rmult)
    (map (map (fun v => v / INR num_samples))
       (sum_last3
          (map (map (map (softplus_value (Rabs (beta model)))))
             (softplus_arg model hid tm t m u))))
    (diff_time_of t m).

(** The world after [temp_time /= ...]: the generator has handed out one
    number per sample, and [temp_time] is the only new tensor. *)
Definition after_sampling (w : world) (t m : mat R) : world :=
  let dt := diff_time_of t m in
  let n := (length dt * cols dt * num_samples)%nat in
  mkWorld
    (heap w ++ [F3 (sample_times t m (rand_cube (rng w) (length dt) (cols dt) num_samples))])
    (fun k => rng w (n + k)%nat).

(** A world for one sequence of three positions, the last one padding:
    [data], [time], the padding mask and the type mask, in this order. *)
Definition toy_world : world :=
  mkWorld
    [F3 [[[1; 2]; [3; 4]; [0; 0]]]; F2 [[0; 1; 1]]; F2 [[1; 1; 0]];
     F3 [[[1; 0]; [0; 1]; [0; 0]]]]
    (fun _ => 0.5).

(** The padding mask of [log_likelihood]:
    [get_non_pad_mask(types).squeeze(2)]. *)
Definition pad_mask (ty : mat Z) : mat R :=
  map (map (fun z => if (z =? 0)%Z then 0 else 1)) ty.

(** A row of [type_mask] for an event of type [z] after the first [i] rounds
    of the loop: column [c < i] tells whether [z] is type [c + 1], the others
    still hold 0. *)
Definition type_row (nt i : nat) (z : Z) : vec R :=
  map (fun c => if (c <? i)%nat && (z =? Z.of_nat (c + 1))%Z then 1 else 0)
    (seq 0 nt).

Definition type_mask_of (nt : nat) (ty : mat Z) : cube R :=
  map (map (type_row nt nt)) ty.

(** [type_lambda] of [log_likelihood], before [compute_event] overwrites
    it. *)
Definition type_lambda_of (model : Model) (nt : nat) (hid : cube R) (ty : mat Z)
    : mat R :=
  sum_last3
    (zip_with (zip_with (zip_with Rmult))
       (map (map (map (softplus_value (Rabs (beta model))))) hid)
       (type_mask_of nt ty)).

(** What [compute_event] returns for intensities [lam] and mask [k]. *)
Definition event_of (lam k : mat R) : mat R :=
  map (map ln)
    (zip_with (zip_with (fun v k => if negb (to_bool k) then 1 else v))
       (map (map (fun v => v + tiny)) lam) k).

(** The intensity that [log_likelihood] takes at one position, from the
    type [z] of its event and the hidden values [hrow] of the position: the
    softplus of column [z - 1], and 0 for a type that has no column. *)
Definition type_intensity (model : Model) (z : Z) (hrow : vec R) : R :=
  if (0 <? z)%Z
  then match hrow !! (Z.to_nat z - 1)%nat with
       | Some h => softplus_value (Rabs (beta model)) h
       | None => 0
       end
  else 0.

(** The share of one position in [event_ll]: nothing for padding (type 0),
    the logarithm of its intensity plus [1e-9] for an event. *)
Definition event_term (model : Model) (z : Z) (hrow : vec R) : R :=
  if (z =? 0)%Z then 0 else ln (type_intensity model z hrow + tiny).

(** * Properties *)

(** ** Heap lemmas *)

Lemma lookup_snoc_new (h : list tensor) (t : tensor) :
  (h ++ [t]) !! length h = Some t.
Proof.
  rewrite lookup_app_r by lia.
  replace (length h - length h)%nat with 0%nat by lia. reflexivity.
Qed.

Lemma lookup_snoc_old (h : list tensor) (t u : tensor) (l : loc) :
  h !! l = Some u -> (h ++ [t]) !! l = Some u.
Proof. intros H. rewrite lookup_app_l; [exact H | eapply lookup_lt_Some; eauto]. Qed.

Lemma insert_snoc_new (h : list tensor) (t u : tensor) :
  <[length h := u]> (h ++ [t]) = h ++ [u].
Proof.
  rewrite insert_app_r_alt by lia.
  replace (length h - length h)%nat with 0%nat by lia. reflexivity.
Qed.

(** ** softplus is non-negative *)

Lemma softplus_entry_nonneg (beta v : R) :
  0 < beta -> 0 <= 1 / beta * ln (1 + exp v).
Proof.
  intros Hb.
  assert (H1 : 0 < ln (1 + exp v)).
  { rewrite <- ln_1. apply ln_increasing; [lra|]. pose proof (exp_pos v). lra. }
  assert (H2 : 0 < 1 / beta) by (apply Rdiv_lt_0_compat; lra).
  apply Rlt_le, Rmult_lt_0_compat; assumption.
Qed.

Lemma Forall_map_all {A B : Type} (P : B -> Prop) (f : A -> B) (l : list A) :
  (forall a, P (f a)) -> Forall P (map f l).
Proof. intros Hf. induction l; simpl; constructor; auto. Qed.

Lemma pointwise_all_entries (P : R -> Prop) (f : R -> R) (t : tensor) :
  (forall v, P (f v)) -> all_entries P (pointwise f t).
Proof.
  intros Hf. destruct t; simpl; repeat (apply Forall_map_all; intros); apply Hf.
Qed.

Lemma pointwise_pointwise (f g : R -> R) (t : tensor) :
  pointwise f (pointwise g t) = pointwise (fun v => f (g v)) t.
Proof.
  destruct t; simpl; f_equal; rewrite ?map_map; try reflexivity;
    repeat (apply map_ext; intros; rewrite ?map_map); reflexivity.
Qed.

(** What [softplus] does to the world: two fresh tensors ([temp], clamped in
    place, and the result) and no other change. *)
Lemma softplus_run (w : world) (x : loc) (beta : R) (t : tensor) :
  heap w !! x = Some t ->
  softplus x beta w =
    (mkWorld
       (heap w ++ [pointwise (fun v => clamp20 (beta * v)) t;
                   pointwise (fun v => 1 / beta * ln (1 + exp (clamp20 (beta * v)))) t])
       (rng w),
     Ok (S (length (heap w)))).
Proof.
  intros Hx. unfold softplus, bind, load, alloc, store. simpl.
  rewrite Hx. simpl. rewrite lookup_snoc_new. simpl.
  rewrite insert_snoc_new, lookup_snoc_new. simpl.
  rewrite !pointwise_pointwise, <- app_assoc, length_app. simpl.
  do 2 f_equal. lia.
Qed.

(** C10: for every tensor [x] and every [beta > 0], [softplus] returns a
    tensor all of whose entries are greater than or equal to 0. *)
Theorem softplus_nonneg (w : world) (x : loc) (beta : R) (t : tensor) :
  heap w !! x = Some t ->
  0 < beta ->
  exists w' r out,
    softplus x beta w = (w', Ok r) /\
    heap w' !! r = Some out /\
    out = pointwise (fun v => 1 / beta * ln (1 + exp (clamp20 (beta * v)))) t /\
    all_entries (fun v => 0 <= v) out.
Proof.
  intros Hx Hb. rewrite (softplus_run _ _ _ _ Hx).
  eexists _, _, _. split; [reflexivity|]. simpl. split.
  - rewrite lookup_app_r by lia.
    replace (S (length (heap w)) - length (heap w))%nat with 1%nat by lia.
    reflexivity.
  - split; [reflexivity|].
    apply pointwise_all_entries. intros v. apply softplus_entry_nonneg, Hb.
Qed.

(** ** Stepping through a call *)

Lemma wp_bind {A B : Type} (c : M A) (k : A -> M B) (w : world) Q :
  wp c w (fun w' r =>
            match r with
            | Ok a => wp (k a) w' Q
            | Raise e => Q w' (Raise e)
            end) ->
  wp (bind c k) w Q.
Proof.
  unfold wp, bind. destruct (c w) as [w' [a|e]]; simpl; auto.
Qed.

Lemma wp_ret {A : Type} (a : A) (w : world) Q : Q w (Ok a) -> wp (ret a) w Q.
Proof. auto. Qed.

Lemma wp_lift {A : Type} (r : result A) (w : world) Q : Q w r -> wp (lift r) w Q.
Proof. auto. Qed.

Lemma wp_load (l : loc) (w : world) Q :
  (forall t, heap w !! l = Some t -> Q w (Ok t)) ->
  (heap w !! l = None -> Q w (Raise Unmodelled)) ->
  wp (load l) w Q.
Proof.
  unfold wp, load. simpl. destruct (heap w !! l); simpl; auto.
Qed.

Lemma wp_alloc (t : tensor) (w : world) Q :
  Q (mkWorld (heap w ++ [t]) (rng w)) (Ok (length (heap w))) ->
  wp (alloc t) w Q.
Proof. auto. Qed.

Lemma wp_store (l : loc) (t : tensor) (w : world) Q :
  Q (mkWorld (<[l := t]> (heap w)) (rng w)) (Ok tt) ->
  wp (store l t) w Q.
Proof. auto. Qed.


(** ** Exceptions a call can raise, and tensors it leaves alone *)

Lemma agree_refl S w : agree_except S w w.
Proof. split; auto. Qed.

Lemma agree_alloc S w0 w t :
  agree_except S w0 w -> agree_except S w0 (mkWorld (heap w ++ [t]) (rng w)).
Proof.
  intros [Hlen Hl]. split; simpl.
  - rewrite length_app. simpl. lia.
  - intros l HS Hlt. rewrite lookup_app_l by lia. auto.
Qed.

Lemma agree_store S w0 w l t :
  agree_except S w0 w -> writable S w0 l ->
  agree_except S w0 (mkWorld (<[l := t]> (heap w)) (rng w)).
Proof.
  intros [Hlen Hl] Hw. split; simpl.
  - rewrite length_insert. exact Hlen.
  - intros l' HS Hlt. rewrite list_lookup_insert_ne; [auto|].
    intros ->. destruct Hw as [Hw|Hw]; [contradiction | lia].
Qed.

Create HintDb benign.

Section Sound.

(** The exceptions that are allowed: those of the tensor operations at
    least. *)
Variable E : exn -> Prop.
Hypothesis E_runtime : E RuntimeError.
Hypothesis E_index : E IndexError.
Hypothesis E_unmodelled : E Unmodelled.

Lemma benign_Ok {A : Type} (a : A) : benign E (Ok a).
Proof. intros e. discriminate. Qed.

Lemma benign_Raise {A : Type} (e : exn) : E e -> benign E (@Raise A e).
Proof. intros H e' [= <-]. exact H. Qed.

Lemma benign_rbind {A B : Type} (r : result A) (k : A -> result B) :
  benign E r -> (forall a, benign E (k a)) -> benign E (rbind r k).
Proof.
  destruct r as [a|e]; simpl; auto.
  intros H _ e' [= <-]. apply H. reflexivity.
Qed.

Lemma benign_of_option {A : Type} (e : exn) (o : option A) :
  E e -> benign E (of_option e o).
Proof. destruct o; simpl; [intros; apply benign_Ok | apply benign_Raise]. Qed.

Lemma benign_zip_same {A B C : Type} (f : A -> B -> result C) l1 l2 :
  (forall a b, benign E (f a b)) -> benign E (zip_same f l1 l2).
Proof.
  intros Hf. revert l2. induction l1 as [|a l1 IH]; intros [|b l2]; simpl;
    try (apply benign_Ok); try (apply benign_Raise, E_unmodelled).
  apply benign_rbind; [apply Hf|]. intros c.
  apply benign_rbind; [apply IH|]. intros; apply benign_Ok.
Qed.

Lemma benign_mapM {A B : Type} (f : A -> result B) l :
  (forall a, benign E (f a)) -> benign E (mapM f l).
Proof.
  intros Hf. induction l as [|a l IH]; simpl; [apply benign_Ok|].
  apply benign_rbind; [apply Hf|]. intros b.
  apply benign_rbind; [apply IH|]. intros; apply benign_Ok.
Qed.

Lemma benign_ew1 {A B C : Type} (g : A -> B -> C) x y : benign E (ew1 g x y).
Proof. apply benign_zip_same. intros; apply benign_Ok. Qed.

Lemma benign_ew2 {A B C : Type} (g : A -> B -> C) x y : benign E (ew2 g x y).
Proof. apply benign_zip_same. intros; apply benign_ew1. Qed.

Lemma benign_ew3 {A B C : Type} (g : A -> B -> C) x y : benign E (ew3 g x y).
Proof. apply benign_zip_same. intros; apply benign_ew2. Qed.

Lemma benign_bcast1 g x y : benign E (bcast1 g x y).
Proof.
  unfold bcast1.
  destruct x as [|x0 [|x1 x]]; destruct y as [|y0 [|y1 y]];
    first [apply benign_Ok | apply benign_ew1].
Qed.

Lemma benign_ew3_bcast g x y : benign E (ew3_bcast g x y).
Proof. do 2 (apply benign_zip_same; intros). apply benign_bcast1. Qed.

Ltac by_cases t :=
  destruct t; simpl;
  first [apply benign_Ok
        | apply benign_Raise; first [exact E_runtime | exact E_index | exact E_unmodelled]].

Lemma benign_as_F2 t : benign E (as_F2 t).
Proof. by_cases t. Qed.

Lemma benign_as_F3 t : benign E (as_F3 t).
Proof. by_cases t. Qed.

Lemma benign_as_L2 t : benign E (as_L2 t).
Proof. by_cases t. Qed.

Lemma benign_as_N2 t : benign E (as_N2 t).
Proof. by_cases t. Qed.

Lemma benign_as_sliceable t : benign E (as_sliceable t).
Proof. by_cases t. Qed.

Lemma benign_argmax row : benign E (argmax row).
Proof. by_cases row. Qed.

Lemma benign_long_map f t : benign E (long_map f t).
Proof. by_cases t. Qed.

Lemma benign_long_to_float f t : benign E (long_to_float f t).
Proof. by_cases t. Qed.

Lemma benign_one_hot_row K z : benign E (one_hot_row K z).
Proof.
  unfold one_hot_row. destruct (_ && _);
    [apply benign_Ok | apply benign_Raise, E_runtime].
Qed.

Lemma benign_one_hot K t : benign E (one_hot K t).
Proof.
  unfold one_hot. destruct (K =? 0)%nat; [apply benign_Raise, E_runtime|].
  destruct t; try (apply benign_Raise, E_runtime);
    (apply benign_rbind; [|intros; apply benign_Ok]).
  - apply benign_mapM, benign_one_hot_row.
  - apply benign_mapM. intros. apply benign_mapM, benign_one_hot_row.
Qed.

Lemma benign_log_softmax t : benign E (log_softmax t).
Proof. by_cases t. Qed.

Lemma benign_ew_tensor g a b : benign E (ew_tensor g a b).
Proof.
  destruct a, b; simpl; try (apply benign_Raise, E_unmodelled);
    (apply benign_rbind; [|intros; apply benign_Ok]);
    [apply benign_ew1 | apply benign_ew2 | apply benign_ew3].
Qed.

Lemma benign_sum_last t : benign E (sum_last t).
Proof. by_cases t. Qed.

Lemma benign_argmax_all p : benign E (mapM (mapM argmax) p).
Proof. apply benign_mapM. intros. apply benign_mapM, benign_argmax. Qed.

Hint Resolve benign_Ok benign_ew1 benign_ew2 benign_ew3 benign_ew3_bcast
  benign_as_F2 benign_as_F3 benign_as_L2 benign_as_N2 benign_argmax_all
  benign_as_sliceable benign_long_map benign_long_to_float benign_one_hot
  benign_log_softmax benign_ew_tensor benign_sum_last benign_zip_same : benign.

Variable S : loc -> Prop.
Variable w0 : world.

Lemma sound_ret {A : Type} (a : A) (P : A -> Prop) :
  P a -> sound E S w0 (ret a) P.
Proof.
  intros HP w Hw. simpl. split; [exact Hw|]. split; [apply benign_Ok|].
  intros ? [= <-]. exact HP.
Qed.

Lemma sound_lift {A : Type} (r : result A) (P : A -> Prop) :
  benign E r -> (forall a, r = Ok a -> P a) -> sound E S w0 (lift r) P.
Proof. intros Hb HP w Hw. simpl. auto. Qed.

Lemma sound_load l : sound E S w0 (load l) any.
Proof.
  intros w Hw. unfold load. simpl. split; [exact Hw|]. split.
  - apply benign_of_option, E_unmodelled.
  - intros; exact I.
Qed.

Lemma sound_alloc t : sound E S w0 (alloc t) (writable S w0).
Proof.
  intros w Hw. unfold alloc. simpl.
  split; [apply (agree_alloc _ _ _ _ Hw)|]. split; [apply benign_Ok|].
  intros ? [= <-]. right. apply Hw.
Qed.

Lemma sound_store l t : writable S w0 l -> sound E S w0 (store l t) any.
Proof.
  intros Hl w Hw. unfold store. simpl.
  split; [apply (agree_store _ _ _ _ _ Hw Hl)|]. split; [apply benign_Ok|].
  intros; exact I.
Qed.

Lemma sound_draw n : sound E S w0 (draw n) any.
Proof.
  intros w Hw. unfold draw. simpl. split; [exact Hw|]. split; [apply benign_Ok|].
  intros; exact I.
Qed.

Lemma sound_bind {A B : Type} (c : M A) (k : A -> M B) P Q :
  sound E S w0 c P -> (forall a, P a -> sound E S w0 (k a) Q) ->
  sound E S w0 (bind c k) Q.
Proof.
  intros Hc Hk w Hw. unfold bind.
  destruct (Hc w Hw) as (Hagree & Hben & HP).
  destruct (c w) as [w' [a|e]]; simpl in *.
  - apply (Hk a (HP a eq_refl) w' Hagree).
  - split; [exact Hagree|]. split; [|discriminate].
    intros e' [= <-]. apply Hben. reflexivity.
Qed.

Lemma sound_weaken {A : Type} (c : M A) (P Q : A -> Prop) :
  sound E S w0 c P -> (forall a, P a -> Q a) -> sound E S w0 c Q.
Proof.
  intros Hc HPQ w Hw. destruct (Hc w Hw) as (? & ? & ?).
  split; [assumption|]. split; [assumption|]. auto.
Qed.

Lemma sound_any {A : Type} (c : M A) (P : A -> Prop) :
  sound E S w0 c P -> sound E S w0 c any.
Proof. intros H. apply (sound_weaken _ _ _ H). intros; exact I. Qed.

Lemma sound_lift_any {A : Type} (r : result A) :
  benign E r -> sound E S w0 (lift r) any.
Proof. intros H. apply sound_lift; [exact H | intros; exact I]. Qed.

Lemma sound_lift_option {A : Type} (o : option A) (e : exn) :
  E e -> sound E S w0 (lift (of_option e o)) (fun a => o = Some a).
Proof.
  intros He. apply sound_lift.
  - apply benign_of_option, He.
  - intros a Ha. destruct o; simpl in Ha; congruence.
Qed.

Lemma sound_loadF2 l : sound E S w0 (loadF2 l) any.
Proof.
  eapply sound_bind; [apply sound_load | intros t _].
  apply sound_lift_any, benign_as_F2.
Qed.

Lemma sound_loadF3 l : sound E S w0 (loadF3 l) any.
Proof.
  eapply sound_bind; [apply sound_load | intros t _].
  apply sound_lift_any, benign_as_F3.
Qed.

Lemma sound_loadL2 l : sound E S w0 (loadL2 l) any.
Proof.
  eapply sound_bind; [apply sound_load | intros t _].
  apply sound_lift_any, benign_as_L2.
Qed.

Lemma sound_loadN2 l : sound E S w0 (loadN2 l) any.
Proof.
  eapply sound_bind; [apply sound_load | intros t _].
  apply sound_lift_any, benign_as_N2.
Qed.

Lemma sound_for_range (l : list nat) (body : nat -> M unit) :
  (forall i, sound E S w0 (body i) any) -> sound E S w0 (for_range l body) any.
Proof.
  intros Hb. induction l as [|i l IH]; simpl.
  - apply sound_ret. exact I.
  - eapply sound_bind; [apply Hb | intros _ _; exact IH].
Qed.

(** One step of a call whose reads, allocations and writes are all
    harmless; a write needs its target to be [writable]. *)
Ltac sound_step :=
  lazymatch goal with
  | |- sound _ _ _ (bind (load _) _) _ =>
      eapply sound_bind; [apply sound_load | intros ? _]
  | |- sound _ _ _ (bind (loadF2 _) _) _ =>
      eapply sound_bind; [apply sound_loadF2 | intros ? _]
  | |- sound _ _ _ (bind (loadF3 _) _) _ =>
      eapply sound_bind; [apply sound_loadF3 | intros ? _]
  | |- sound _ _ _ (bind (loadL2 _) _) _ =>
      eapply sound_bind; [apply sound_loadL2 | intros ? _]
  | |- sound _ _ _ (bind (loadN2 _) _) _ =>
      eapply sound_bind; [apply sound_loadN2 | intros ? _]
  | |- sound _ _ _ (bind (lift (of_option _ _)) _) _ =>
      eapply sound_bind; [apply sound_lift_option; assumption | intros ? ?]
  | |- sound _ _ _ (bind (lift _) _) _ =>
      eapply sound_bind;
      [apply sound_lift_any; solve [eauto with benign] | intros ? _]
  | |- sound _ _ _ (bind (alloc _) _) _ =>
      eapply sound_bind; [apply sound_alloc | intros ? ?]
  | |- sound _ _ _ (bind (store _ _) _) _ =>
      eapply sound_bind; [apply sound_store; assumption | intros ? _]
  | |- sound _ _ _ (bind (draw _) _) _ =>
      eapply sound_bind; [apply sound_draw | intros ? _]
  | |- sound _ _ _ (ret _) _ => apply sound_ret; exact I
  | |- sound _ _ _ (lift _) _ =>
      apply sound_lift_any; solve [eauto with benign]
  | |- sound _ _ _ (load _) _ => apply sound_load
  | |- sound _ _ _ (alloc _) _ => eapply sound_any; apply sound_alloc
  | |- sound _ _ _ (store _ _) _ => apply sound_store; assumption
  end.

Lemma softplus_sound x beta : sound E S w0 (softplus x beta) any.
Proof. unfold softplus. repeat sound_step. Qed.

Lemma compute_event_sound event non_pad_mask :
  writable S w0 event -> sound E S w0 (compute_event event non_pad_mask) any.
Proof. intros Hw. unfold compute_event. repeat sound_step. Qed.

Lemma compute_integral_biased_sound all_lambda time non_pad_mask :
  sound E S w0 (compute_integral_biased all_lambda time non_pad_mask) any.
Proof. unfold compute_integral_biased. repeat sound_step. Qed.

Lemma time_loss_sound prediction event_time :
  writable S w0 prediction ->
  sound E S w0 (time_loss prediction event_time) any.
Proof. intros Hw. unfold time_loss. repeat sound_step. Qed.

Lemma forward_sound self output target :
  writable S w0 target -> sound E S w0 (forward self output target) any.
Proof. intros Hw. unfold forward. repeat sound_step. Qed.

Lemma run_loss_sound loss_func prediction truth :
  writable S w0 truth -> criterion_benign E loss_func ->
  sound E S w0 (run_loss loss_func prediction truth) any.
Proof.
  intros Hw Hf. destruct loss_func as [self|f]; simpl.
  - eapply sound_bind; [apply forward_sound; exact Hw | intros l _].
    apply sound_load.
  - unfold criterion_benign in Hf. repeat sound_step.
Qed.

Lemma type_loss_sound prediction types loss_func :
  criterion_benign E loss_func ->
  sound E S w0 (type_loss prediction types loss_func) any.
Proof.
  intros Hf. unfold type_loss. repeat sound_step.
  eapply sound_bind; [apply run_loss_sound; assumption | intros ? _].
  sound_step.
Qed.

Lemma rand3_sound b l n : sound E S w0 (rand3 b l n) any.
Proof. unfold rand3. repeat sound_step. Qed.

Lemma compute_integral_unbiased_sound model process_idx
    data time non_pad_mask type_mask :
  linear_benign E model process_idx ->
  sound E S w0
    (compute_integral_unbiased model process_idx data time non_pad_mask
       type_mask)
    any.
Proof.
  intros Hlin. unfold linear_benign in Hlin.
  unfold compute_integral_unbiased. repeat sound_step.
  eapply sound_bind; [apply rand3_sound | intros ? _]. repeat sound_step.
  eapply sound_bind; [apply softplus_sound | intros ? _].
  repeat sound_step.
Qed.

Lemma log_likelihood_sound model process_idx data time types :
  linear_benign E model process_idx ->
  sound E S w0 (log_likelihood model process_idx data time types) any.
Proof.
  intros Hlin. assert (Hlin' := Hlin). unfold linear_benign in Hlin'.
  unfold log_likelihood. repeat sound_step.
  eapply sound_bind.
  { apply sound_for_range. intros i. repeat sound_step. }
  intros _ _. repeat sound_step.
  eapply sound_bind; [apply softplus_sound | intros ? _].
  repeat sound_step.
  eapply sound_bind; [apply compute_event_sound; assumption | intros ? _].
  repeat sound_step.
  eapply sound_bind;
    [apply compute_integral_unbiased_sound; exact Hlin | intros ? _].
  repeat sound_step.
Qed.

End Sound.

(** ** Element-wise operations on tensors of one shape *)

Lemma zip_same_zip_with {A B C : Type} (f : A -> B -> result C) (h : A -> B -> C)
    (l1 : list A) (l2 : list B) :
  Forall2 (fun a b => f a b = Ok (h a b)) l1 l2 ->
  zip_same f l1 l2 = Ok (zip_with h l1 l2).
Proof.
  induction 1 as [|a b l1 l2 Hab _ IH]; simpl; [reflexivity|].
  rewrite Hab. simpl. rewrite IH. reflexivity.
Qed.

Lemma ew1_ok {A B C : Type} (g : A -> B -> C) (x : vec A) (y : vec B) :
  length x = length y -> ew1 g x y = Ok (zip_with g x y).
Proof.
  intros Hlen. apply zip_same_zip_with.
  revert y Hlen. induction x as [|a x IH]; intros [|b y] Hlen; simpl in Hlen;
    try discriminate; constructor; auto.
Qed.

Lemma ew2_ok {A B C : Type} (g : A -> B -> C) (x : mat A) (y : mat B) :
  same_shape x y -> ew2 g x y = Ok (zip_with (zip_with g) x y).
Proof.
  intros Hs. apply zip_same_zip_with.
  induction Hs; constructor; auto using ew1_ok.
Qed.

Lemma same_shape_refl {A : Type} (m : mat A) : same_shape m m.
Proof. induction m; constructor; auto. Qed.

Lemma same_shape_sym {A B : Type} (a : mat A) (b : mat B) :
  same_shape a b -> same_shape b a.
Proof. induction 1; constructor; auto. Qed.

Lemma same_shape_trans {A B C : Type} (a : mat A) (b : mat B) (c : mat C) :
  same_shape a b -> same_shape b c -> same_shape a c.
Proof.
  intros Hab. revert c.
  induction Hab as [|r s a b Hrs _ IH]; intros c Hbc; inversion Hbc; subst.
  - constructor.
  - constructor; [congruence | apply IH; assumption].
Qed.

Lemma same_shape_map_l {A A' B : Type} (f : A -> A') (a : mat A) (b : mat B) :
  same_shape a b -> same_shape (map (map f) a) b.
Proof. induction 1; simpl; constructor; [rewrite length_map|]; assumption. Qed.

Lemma same_shape_zip_with {A B C D : Type} (g : A -> B -> C)
    (a : mat A) (b : mat B) (d : mat D) :
  same_shape a b -> same_shape a d -> same_shape (zip_with (zip_with g) a b) d.
Proof.
  intros Hab. revert d.
  induction Hab as [|r s a b Hrs _ IH]; intros d Hd; inversion Hd; subst; simpl.
  - constructor.
  - constructor; [rewrite length_zip_with; lia | apply IH; assumption].
Qed.

Lemma same_shape_tail2 {A B : Type} (a : mat A) (b : mat B) :
  same_shape a b -> same_shape (tail2 a) (tail2 b).
Proof.
  induction 1; simpl; constructor; [rewrite !length_drop; lia | assumption].
Qed.

Lemma same_shape_init2 {A B : Type} (a : mat A) (b : mat B) :
  same_shape a b -> same_shape (init2 a) (init2 b).
Proof.
  induction 1; simpl; constructor; [rewrite !length_take; lia | assumption].
Qed.

Lemma same_shape_tail_init {A : Type} (a : mat A) : same_shape (tail2 a) (init2 a).
Proof.
  induction a; simpl; constructor; [|assumption].
  rewrite length_drop, length_take. lia.
Qed.

Lemma same_shape_init_tail {A : Type} (a : mat A) : same_shape (init2 a) (tail2 a).
Proof. apply same_shape_sym, same_shape_tail_init. Qed.

Lemma same_shape_zip_with_r {A B C D : Type} (g : A -> B -> C)
    (a : mat A) (b : mat B) (d : mat D) :
  same_shape a b -> same_shape d a -> same_shape d (zip_with (zip_with g) a b).
Proof.
  intros Hab Hda. apply same_shape_sym, same_shape_zip_with;
    [exact Hab | apply same_shape_sym, Hda].
Qed.

Lemma same_shape_map_r {A B B' : Type} (f : B -> B') (a : mat A) (b : mat B) :
  same_shape a b -> same_shape a (map (map f) b).
Proof. intros H. apply same_shape_sym, same_shape_map_l, same_shape_sym, H. Qed.

Create HintDb shape.

#[global] Hint Resolve same_shape_refl same_shape_tail_init same_shape_init_tail
  same_shape_zip_with same_shape_zip_with_r same_shape_map_l same_shape_map_r
  same_shape_tail2 same_shape_init2 : shape.

(** ** Entries *)

Lemma lookup_map {A B : Type} (f : A -> B) (l : list A) (i : nat) :
  map f l !! i = option_map f (l !! i).
Proof.
  revert i. induction l as [|a l IH]; intros [|i]; simpl; auto.
Qed.

Lemma at2_map {A B : Type} (f : A -> B) (m : mat A) (i j : nat) :
  at2 (map (map f) m) i j = option_map f (at2 m i j).
Proof.
  unfold at2. rewrite lookup_map.
  destruct (m !! i) as [r|]; simpl; [|reflexivity].
  apply lookup_map.
Qed.

Lemma at2_zip_with {A B C : Type} (g : A -> B -> C) (a : mat A) (b : mat B)
    (i j : nat) (x : A) (y : B) :
  at2 a i j = Some x -> at2 b i j = Some y ->
  at2 (zip_with (zip_with g) a b) i j = Some (g x y).
Proof.
  unfold at2. intros Ha Hb. rewrite lookup_zip_with.
  destruct (a !! i) as [r|]; [|discriminate].
  destruct (b !! i) as [s|]; [|discriminate]. simpl.
  rewrite lookup_zip_with, Ha, Hb. reflexivity.
Qed.

Lemma at2_tail2 {A : Type} (m : mat A) (i j : nat) :
  at2 (tail2 m) i j = at2 m i (S j).
Proof.
  unfold at2, tail2. rewrite lookup_map.
  destruct (m !! i) as [r|]; simpl; [|reflexivity].
  rewrite lookup_drop. reflexivity.
Qed.

Lemma at2_init2 {A : Type} (m : mat A) (i j : nat) (y : A) :
  at2 m i (S j) = Some y -> at2 (init2 m) i j = at2 m i j.
Proof.
  unfold at2, init2. rewrite lookup_map.
  destruct (m !! i) as [r|]; simpl; [|reflexivity].
  intros Hy. apply lookup_lt_Some in Hy. rewrite lookup_take_lt by lia. reflexivity.
Qed.

(** ** Running a call step by step *)

Lemma bind_ok {A B : Type} (c : M A) (k : A -> M B) (w w' : world) (a : A) :
  c w = (w', Ok a) -> bind c k w = k a w'.
Proof. unfold bind. intros ->. reflexivity. Qed.

Lemma bind_raise {A B : Type} (c : M A) (k : A -> M B) (w w' : world) (e : exn) :
  c w = (w', Raise e) -> bind c k w = (w', Raise e).
Proof. unfold bind. intros ->. reflexivity. Qed.

Lemma load_ok (w : world) (l : loc) (t : tensor) :
  heap w !! l = Some t -> load l w = (w, Ok t).
Proof. unfold load. intros ->. reflexivity. Qed.

Lemma loadF2_ok (w : world) (l : loc) (m : mat R) :
  heap w !! l = Some (F2 m) -> loadF2 l w = (w, Ok m).
Proof. intros H. unfold loadF2. rewrite (bind_ok _ _ _ _ _ (load_ok _ _ _ H)). reflexivity. Qed.

Lemma loadF3_ok (w : world) (l : loc) (c : cube R) :
  heap w !! l = Some (F3 c) -> loadF3 l w = (w, Ok c).
Proof. intros H. unfold loadF3. rewrite (bind_ok _ _ _ _ _ (load_ok _ _ _ H)). reflexivity. Qed.

Lemma loadL2_ok (w : world) (l : loc) (m : mat Z) :
  heap w !! l = Some (L2 m) -> loadL2 l w = (w, Ok m).
Proof. intros H. unfold loadL2. rewrite (bind_ok _ _ _ _ _ (load_ok _ _ _ H)). reflexivity. Qed.

Lemma loadN2_ok (w : world) (l : loc) (t : tensor) (m : mat R) :
  heap w !! l = Some t -> as_N2 t = Ok m -> loadN2 l w = (w, Ok m).
Proof.
  intros H Hn. unfold loadN2. rewrite (bind_ok _ _ _ _ _ (load_ok _ _ _ H)).
  unfold lift. rewrite Hn. reflexivity.
Qed.

Lemma lift_ok {A : Type} (r : result A) (a : A) (w : world) :
  r = Ok a -> lift r w = (w, Ok a).
Proof. intros ->. reflexivity. Qed.

Lemma store_ok (w : world) (l : loc) (t : tensor) :
  store l t w = (mkWorld (<[l := t]> (heap w)) (rng w), Ok tt).
Proof. reflexivity. Qed.

Lemma alloc_ok (w : world) (t : tensor) :
  alloc t w = (mkWorld (heap w ++ [t]) (rng w), Ok (length (heap w))).
Proof. reflexivity. Qed.

(** ** compute_event *)

(** What [compute_event] does to the world: [event] is overwritten, the
    result is a fresh tensor. *)
Lemma compute_event_run (w : world) (event non_pad_mask : loc)
    (e : mat R) (tm : tensor) (m : mat R) :
  event <> non_pad_mask ->
  heap w !! event = Some (F2 e) ->
  heap w !! non_pad_mask = Some tm ->
  as_N2 tm = Ok m ->
  same_shape e m ->
  let filled :=
    zip_with (zip_with (fun v k => if negb (to_bool k) then 1 else v))
      (map (map (fun v => v + tiny)) e) m in
  compute_event event non_pad_mask w =
    (mkWorld (<[event := F2 filled]> (heap w) ++ [F2 (map (map ln) filled)]) (rng w),
     Ok (length (heap w))).
Proof.
  intros Hne He Hm Hn Hs filled.
  pose proof (lookup_lt_Some _ _ _ He) as Hlt.
  unfold compute_event.
  rewrite (bind_ok _ _ _ _ _ (loadF2_ok _ _ _ He)).
  rewrite (bind_ok _ _ _ _ _ (store_ok _ _ _)).
  erewrite bind_ok;
    [|eapply loadN2_ok; [simpl; rewrite list_lookup_insert_ne by exact Hne; exact Hm | exact Hn]].
  erewrite bind_ok;
    [|apply loadF2_ok; simpl; apply list_lookup_insert_eq; exact Hlt].
  erewrite bind_ok; [|apply lift_ok, ew2_ok, same_shape_map_l, Hs].
  rewrite (bind_ok _ _ _ _ _ (store_ok _ _ _)).
  erewrite bind_ok;
    [|apply loadF2_ok; simpl; apply list_lookup_insert_eq; rewrite length_insert; exact Hlt].
  rewrite alloc_ok. simpl.
  rewrite list_insert_insert_eq, length_insert. reflexivity.
Qed.

Lemma to_bool_0 : to_bool 0 = false.
Proof. unfold to_bool. destruct (Req_dec_T 0 0); congruence. Qed.

Lemma to_bool_false (k : R) : to_bool k = false -> k = 0.
Proof. unfold to_bool. destruct (Req_dec_T k 0); congruence. Qed.

Lemma same_shape_at2 {A B : Type} (a : mat A) (b : mat B) (i j : nat) (y : B) :
  same_shape a b -> at2 b i j = Some y -> exists x, at2 a i j = Some x.
Proof.
  unfold at2. intros Hs Hy.
  destruct (b !! i) as [s|] eqn:Hb; [|discriminate].
  destruct (Forall2_lookup_r _ _ _ _ _ Hs Hb) as (r & -> & Hlen).
  apply lookup_lt_is_Some. rewrite Hlen. eapply lookup_lt_Some, Hy.
Qed.

Lemma sum_valid_entries (mrow row : vec R) :
  length mrow = length row ->
  (forall j k v, mrow !! j = Some k -> row !! j = Some v -> k = 0 -> v = 0) ->
  sum_list row = sum_list (valid_entries mrow row).
Proof.
  revert row. induction mrow as [|k mrow IH]; intros [|v row] Hlen Hz;
    simpl in *; try discriminate; [reflexivity|].
  assert (IH' : sum_list row = sum_list (valid_entries mrow row)).
  { apply IH; [lia|]. intros j k' v' Hk Hv. apply (Hz (S j)); assumption. }
  destruct (to_bool k) eqn:Hk; simpl; [rewrite IH'; reflexivity|].
  rewrite (Hz 0%nat k v eq_refl eq_refl (to_bool_false _ Hk)), IH'. lra.
Qed.

(** C6: whatever the intensities, [compute_event] returns exactly 0 at every
    padded position (mask 0), so that the sum of a row of the result is the
    sum of its entries at the real events alone. *)
Theorem compute_event_padding_zero (w : world) (event non_pad_mask : loc)
    (e : mat R) (tm : tensor) (m : mat R) :
  event <> non_pad_mask ->
  heap w !! event = Some (F2 e) ->
  heap w !! non_pad_mask = Some tm ->
  as_N2 tm = Ok m ->
  same_shape e m ->
  exists w' r out,
    compute_event event non_pad_mask w = (w', Ok r) /\
    heap w' !! r = Some (F2 out) /\
    same_shape out m /\
    (forall i j, at2 m i j = Some 0 -> at2 out i j = Some 0) /\
    (forall i mrow row, m !! i = Some mrow -> out !! i = Some row ->
       sum_list row = sum_list (valid_entries mrow row)).
Proof.
  intros Hne He Hm Hn Hs.
  pose proof (compute_event_run w event non_pad_mask e tm m Hne He Hm Hn Hs) as Hrun.
  cbv zeta in Hrun.
  set (filled := zip_with (zip_with (fun v k => if negb (to_bool k) then 1 else v))
                   (map (map (fun v => v + tiny)) e) m) in *.
  assert (Hzero : forall i j, at2 m i j = Some 0 ->
            at2 (map (map ln) filled) i j = Some 0).
  { intros i j Hk.
    destruct (same_shape_at2 e m i j 0 Hs Hk) as [v Hv].
    rewrite at2_map. unfold filled.
    erewrite at2_zip_with; [| rewrite at2_map, Hv; reflexivity | exact Hk].
    rewrite to_bool_0. simpl. rewrite ln_1. reflexivity. }
  assert (Hshape : same_shape (map (map ln) filled) m).
  { apply same_shape_map_l. unfold filled.
    apply same_shape_zip_with; apply same_shape_map_l; assumption. }
  eexists _, _, _. split; [exact Hrun|]. simpl.
  split; [rewrite <- (length_insert (heap w) event (F2 filled)); apply lookup_snoc_new|].
  split; [exact Hshape|]. split; [exact Hzero|].
  intros i mrow row Hmi Hri. apply sum_valid_entries.
  - destruct (Forall2_lookup_r _ _ _ _ _ Hshape Hmi) as (row' & Hr' & Hlen).
    congruence.
  - intros j k v Hk Hv ->.
    specialize (Hzero i j). unfold at2 in Hzero. rewrite Hmi, Hri in Hzero.
    specialize (Hzero Hk). congruence.
Qed.

Lemma compute_event_padding_zero_witness :
  exists w' r out,
    compute_event 0%nat 1%nat
      (mkWorld [F2 [[0.5; 0.25]]; F2 [[1; 0]]] (fun _ => 0)) = (w', Ok r) /\
    heap w' !! r = Some (F2 out) /\
    same_shape out [[1; 0]] /\
    (forall i j, at2 [[1; 0]] i j = Some 0 -> at2 out i j = Some 0) /\
    (forall i mrow row, [[1; 0]] !! i = Some mrow -> out !! i = Some row ->
       sum_list row = sum_list (valid_entries mrow row)).
Proof.
  apply (compute_event_padding_zero
           (mkWorld [F2 [[0.5; 0.25]]; F2 [[1; 0]]] (fun _ => 0)) 0%nat 1%nat
           [[0.5; 0.25]] (F2 [[1; 0]]) [[1; 0]]).
  - discriminate.
  - reflexivity.
  - reflexivity.
  - reflexivity.
  - repeat constructor.
Defined.

(** ** Which tensors a call overwrites *)

Lemma agree_unchanged (w w' : world) :
  agree_except nowhere w w' -> unchanged w w'.
Proof.
  intros [_ H] l t Hl. rewrite H; [exact Hl | intros [] | eapply lookup_lt_Some, Hl].
Qed.

Lemma agree_unchanged_but (x : loc) (w w' : world) :
  agree_except (only x) w w' -> unchanged_but x w w'.
Proof.
  intros [_ H] l t Hne Hl.
  rewrite H; [exact Hl | exact Hne | eapply lookup_lt_Some, Hl].
Qed.

Lemma all_allowed_criterion (loss_func : loss_fn) : criterion_benign any_exn loss_func.
Proof. intros f p t _ e _. exact I. Qed.

Lemma all_allowed_linear (model : Model) (i : nat) : linear_benign any_exn model i.
Proof. intros lin d _ e _. exact I. Qed.

Ltac wp_step :=
  lazymatch goal with
  | |- wp (bind _ _) _ _ => apply wp_bind
  | |- wp (ret _) _ _ => apply wp_ret
  | |- wp (lift ?r) _ _ => apply wp_lift; destruct r; cbv beta iota
  | |- wp (load _) _ _ => apply wp_load; cbv beta iota; intros
  | |- wp (alloc _) _ _ => apply wp_alloc; cbv beta iota
  | |- wp (store _ _) _ _ => apply wp_store; cbv beta iota
  | |- wp (loadN2 _) _ _ => unfold loadN2
  | |- wp (loadF2 _) _ _ => unfold loadF2
  | |- wp (loadF3 _) _ _ => unfold loadF3
  | |- wp (loadL2 _) _ _ => unfold loadL2
  end.

Lemma concat_singletons {A : Type} (d : A) (m : mat A) :
  forallb singleton m = true -> map (hd d) m = concat m.
Proof.
  induction m as [|[|a [|b r]] m IH]; simpl; try discriminate; [reflexivity|].
  intros H. rewrite IH by exact H. reflexivity.
Qed.

Lemma entries_squeeze_last (t : tensor) : entries (squeeze_last t) = entries t.
Proof.
  destruct t as [v|m|c|v|m]; simpl; try reflexivity.
  - destruct (forallb singleton m) eqn:H; simpl; [|reflexivity].
    apply concat_singletons, H.
  - destruct (forallb (forallb singleton) c) eqn:H; simpl; [|reflexivity].
    f_equal. induction c as [|m c IH]; simpl in *; [reflexivity|].
    apply andb_prop in H as [H1 H2].
    rewrite (concat_singletons 0 m H1), IH by exact H2. reflexivity.
  - destruct (forallb singleton m) eqn:H; simpl; [|reflexivity].
    f_equal. apply concat_singletons, H.
Qed.

(** [time_loss] leaves its [prediction] argument squeezed. *)
Lemma time_loss_squeezes (w : world) (prediction event_time : loc) (p : tensor) :
  heap w !! prediction = Some p ->
  heap (fst (time_loss prediction event_time w)) !! prediction
    = Some (squeeze_last p).
Proof.
  intros Hp. pose proof (lookup_lt_Some _ _ _ Hp) as Hlt.
  change (wp (time_loss prediction event_time) w
            (fun w' _ => heap w' !! prediction = Some (squeeze_last p))).
  unfold time_loss. wp_step. apply wp_load; cbv beta iota; [|congruence].
  intros p' Hp'. assert (p' = p) as -> by congruence.
  assert (Hdone : heap (mkWorld (<[prediction := squeeze_last p]> (heap w)) (rng w))
                    !! prediction = Some (squeeze_last p)).
  { simpl. apply list_lookup_insert_eq, Hlt. }
  repeat (wp_step; try exact Hdone).
Qed.

(** ** LabelSmoothingLoss.forward overwrites its target *)

Lemma forward_target_after (self : LabelSmoothingLoss) (w : world)
    (output target : loc) (t t' : tensor) :
  heap w !! target = Some t ->
  long_map (clear_ignored self) t = Ok t' ->
  heap (fst (forward self output target w)) !! target = Some t'.
Proof.
  intros Ht Hmap. pose proof (lookup_lt_Some _ _ _ Ht) as Hlt.
  change (wp (forward self output target) w
            (fun w' _ => heap w' !! target = Some t')).
  assert (Hfloat : exists f,
            long_to_float (fun z => if (z =? ignore_index self)%Z then 0 else 1) t = Ok f).
  { destruct t; try discriminate; simpl; eauto. }
  destruct Hfloat as [f Hf].
  unfold forward. wp_step. apply wp_load; cbv beta iota; [|congruence].
  intros t0 Ht0. assert (t0 = t) as -> by congruence.
  wp_step. apply wp_lift. rewrite Hf. cbv beta iota.
  wp_step. apply wp_load; cbv beta iota; [|congruence].
  intros t1 Ht1. assert (t1 = t) as -> by congruence.
  wp_step. apply wp_lift. unfold clear_ignored in Hmap. rewrite Hmap.
  cbv beta iota.
  wp_step. apply wp_store. cbv beta iota.
  assert (Hdone : heap (mkWorld (<[target := t']> (heap w)) (rng w)) !! target
                  = Some t').
  { simpl. apply list_lookup_insert_eq, Hlt. }
  repeat (wp_step; try exact Hdone).
  simpl. apply lookup_snoc_old. exact Hdone.
Qed.

Lemma sound_frame {A : Type} E S (w : world) (c : M A) P :
  sound E S w c P -> agree_except S w (fst (c w)).
Proof. intros H. apply (H w (agree_refl _ _)). Qed.

Lemma sound_benign {A : Type} E S (w : world) (c : M A) P :
  sound E S w c P -> benign E (snd (c w)).
Proof. intros H. apply (H w (agree_refl _ _)). Qed.

Lemma forward_unchanged_but (self : LabelSmoothingLoss) (w : world)
    (output target : loc) :
  unchanged_but target w (fst (forward self output target w)).
Proof.
  apply agree_unchanged_but, (sound_frame any_exn _ _ _ any).
  apply forward_sound; try exact I. left. reflexivity.
Qed.

(** C8: [forward] overwrites the caller's [target] in place: afterwards every
    entry that was the ignore index is 0 and every other entry is what it
    was; no other tensor of the caller changes. *)
Theorem forward_mutates_target (self : LabelSmoothingLoss) (w : world)
    (output target : loc) :
  (forall v, heap w !! target = Some (L1 v) ->
     heap (fst (forward self output target w)) !! target
       = Some (L1 (map (clear_ignored self) v))) /\
  (forall m, heap w !! target = Some (L2 m) ->
     heap (fst (forward self output target w)) !! target
       = Some (L2 (map (map (clear_ignored self)) m))) /\
  (forall z, z = ignore_index self -> clear_ignored self z = 0%Z) /\
  (forall z, z <> ignore_index self -> clear_ignored self z = z) /\
  unchanged_but target w (fst (forward self output target w)).
Proof.
  split; [|split; [|split; [|split]]].
  - intros v Hv. apply (forward_target_after _ _ _ _ _ _ Hv). reflexivity.
  - intros m Hm. apply (forward_target_after _ _ _ _ _ _ Hm). reflexivity.
  - intros z ->. unfold clear_ignored. rewrite Z.eqb_refl. reflexivity.
  - intros z Hz. unfold clear_ignored.
    destruct (Z.eqb_spec z (ignore_index self)); [contradiction | reflexivity].
  - apply forward_unchanged_but.
Qed.

(** A batch of three targets, the second one ignored: the caller's tensor
    holds [3; 0; 1] after the call. *)
Lemma forward_mutates_target_witness :
  heap (fst (forward (mkLabelSmoothingLoss 0.5 4 (-100)) 0%nat 1%nat
               (mkWorld [F2 [[0; 0; 0; 0]; [0; 0; 0; 0]; [0; 0; 0; 0]];
                         L1 [3; -100; 1]%Z] (fun _ => 0)))) !! 1%nat
  = Some (L1 [3; 0; 1]%Z).
Proof.
  exact (proj1 (forward_mutates_target (mkLabelSmoothingLoss 0.5 4 (-100))
                  (mkWorld [F2 [[0; 0; 0; 0]; [0; 0; 0; 0]; [0; 0; 0; 0]];
                            L1 [3; -100; 1]%Z] (fun _ => 0)) 0%nat 1%nat)
           [3; -100; 1]%Z eq_refl).
Defined.

(** ** In-place operations on arguments *)

(** [compute_event] overwrites the intensity of a padded position in its
    [event] argument: the caller's 1 x 1 intensity [[0.5]] with mask [[0]]
    holds [[1]] after the call. *)
Lemma compute_event_overwrites_event :
  heap (mkWorld [F2 [[0.5]]; F2 [[0]]] (fun _ => 0)) !! 0%nat = Some (F2 [[0.5]]) /\
  heap (fst (compute_event 0%nat 1%nat
               (mkWorld [F2 [[0.5]]; F2 [[0]]] (fun _ => 0)))) !! 0%nat
    = Some (F2 [[1]]) /\
  F2 [[1]] <> F2 [[0.5]].
Proof.
  split; [reflexivity|]. split.
  - rewrite (compute_event_run _ 0%nat 1%nat [[0.5]] (F2 [[0]]) [[0]]);
      [| discriminate | reflexivity | reflexivity | reflexivity | repeat constructor].
    simpl. rewrite to_bool_0. reflexivity.
  - intros H. injection H as H. lra.
Qed.

(** C2 (amended): [softplus], [compute_integral_biased],
    [compute_integral_unbiased], [log_likelihood] and [type_loss] leave every
    tensor of the caller as it was; [compute_event] leaves every tensor but
    [event] as it was; [time_loss] leaves every tensor but [prediction] as it
    was, and [prediction] with the entries it had, squeezed. *)
Theorem arguments_unchanged_except_in_place :
  (forall w x beta, unchanged w (fst (softplus x beta w))) /\
  (forall w all_lambda time non_pad_mask,
     unchanged w (fst (compute_integral_biased all_lambda time non_pad_mask w))) /\
  (forall w model process_idx data time non_pad_mask type_mask,
     unchanged w
       (fst (compute_integral_unbiased model process_idx data time non_pad_mask
               type_mask w))) /\
  (forall w model process_idx data time types,
     unchanged w (fst (log_likelihood model process_idx data time types w))) /\
  (forall w prediction types loss_func,
     unchanged w (fst (type_loss prediction types loss_func w))) /\
  (forall w event non_pad_mask,
     unchanged_but event w (fst (compute_event event non_pad_mask w))) /\
  (forall w prediction event_time,
     unchanged_but prediction w (fst (time_loss prediction event_time w))) /\
  (forall w prediction event_time p,
     heap w !! prediction = Some p ->
     heap (fst (time_loss prediction event_time w)) !! prediction
       = Some (squeeze_last p) /\
     entries (squeeze_last p) = entries p).
Proof.
  repeat match goal with |- _ /\ _ => split end; intros.
  - apply agree_unchanged, (sound_frame any_exn _ _ _ any).
    apply softplus_sound; exact I.
  - apply agree_unchanged, (sound_frame any_exn _ _ _ any).
    apply compute_integral_biased_sound; exact I.
  - apply agree_unchanged, (sound_frame any_exn _ _ _ any).
    apply compute_integral_unbiased_sound; try exact I. apply all_allowed_linear.
  - apply agree_unchanged, (sound_frame any_exn _ _ _ any).
    apply log_likelihood_sound; try exact I. apply all_allowed_linear.
  - apply agree_unchanged, (sound_frame any_exn _ _ _ any).
    apply type_loss_sound; try exact I. apply all_allowed_criterion.
  - apply agree_unchanged_but, (sound_frame any_exn _ _ _ any).
    apply compute_event_sound; try exact I. left. reflexivity.
  - apply agree_unchanged_but, (sound_frame any_exn _ _ _ any).
    apply time_loss_sound; try exact I. left. reflexivity.
  - split; [apply time_loss_squeezes; assumption | apply entries_squeeze_last].
Qed.

(** ** Explicit validation *)

Lemma no_assertion_plain {A : Type} (r : result A) :
  benign no_assertion r -> r <> Raise AssertionError.
Proof. intros H E. exact (H AssertionError E eq_refl). Qed.

(** The constructor rejects a smoothing factor of 0 by an explicit check. *)
Lemma init_rejects_zero_smoothing :
  ~ (0 < 0 <= 1) /\
  LabelSmoothingLoss_init 0 2 default_ignore_index = Raise AssertionError.
Proof.
  split; [lra|]. unfold LabelSmoothingLoss_init.
  destruct (Rlt_dec 0 0); [lra | reflexivity].
Qed.

(** C3 (amended): the constructor of [LabelSmoothingLoss] checks its
    smoothing factor: it builds the object for a factor in (0, 1] and fails
    the assertion outside.  No other operation of the module holds a check
    of its own: none of them fails an assertion, whatever its input. *)
Theorem validation_only_in_constructor :
  (forall ls K ign, 0 < ls <= 1 ->
     LabelSmoothingLoss_init ls K ign = Ok (mkLabelSmoothingLoss ls K ign)) /\
  (forall ls K ign, ~ (0 < ls <= 1) ->
     LabelSmoothingLoss_init ls K ign = Raise AssertionError) /\
  (forall w x beta, snd (softplus x beta w) <> Raise AssertionError) /\
  (forall w event non_pad_mask,
     snd (compute_event event non_pad_mask w) <> Raise AssertionError) /\
  (forall w all_lambda time non_pad_mask,
     snd (compute_integral_biased all_lambda time non_pad_mask w)
       <> Raise AssertionError) /\
  (forall w prediction event_time,
     snd (time_loss prediction event_time w) <> Raise AssertionError) /\
  (forall w self output target,
     snd (forward self output target w) <> Raise AssertionError) /\
  (forall w model process_idx data time non_pad_mask type_mask,
     linear_benign no_assertion model process_idx ->
     snd (compute_integral_unbiased model process_idx data time non_pad_mask
            type_mask w) <> Raise AssertionError) /\
  (forall w model process_idx data time types,
     linear_benign no_assertion model process_idx ->
     snd (log_likelihood model process_idx data time types w)
       <> Raise AssertionError) /\
  (forall w prediction types loss_func,
     criterion_benign no_assertion loss_func ->
     snd (type_loss prediction types loss_func w) <> Raise AssertionError).
Proof.
  repeat match goal with |- _ /\ _ => split end; intros.
  - unfold LabelSmoothingLoss_init.
    destruct (Rlt_dec 0 ls); [|lra]. destruct (Rle_dec ls 1); [reflexivity | lra].
  - unfold LabelSmoothingLoss_init.
    destruct (Rlt_dec 0 ls); [|reflexivity].
    destruct (Rle_dec ls 1); [lra | reflexivity].
  - apply no_assertion_plain, (sound_benign _ nowhere _ _ any).
    apply softplus_sound; discriminate.
  - apply no_assertion_plain, (sound_benign _ (only event) _ _ any).
    apply compute_event_sound; try discriminate. left. reflexivity.
  - apply no_assertion_plain, (sound_benign _ nowhere _ _ any).
    apply compute_integral_biased_sound; discriminate.
  - apply no_assertion_plain, (sound_benign _ (only prediction) _ _ any).
    apply time_loss_sound; try discriminate. left. reflexivity.
  - apply no_assertion_plain, (sound_benign _ (only target) _ _ any).
    apply forward_sound; try discriminate. left. reflexivity.
  - apply no_assertion_plain, (sound_benign _ nowhere _ _ any).
    apply compute_integral_unbiased_sound; try discriminate. assumption.
  - apply no_assertion_plain, (sound_benign _ nowhere _ _ any).
    apply log_likelihood_sound; try discriminate. assumption.
  - apply no_assertion_plain, (sound_benign _ nowhere _ _ any).
    apply type_loss_sound; try discriminate. assumption.
Qed.

(** A matrix of intensities, one entry below zero and one above the
    threshold, scaled by [beta = 2]. *)
Lemma softplus_nonneg_witness :
  exists w' r out,
    softplus 0%nat 2 (mkWorld [F3 [[[-1; 30]]]] (fun _ => 0)) = (w', Ok r) /\
    heap w' !! r = Some out /\
    out = pointwise (fun v => 1 / 2 * ln (1 + exp (clamp20 (2 * v))))
            (F3 [[[-1; 30]]]) /\
    all_entries (fun v => 0 <= v) out.
Proof.
  apply (softplus_nonneg (mkWorld [F3 [[[-1; 30]]]] (fun _ => 0)) 0%nat 2
           (F3 [[[-1; 30]]])).
  - reflexivity.
  - lra.
Defined.

(** ** compute_integral_biased *)

(** The value [compute_integral_biased] computes from the values of its
    arguments. *)
Lemma compute_integral_biased_run (w : world) (all_lambda time non_pad_mask : loc)
    (tl tt tm : tensor) (lam t m : mat R) :
  heap w !! all_lambda = Some tl -> as_N2 tl = Ok lam ->
  heap w !! time = Some tt -> as_N2 tt = Ok t ->
  heap w !! non_pad_mask = Some tm -> as_N2 tm = Ok m ->
  same_shape lam t -> same_shape m t ->
  compute_integral_biased all_lambda time non_pad_mask w =
    (mkWorld
       (heap w ++
        [F2 (map (map (fun v => 0.5 * v))
               (zip_with (zip_with Rmult)
                  (zip_with (zip_with Rmult)
                     (zip_with (zip_with Rplus) (tail2 lam) (init2 lam)) (tail2 m))
                  (zip_with (zip_with Rmult)
                     (zip_with (zip_with Rminus) (tail2 t) (init2 t)) (tail2 m))))])
       (rng w),
     Ok (length (heap w))).
Proof.
  intros Hl Hln Ht Htn Hm Hmn Hlt Hmt.
  assert (Htm : same_shape (tail2 t) (tail2 m))
    by (apply same_shape_tail2, same_shape_sym, Hmt).
  assert (Hlm : same_shape (tail2 lam) (tail2 m)).
  { apply same_shape_tail2. eapply same_shape_trans; [exact Hlt|].
    apply same_shape_sym, Hmt. }
  assert (Hml : same_shape (tail2 m) (tail2 lam)) by apply same_shape_sym, Hlm.
  unfold compute_integral_biased.
  rewrite (bind_ok _ _ _ _ _ (loadN2_ok _ _ _ _ Ht Htn)).
  erewrite bind_ok; [|apply lift_ok, ew2_ok; auto with shape].
  rewrite (bind_ok _ _ _ _ _ (loadN2_ok _ _ _ _ Hm Hmn)).
  erewrite bind_ok; [|apply lift_ok, ew2_ok; auto with shape].
  rewrite (bind_ok _ _ _ _ _ (loadN2_ok _ _ _ _ Hl Hln)).
  erewrite bind_ok; [|apply lift_ok, ew2_ok; auto with shape].
  rewrite (bind_ok _ _ _ _ _ (loadN2_ok _ _ _ _ Hm Hmn)).
  erewrite bind_ok; [|apply lift_ok, ew2_ok; auto with shape].
  erewrite bind_ok; [reflexivity|].
  apply lift_ok, ew2_ok. auto 8 with shape.
Qed.

(** For times [0; 2], intensities [1; 3] and a valid later position, the
    entry is 4: the gap 2 times the mean 2 of the intensities.  It is not
    that product scaled by 0.5 once more. *)
Lemma compute_integral_biased_not_halved_mean :
  exists v,
    (exists out,
       compute_integral_biased 0%nat 1%nat 2%nat
         (mkWorld [F2 [[1; 3]]; F2 [[0; 2]]; F2 [[1; 1]]] (fun _ => 0))
       = (mkWorld ([F2 [[1; 3]]; F2 [[0; 2]]; F2 [[1; 1]]] ++ [F2 out])
            (fun _ => 0), Ok 3%nat) /\
       at2 out 0 0 = Some v) /\
    v = 4 /\
    v <> (2 - 0) * ((1 + 3) / 2) * 1 * 0.5.
Proof.
  eexists. split; [|split].
  - eexists. split.
    + apply (compute_integral_biased_run
               (mkWorld [F2 [[1; 3]]; F2 [[0; 2]]; F2 [[1; 1]]] (fun _ => 0))
               0%nat 1%nat 2%nat (F2 [[1; 3]]) (F2 [[0; 2]]) (F2 [[1; 1]])
               [[1; 3]] [[0; 2]] [[1; 1]]);
        try reflexivity; repeat constructor.
    + reflexivity.
  - lra.
  - lra.
Qed.

(** C4 (amended): entry [(i, j)] of the result of [compute_integral_biased]
    is the time gap [time[i][j+1] - time[i][j]] times the sum of the two
    endpoint intensities, times 0.5, each factor multiplied by the mask at
    [j+1]: the gap times the mean of the two intensities for a valid later
    position (mask 1), and 0 for a padded one (mask 0).  The result depends
    on the values of the three arguments only, and the generator is not
    consulted. *)
Theorem compute_integral_biased_trapezoid (w : world)
    (all_lambda time non_pad_mask : loc) (tl tt tm : tensor) (lam t m : mat R) :
  heap w !! all_lambda = Some tl -> as_N2 tl = Ok lam ->
  heap w !! time = Some tt -> as_N2 tt = Ok t ->
  heap w !! non_pad_mask = Some tm -> as_N2 tm = Ok m ->
  same_shape lam t -> same_shape m t ->
  exists out,
    compute_integral_biased all_lambda time non_pad_mask w =
      (mkWorld (heap w ++ [F2 out]) (rng w), Ok (length (heap w))) /\
    same_shape out (tail2 t) /\
    (forall i j t0 t1 l0 l1 k,
       at2 t i j = Some t0 -> at2 t i (S j) = Some t1 ->
       at2 lam i j = Some l0 -> at2 lam i (S j) = Some l1 ->
       at2 m i (S j) = Some k ->
       at2 out i j = Some (0.5 * ((l1 + l0) * k * ((t1 - t0) * k))) /\
       (k = 1 -> at2 out i j = Some ((t1 - t0) * ((l0 + l1) / 2))) /\
       (k = 0 -> at2 out i j = Some 0)) /\
    (forall w2,
       heap w2 !! all_lambda = Some tl ->
       heap w2 !! time = Some tt ->
       heap w2 !! non_pad_mask = Some tm ->
       compute_integral_biased all_lambda time non_pad_mask w2 =
         (mkWorld (heap w2 ++ [F2 out]) (rng w2), Ok (length (heap w2)))).
Proof.
  intros Hl Hln Ht Htn Hm Hmn Hlt Hmt.
  eexists. split; [|split; [|split]].
  - apply (compute_integral_biased_run w _ _ _ tl tt tm lam t m); assumption.
  - assert (Hmt' : same_shape (tail2 m) (tail2 t)) by auto with shape.
    assert (Hlt' : same_shape (tail2 lam) (tail2 t)) by auto with shape.
    assert (Htm' : same_shape (tail2 t) (tail2 m)) by apply same_shape_sym, Hmt'.
    assert (Hlm' : same_shape (tail2 lam) (tail2 m))
      by (eapply same_shape_trans; eassumption).
    auto 8 with shape.
  - intros i j t0 t1 l0 l1 k Ht0 Ht1 Hl0 Hl1 Hk.
    assert (Hout : at2
              (map (map (fun v => 0.5 * v))
                 (zip_with (zip_with Rmult)
                    (zip_with (zip_with Rmult)
                       (zip_with (zip_with Rplus) (tail2 lam) (init2 lam)) (tail2 m))
                    (zip_with (zip_with Rmult)
                       (zip_with (zip_with Rminus) (tail2 t) (init2 t)) (tail2 m))))
              i j = Some (0.5 * ((l1 + l0) * k * ((t1 - t0) * k)))).
    { rewrite at2_map.
      erewrite at2_zip_with; [reflexivity | |].
      - erewrite at2_zip_with; [reflexivity | | rewrite at2_tail2; exact Hk].
        erewrite at2_zip_with; [reflexivity | rewrite at2_tail2; exact Hl1 |].
        rewrite (at2_init2 _ _ _ _ Hl1). exact Hl0.
      - erewrite at2_zip_with; [reflexivity | | rewrite at2_tail2; exact Hk].
        erewrite at2_zip_with; [reflexivity | rewrite at2_tail2; exact Ht1 |].
        rewrite (at2_init2 _ _ _ _ Ht1). exact Ht0. }
    split; [exact Hout|]. split; intros ->; rewrite Hout; f_equal; lra.
  - intros w2 Hl2 Ht2 Hm2.
    apply (compute_integral_biased_run w2 _ _ _ tl tt tm lam t m); assumption.
Qed.

(** Two sequences of three events, the last event of the second one padded. *)
Lemma compute_integral_biased_trapezoid_witness :
  exists out,
    compute_integral_biased 0%nat 1%nat 2%nat
      (mkWorld [F2 [[1; 3; 2]; [2; 2; 5]];
                F2 [[0; 2; 3]; [0; 1; 1]];
                F2 [[1; 1; 1]; [1; 1; 0]]] (fun _ => 0)) =
      (mkWorld ([F2 [[1; 3; 2]; [2; 2; 5]];
                 F2 [[0; 2; 3]; [0; 1; 1]];
                 F2 [[1; 1; 1]; [1; 1; 0]]] ++ [F2 out]) (fun _ => 0), Ok 3%nat) /\
    at2 out 0 0 = Some ((2 - 0) * ((1 + 3) / 2)) /\
    at2 out 1 1 = Some 0.
Proof.
  destruct (compute_integral_biased_trapezoid
              (mkWorld [F2 [[1; 3; 2]; [2; 2; 5]];
                        F2 [[0; 2; 3]; [0; 1; 1]];
                        F2 [[1; 1; 1]; [1; 1; 0]]] (fun _ => 0))
              0%nat 1%nat 2%nat
              (F2 [[1; 3; 2]; [2; 2; 5]]) (F2 [[0; 2; 3]; [0; 1; 1]])
              (F2 [[1; 1; 1]; [1; 1; 0]])
              [[1; 3; 2]; [2; 2; 5]] [[0; 2; 3]; [0; 1; 1]]
              [[1; 1; 1]; [1; 1; 0]]
              eq_refl eq_refl eq_refl eq_refl eq_refl eq_refl)
    as (out & Hrun & _ & Hentry & _).
  - repeat constructor.
  - repeat constructor.
  - exists out. split; [exact Hrun|]. split.
    + apply (Hentry 0%nat 0%nat 0 2 1 3 1); reflexivity.
    + apply (Hentry 1%nat 1%nat 1 1 2 5 0); reflexivity.
Defined.

(** ** time_loss *)

Lemma time_loss_run (w : world) (prediction event_time : loc)
    (p tt : tensor) (p2 t : mat R) :
  prediction <> event_time ->
  heap w !! prediction = Some p -> squeeze_last p = F2 p2 ->
  heap w !! event_time = Some tt -> as_N2 tt = Ok t ->
  same_shape p2 t ->
  time_loss prediction event_time w =
    (mkWorld (<[prediction := F2 p2]> (heap w)) (rng w),
     Ok (sum_all
           (F2 (map (map (fun d => d * d))
                  (zip_with (zip_with Rminus) (init2 p2)
                     (zip_with (zip_with Rminus) (tail2 t) (init2 t))))))).
Proof.
  intros Hne Hp Hsq Ht Htn Hs.
  pose proof (lookup_lt_Some _ _ _ Hp) as Hlt.
  unfold time_loss.
  rewrite (bind_ok _ _ _ _ _ (load_ok _ _ _ Hp)).
  rewrite (bind_ok _ _ _ _ _ (store_ok _ _ _)). rewrite Hsq.
  erewrite bind_ok;
    [|eapply loadN2_ok;
      [simpl; rewrite list_lookup_insert_ne by exact Hne; exact Ht | exact Htn]].
  erewrite bind_ok; [|apply lift_ok, ew2_ok; auto with shape].
  erewrite bind_ok;
    [|apply load_ok; simpl; apply list_lookup_insert_eq; exact Hlt].
  erewrite bind_ok; [|apply lift_ok; reflexivity].
  erewrite bind_ok; [reflexivity|].
  apply lift_ok, ew2_ok.
  assert (same_shape (init2 p2) (init2 t)) by auto with shape.
  assert (same_shape (init2 t) (tail2 t)) by auto with shape.
  assert (same_shape (init2 p2) (tail2 t)) by (eapply same_shape_trans; eassumption).
  auto with shape.
Qed.

Lemma sq_gap_error_slices (prow trow : vec R) :
  length prow = length trow ->
  sum_list
    (map (fun d => d * d)
       (zip_with Rminus (take (length prow - 1) prow)
          (zip_with Rminus (drop 1 trow) (take (length trow - 1) trow))))
  = sq_gap_error prow trow.
Proof.
  intros Hlen. unfold sq_gap_error. f_equal. apply list_eq. intros j.
  rewrite !lookup_map, lookup_zip_with, lookup_zip_with, lookup_drop.
  destruct (decide (j < length trow - 1)%nat) as [Hj|Hj].
  - rewrite !lookup_take_lt by lia.
    rewrite lookup_seq_lt by lia. simpl.
    destruct (lookup_lt_is_Some_2 prow j ltac:(lia)) as [a Ha].
    destruct (lookup_lt_is_Some_2 trow j ltac:(lia)) as [b Hb].
    destruct (lookup_lt_is_Some_2 trow (S j) ltac:(lia)) as [c Hc].
    rewrite Ha, Hb, Hc. simpl.
    rewrite (nth_lookup_Some _ _ _ _ Ha), (nth_lookup_Some _ _ _ _ Hb),
      (nth_lookup_Some _ _ _ _ Hc).
    reflexivity.
  - rewrite (lookup_take_ge prow) by lia.
    rewrite lookup_seq_ge by lia. reflexivity.
Qed.

Lemma time_loss_value (p2 t : mat R) :
  same_shape p2 t ->
  sum_all
    (F2 (map (map (fun d => d * d))
           (zip_with (zip_with Rminus) (init2 p2)
              (zip_with (zip_with Rminus) (tail2 t) (init2 t)))))
  = sum_sq_gaps p2 t.
Proof.
  unfold sum_sq_gaps. simpl. induction 1 as [|prow trow p2 t Hlen _ IH]; simpl;
    [reflexivity|].
  rewrite IH. f_equal. apply sq_gap_error_slices, Hlen.
Qed.

Lemma sum_list_zero (l : list R) : Forall (fun x => x = 0) l -> sum_list l = 0.
Proof. induction 1 as [|x l -> _ IH]; simpl; [reflexivity | rewrite IH; lra]. Qed.

Lemma Forall_map_seq {B : Type} (P : B -> Prop) (f : nat -> B) (start n : nat) :
  (forall j, (start <= j < start + n)%nat -> P (f j)) ->
  Forall P (map f (seq start n)).
Proof.
  revert start. induction n as [|n IH]; intros start H; simpl; constructor.
  - apply H. lia.
  - apply IH. intros j Hj. apply H. lia.
Qed.

Lemma sum_sq_gaps_zero (p2 t : mat R) :
  same_shape p2 t ->
  (forall i j tj tj1, at2 t i j = Some tj -> at2 t i (S j) = Some tj1 ->
     at2 p2 i j = Some (tj1 - tj)) ->
  sum_sq_gaps p2 t = 0.
Proof.
  unfold sum_sq_gaps. induction 1 as [|prow trow p2 t Hlen _ IH]; intros Hexact;
    simpl; [reflexivity|].
  rewrite IH by (intros i j tj tj1 H0 H1; exact (Hexact (S i) j tj tj1 H0 H1)).
  assert (Hrow : sq_gap_error prow trow = 0); [|rewrite Hrow; lra].
  apply sum_list_zero, Forall_map_seq. intros j Hj.
  destruct (lookup_lt_is_Some_2 trow j ltac:(lia)) as [b Hb].
  destruct (lookup_lt_is_Some_2 trow (S j) ltac:(lia)) as [c Hc].
  pose proof (Hexact 0%nat j b c Hb Hc) as Ha. unfold at2 in Ha. simpl in Ha.
  rewrite (nth_lookup_Some _ _ _ _ Ha), (nth_lookup_Some _ _ _ _ Hb),
    (nth_lookup_Some _ _ _ _ Hc).
  lra.
Qed.

(** C9: [time_loss] returns the sum, over every sequence and every gap of the
    sequence, of the squared difference between the predicted gap
    [prediction[i][j]] and the true gap [time[i][j+1] - time[i][j]]; no mask
    enters the sum.  When every predicted gap is the true gap, the sum is
    exactly 0. *)
Theorem time_loss_sum_of_squares (w : world) (prediction event_time : loc)
    (p tt : tensor) (p2 t : mat R) :
  prediction <> event_time ->
  heap w !! prediction = Some p -> squeeze_last p = F2 p2 ->
  heap w !! event_time = Some tt -> as_N2 tt = Ok t ->
  same_shape p2 t ->
  exists w',
    time_loss prediction event_time w = (w', Ok (sum_sq_gaps p2 t)) /\
    ((forall i j tj tj1, at2 t i j = Some tj -> at2 t i (S j) = Some tj1 ->
        at2 p2 i j = Some (tj1 - tj)) ->
     sum_sq_gaps p2 t = 0).
Proof.
  intros Hne Hp Hsq Ht Htn Hs. eexists. split.
  - rewrite (time_loss_run w _ _ p tt p2 t Hne Hp Hsq Ht Htn Hs).
    rewrite (time_loss_value p2 t Hs). reflexivity.
  - apply sum_sq_gaps_zero, Hs.
Qed.

(** One sequence with times 0, 2, 3 and predicted gaps 2, 1 (the prediction
    at the last event is not compared with anything). *)
Lemma time_loss_sum_of_squares_witness :
  exists w',
    time_loss 0%nat 1%nat
      (mkWorld [F3 [[[2]; [1]; [7]]]; F2 [[0; 2; 3]]] (fun _ => 0))
    = (w', Ok (sum_sq_gaps [[2; 1; 7]] [[0; 2; 3]])) /\
    sum_sq_gaps [[2; 1; 7]] [[0; 2; 3]] = 0.
Proof.
  destruct (time_loss_sum_of_squares
              (mkWorld [F3 [[[2]; [1]; [7]]]; F2 [[0; 2; 3]]] (fun _ => 0))
              0%nat 1%nat (F3 [[[2]; [1]; [7]]]) (F2 [[0; 2; 3]])
              [[2; 1; 7]] [[0; 2; 3]])
    as (w' & Hrun & Hzero).
  - discriminate.
  - reflexivity.
  - reflexivity.
  - reflexivity.
  - reflexivity.
  - repeat constructor.
  - exists w'. split; [exact Hrun|]. apply Hzero.
    intros [|[|i]] [|[|[|j]]] tj tj1; unfold at2; simpl; intros [= <-] [= <-];
      f_equal; lra.
Defined.

(** ** The smoothed target distribution *)

Lemma sum_map_replicate (f : R -> R) (n : nat) (x : R) :
  sum_list (map f (replicate n x)) = INR n * f x.
Proof.
  induction n as [|n IH]; [simpl; lra|].
  change (replicate (S n) x) with (x :: replicate n x).
  rewrite S_INR. simpl. rewrite IH. lra.
Qed.

Lemma sum_map_one_hot (f : R -> R) (K n : nat) :
  (n < K)%nat ->
  sum_list (map f (<[n := 1]> (replicate K 0))) = f 1 + (INR K - 1) * f 0.
Proof.
  revert n. induction K as [|K IH]; intros n Hn; [lia|].
  rewrite S_INR. destruct n as [|n]; simpl.
  - rewrite sum_map_replicate. lra.
  - rewrite IH by lia. lra.
Qed.

(** The smoothed row that [forward] builds for a class [z] of [K] classes
    sums to [1 - eps / K]. *)
Lemma smoothed_row_sum (eps : R) (K : nat) (z : Z) :
  (0 <= z < Z.of_nat K)%Z ->
  exists oh, one_hot_row K z = Ok oh /\
             sum_list (map (smooth eps K) oh) = 1 - eps / INR K.
Proof.
  intros Hz. unfold one_hot_row.
  destruct (Z.leb_spec 0 z); [|lia]. destruct (Z.ltb_spec z (Z.of_nat K)); [|lia].
  simpl. eexists. split; [reflexivity|].
  rewrite sum_map_one_hot by lia. unfold smooth.
  assert (HK : INR K <> 0) by (apply not_0_INR; lia).
  field. exact HK.
Qed.

(** C1: for two classes and smoothing factor 0.5, the smoothed target that
    [forward] builds for class 0 is [0.5; 0.25], which sums to 0.75 and not
    to 1; in general the row sums to [1 - eps / K].  The loss shows it: on
    the uniform prediction (logits [0; 0]) [forward] returns [0.75 * ln 2],
    where the cross-entropy of any distribution is [ln 2]. *)
Theorem smoothed_target_sum :
  one_hot_row 2 0 = Ok [1; 0] /\
  map (smooth 0.5 2) [1; 0] = [0.5; 0.25] /\
  sum_list (map (smooth 0.5 2) [1; 0]) = 0.75 /\
  0.75 <> 1 /\
  (forall eps K z, (0 <= z < Z.of_nat K)%Z ->
     exists oh, one_hot_row K z = Ok oh /\
                sum_list (map (smooth eps K) oh) = 1 - eps / INR K) /\
  (exists loss,
     heap (fst (forward (mkLabelSmoothingLoss 0.5 2 (-100)) 0%nat 1%nat
                  (mkWorld [F2 [[0; 0]]; L1 [0%Z]] (fun _ => 0)))) !! 2%nat
       = Some (F1 [loss]) /\
     loss = 0.75 * ln 2 /\ loss <> ln 2).
Proof.
  assert (H : map (smooth 0.5 2) [1; 0] = [0.5; 0.25]).
  { unfold smooth. simpl. repeat f_equal; lra. }
  split; [reflexivity|]. split; [exact H|]. split; [rewrite H; simpl; lra|].
  split; [lra|]. split; [apply smoothed_row_sum|].
  unfold forward, bind, load, store, alloc, lift. simpl.
  eexists. split; [reflexivity|].
  unfold smooth. simpl. rewrite exp_0.
  replace (1 + (1 + 0)) with 2 by lra.
  pose proof ln_lt_2. split; lra.
Qed.

(** ** type_loss *)

(** [type_loss] up to the call of the loss function: the counts and the
    lists are fixed before it, and the loss function sees two fresh
    tensors. *)
Lemma type_loss_run (w : world) (prediction types : loc) (loss_func : loss_fn)
    (p : cube R) (ty : mat Z) (pred_type : mat Z) :
  heap w !! types = Some (L2 ty) ->
  heap w !! prediction = Some (F3 p) ->
  mapM (mapM argmax) (shifted_prediction p) = Ok pred_type ->
  same_shape pred_type (shifted_truth ty) ->
  type_loss prediction types loss_func w =
    match run_loss loss_func (S (length (heap w))) (length (heap w))
            (mkWorld (heap w ++ [L2 (shifted_truth ty); F3 (shifted_prediction p)])
               (rng w)) with
    | (w', Ok loss) =>
        (w', Ok (sum_all loss,
                 count_true (zip_with (zip_with Z.eqb) pred_type (shifted_truth ty)),
                 fst (report (shifted_truth ty) pred_type [] []),
                 snd (report (shifted_truth ty) pred_type [] [])))
    | (w', Raise e) => (w', Raise e)
    end.
Proof.
  intros Hty Hp Harg Hs.
  assert (Htruth : (heap w ++ [L2 (shifted_truth ty); F3 (shifted_prediction p)])
                     !! length (heap w) = Some (L2 (shifted_truth ty))).
  { rewrite lookup_app_r by lia.
    replace (length (heap w) - length (heap w))%nat with 0%nat by lia. reflexivity. }
  assert (Hpred : (heap w ++ [L2 (shifted_truth ty); F3 (shifted_prediction p)])
                    !! S (length (heap w)) = Some (F3 (shifted_prediction p))).
  { rewrite lookup_app_r by lia.
    replace (S (length (heap w)) - length (heap w))%nat with 1%nat by lia.
    reflexivity. }
  unfold type_loss.
  rewrite (bind_ok _ _ _ _ _ (loadL2_ok _ _ _ Hty)).
  rewrite (bind_ok _ _ _ _ _ (alloc_ok _ _)).
  erewrite bind_ok; [|apply loadF3_ok; simpl; apply lookup_snoc_old, Hp].
  rewrite (bind_ok _ _ _ _ _ (alloc_ok _ _)). simpl heap. simpl rng.
  rewrite length_app, <- app_assoc. simpl length. simpl app.
  replace (length (heap w) + 1)%nat with (S (length (heap w))) by lia.
  fold (shifted_truth ty). fold (shifted_prediction p).
  erewrite bind_ok; [|apply loadF3_ok; exact Hpred].
  erewrite bind_ok; [|apply lift_ok; exact Harg].
  erewrite bind_ok; [|apply loadL2_ok; exact Htruth].
  erewrite bind_ok; [|apply lift_ok, ew2_ok; exact Hs].
  erewrite bind_ok; [|apply loadL2_ok; exact Htruth].
  unfold bind at 1.
  destruct (run_loss loss_func _ _ _) as [w' [loss|e]]; reflexivity.
Qed.

(** [argmax_from] returns the running index, or a later index that holds a
    larger value; the value it points at bounds the whole row. *)
Lemma argmax_from_max (l : list R) (best : R) (bi i : nat) :
  exists v,
    (argmax_from best bi i l = bi /\ v = best \/
     (i <= argmax_from best bi i l)%nat /\
     l !! (argmax_from best bi i l - i)%nat = Some v) /\
    best <= v /\ Forall (fun x => x <= v) l.
Proof.
  revert best bi i. induction l as [|x l IH]; intros best bi i; simpl.
  - exists best. split; [left; auto|]. split; [lra | constructor].
  - destruct (Rlt_dec best x) as [Hlt|Hge].
    + destruct (IH x i (S i)) as (v & Hc & Hxv & Hall).
      exists v. split; [right|split; [lra | constructor; assumption]].
      destruct Hc as [[Hc ->]|[Hc Hv]].
      * rewrite Hc. split; [lia|].
        replace (i - i)%nat with 0%nat by lia. reflexivity.
      * split; [lia|].
        replace (argmax_from x i (S i) l - i)%nat
          with (S (argmax_from x i (S i) l - S i)) by lia.
        exact Hv.
    + destruct (IH best bi (S i)) as (v & Hc & Hbv & Hall).
      exists v. split; [|split; [lra | constructor; [lra | assumption]]].
      destruct Hc as [[Hc ->]|[Hc Hv]]; [left; auto | right].
      split; [lia|].
      replace (argmax_from best bi (S i) l - i)%nat
        with (S (argmax_from best bi (S i) l - S i)) by lia.
      exact Hv.
Qed.

(** The class that [argmax] returns is an index of the row, and no entry of
    the row is larger than the entry there. *)
Lemma argmax_spec (row : vec R) (c : Z) :
  argmax row = Ok c ->
  (0 <= c < Z.of_nat (length row))%Z /\
  exists v, row !! Z.to_nat c = Some v /\ Forall (fun x => x <= v) row.
Proof.
  destruct row as [|x l]; simpl; [discriminate|]. intros [= <-].
  destruct (argmax_from_max l x 0 1) as (v & Hc & Hxv & Hall).
  rewrite Nat2Z.id.
  destruct Hc as [[Hc ->]|[Hc Hv]].
  - rewrite Hc. split; [lia|]. exists x. split; [reflexivity|].
    constructor; [lra | assumption].
  - pose proof (lookup_lt_Some _ _ _ Hv) as Hlt. split; [lia|].
    exists v. split; [|constructor; assumption].
    replace (argmax_from x 0 1 l) with (S (argmax_from x 0 1 l - 1)) by lia.
    exact Hv.
Qed.

Lemma mapM_Forall2 {A B : Type} (f : A -> result B) (l : list A) (l' : list B) :
  mapM f l = Ok l' -> Forall2 (fun a b => f a = Ok b) l l'.
Proof.
  revert l'. induction l as [|a l IH]; simpl; intros l'.
  - intros [= <-]. constructor.
  - destruct (f a) as [b|] eqn:Hb; simpl; [|discriminate].
    destruct (mapM f l) as [bs|]; simpl; [|discriminate].
    intros [= <-]. constructor; auto.
Qed.

Lemma mapM_total {A B : Type} (f : A -> result B) (l : list A) :
  Forall (fun a => exists b, f a = Ok b) l -> exists l', mapM f l = Ok l'.
Proof.
  induction 1 as [|a l [b Hb] _ [bs IH]]; simpl; [eauto|].
  rewrite Hb, IH. simpl. eauto.
Qed.

(** On rows that all have a class, the arg-max prediction exists, has the
    shape of the rows, and every predicted class is an index of its row. *)
Lemma argmax_all (p : cube R) :
  Forall (Forall (fun row => row <> [])) p ->
  exists pred_type,
    mapM (mapM argmax) p = Ok pred_type /\
    same_shape pred_type p /\
    Forall (Forall (fun c => (0 <= c)%Z)) pred_type /\
    (forall i j row c, at2 p i j = Some row -> at2 pred_type i j = Some c ->
       argmax row = Ok c).
Proof.
  intros Hne.
  destruct (mapM_total (mapM argmax) p) as [pred_type Hpt].
  { eapply Forall_impl; [exact Hne|]. intros m Hm. apply mapM_total.
    eapply Forall_impl; [exact Hm|]. intros [|x l] Hrow; [contradiction|].
    simpl. eauto. }
  exists pred_type. split; [exact Hpt|].
  apply mapM_Forall2 in Hpt.
  split; [|split].
  - induction Hpt as [|m pm p pt Hm _ IH]; constructor; [|apply IH].
    + apply mapM_Forall2, Forall2_length in Hm. lia.
    + inversion Hne; assumption.
  - clear Hne. induction Hpt as [|m pm p pt Hm _ IH]; constructor; [|exact IH].
    apply mapM_Forall2 in Hm. clear -Hm.
    induction Hm as [|row c m pm Hc _ IH]; constructor; [|exact IH].
    apply argmax_spec in Hc. lia.
  - intros i j row c. unfold at2. intros Hrow Hc.
    destruct (p !! i) as [m|] eqn:Hm; [|discriminate].
    destruct (pred_type !! i) as [pm|] eqn:Hpm; [|discriminate].
    pose proof (Forall2_lookup_lr _ _ _ _ _ _ Hpt Hm Hpm) as Hrowm.
    apply mapM_Forall2 in Hrowm.
    exact (Forall2_lookup_lr _ _ _ _ _ _ Hrowm Hrow Hc).
Qed.

(** ** Counting the correct predictions *)

Lemma filter_seq_shift (P : nat -> Prop) `{forall j, Decision (P j)} (s n : nat) :
  length (filter P (seq (S s) n)) = length (filter (fun j => P (S j)) (seq s n)).
Proof.
  revert s. induction n as [|n IH]; intros s; simpl; [reflexivity|].
  rewrite !filter_cons. destruct (decide (P (S s))); simpl; rewrite IH; reflexivity.
Qed.

Lemma row_hits_matches (pred_i truth_i : vec Z) :
  length pred_i = length truth_i ->
  length (filter (fun b => b = true) (zip_with Z.eqb pred_i truth_i))
  = row_matches pred_i truth_i.
Proof.
  unfold row_matches. revert truth_i.
  induction pred_i as [|a pred_i IH]; intros [|b truth_i] Hlen; simpl in Hlen;
    try discriminate; [reflexivity|].
  assert (Hrest :
    length (filter (fun j => (a :: pred_i) !! j = (b :: truth_i) !! j)
              (seq 1 (length truth_i)))
    = length (filter (fun b => b = true) (zip_with Z.eqb pred_i truth_i))).
  { rewrite filter_seq_shift. simpl. rewrite IH by lia. reflexivity. }
  simpl. rewrite !filter_cons.
  destruct (Z.eqb_spec a b) as [->|Hab].
  - rewrite decide_True by reflexivity. rewrite decide_True by reflexivity.
    simpl. rewrite Hrest. reflexivity.
  - rewrite decide_False by discriminate.
    rewrite decide_False by (simpl; congruence).
    exact (eq_sym Hrest).
Qed.

Lemma count_true_matches (pred truth : mat Z) :
  same_shape pred truth ->
  count_true (zip_with (zip_with Z.eqb) pred truth) = matches pred truth.
Proof.
  unfold count_true, matches. intros Hs. f_equal.
  induction Hs as [|pred_i truth_i pred truth Hlen _ IH]; simpl; [reflexivity|].
  rewrite filter_app, length_app, IH, (row_hits_matches _ _ Hlen). reflexivity.
Qed.

Lemma row_matches_valid_eq (pred_i truth_i : vec Z) :
  Forall (fun c => (0 <= c)%Z) pred_i ->
  row_matches_valid pred_i truth_i = row_matches pred_i truth_i.
Proof.
  intros Hpos. unfold row_matches_valid, row_matches. f_equal.
  apply list_filter_iff. intros j. split; [intros [_ H]; exact H|].
  intros Heq. split; [|exact Heq]. intros Hpad. rewrite Hpad in Heq.
  pose proof (Forall_lookup_1 _ _ _ _ Hpos Heq) as Hc. simpl in Hc. lia.
Qed.

Lemma matches_valid_eq (pred truth : mat Z) :
  Forall (Forall (fun c => (0 <= c)%Z)) pred ->
  matches_valid pred truth = matches pred truth.
Proof.
  unfold matches_valid, matches. intros Hpos. f_equal. revert truth.
  induction Hpos as [|pred_i pred Hi _ IH]; intros [|truth_i truth]; simpl;
    try reflexivity.
  rewrite IH, (row_matches_valid_eq _ _ Hi). reflexivity.
Qed.

(** ** The reported lists *)

Lemma nonzero_from_before_pad (truth_i : vec Z) (i : nat) :
  nonzero_from i (map (fun z => (z =? -1)%Z) truth_i) = [] /\
  before_pad truth_i = length truth_i \/
  exists rest,
    nonzero_from i (map (fun z => (z =? -1)%Z) truth_i)
      = (i + before_pad truth_i)%nat :: rest.
Proof.
  revert i. induction truth_i as [|z r IH]; intros i; simpl; [left; auto|].
  destruct (z =? -1)%Z.
  - right. eexists. rewrite Nat.add_0_r. reflexivity.
  - destruct (IH (S i)) as [[Hnil Hlen]|[rest Hrest]].
    + left. split; [exact Hnil | lia].
    + right. exists rest. rewrite Hrest. f_equal. lia.
Qed.

Lemma trim_before_pad (truth_i pred_i : vec Z) :
  length pred_i = length truth_i ->
  trim truth_i pred_i
  = (take (before_pad truth_i) truth_i, take (before_pad truth_i) pred_i).
Proof.
  intros Hlen. unfold trim, nonzero.
  destruct (nonzero_from_before_pad truth_i 0) as [[-> Hb]|[rest ->]].
  - rewrite Hb, !take_ge by lia. reflexivity.
  - reflexivity.
Qed.

Lemma report_before_pad (truth pred_type : mat Z) (true_list pred_list : list Z) :
  same_shape pred_type truth ->
  report truth pred_type true_list pred_list
  = (true_list ++ concat (map (fun r => take (before_pad r) r) truth),
     pred_list ++
       concat (zip_with (fun r p => take (before_pad r) p) truth pred_type)).
Proof.
  intros Hs. revert true_list pred_list.
  induction Hs as [|pred_i truth_i pred_type truth Hlen _ IH];
    intros true_list pred_list; simpl.
  - rewrite !app_nil_r. reflexivity.
  - rewrite (trim_before_pad _ _ Hlen), IH, <- !app_assoc. reflexivity.
Qed.

(** [type_loss] on a batch whose prediction and types agree in shape: the
    count and the lists it returns, in terms of the positions. *)
Lemma type_loss_result (w : world) (prediction types : loc) (loss_func : loss_fn)
    (p : cube R) (ty : mat Z) :
  heap w !! types = Some (L2 ty) ->
  heap w !! prediction = Some (F3 p) ->
  Forall (Forall (fun row => row <> [])) (shifted_prediction p) ->
  same_shape (shifted_prediction p) (shifted_truth ty) ->
  exists pred_type,
    mapM (mapM argmax) (shifted_prediction p) = Ok pred_type /\
    same_shape pred_type (shifted_truth ty) /\
    Forall (Forall (fun c => (0 <= c)%Z)) pred_type /\
    type_loss prediction types loss_func w =
      match run_loss loss_func (S (length (heap w))) (length (heap w))
              (mkWorld (heap w ++ [L2 (shifted_truth ty); F3 (shifted_prediction p)])
                 (rng w)) with
      | (w', Ok loss) =>
          (w', Ok (sum_all loss,
                   matches pred_type (shifted_truth ty),
                   concat (map (fun r => take (before_pad r) r) (shifted_truth ty)),
                   concat (zip_with (fun r q => take (before_pad r) q)
                             (shifted_truth ty) pred_type)))
      | (w', Raise e) => (w', Raise e)
      end.
Proof.
  intros Hty Hp Hne Hs.
  destruct (argmax_all _ Hne) as (pred_type & Harg & Hshape & Hpos & _).
  assert (Hs' : same_shape pred_type (shifted_truth ty))
    by (eapply same_shape_trans; eassumption).
  exists pred_type. split; [exact Harg|]. split; [exact Hs'|]. split; [exact Hpos|].
  rewrite (type_loss_run w _ _ loss_func p ty pred_type Hty Hp Harg Hs').
  rewrite (count_true_matches _ _ Hs'), (report_before_pad _ _ [] [] Hs').
  reflexivity.
Qed.

Lemma run_loss_criterion (w : world) (prediction truth : loc)
    (f : cube R -> mat Z -> result tensor) (p : cube R) (t : mat Z) :
  heap w !! prediction = Some (F3 p) ->
  heap w !! truth = Some (L2 t) ->
  run_loss (Criterion f) prediction truth w = (w, f (map transpose p) t).
Proof.
  intros Hp Ht. simpl.
  rewrite (bind_ok _ _ _ _ _ (loadF3_ok _ _ _ Hp)).
  rewrite (bind_ok _ _ _ _ _ (loadL2_ok _ _ _ Ht)). reflexivity.
Qed.

(** C5: the correct-count that [type_loss] returns is the number of
    positions of the shifted tensors, padding included, at which the arg-max
    class is the shifted truth.  The arg-max class is an index of the class
    row, so it is never the sentinel -1, and the count is also the number of
    such positions among those that are not padding. *)
Theorem type_loss_correct_num (w : world) (prediction types : loc)
    (loss_func : loss_fn) (p : cube R) (ty : mat Z) :
  heap w !! types = Some (L2 ty) ->
  heap w !! prediction = Some (F3 p) ->
  Forall (Forall (fun row => row <> [])) (shifted_prediction p) ->
  same_shape (shifted_prediction p) (shifted_truth ty) ->
  exists pred_type,
    mapM (mapM argmax) (shifted_prediction p) = Ok pred_type /\
    (forall i j row c,
       at2 (shifted_prediction p) i j = Some row ->
       at2 pred_type i j = Some c ->
       argmax row = Ok c /\ (0 <= c < Z.of_nat (length row))%Z /\ c <> (-1)%Z) /\
    (forall w' loss_r correct_num true_list pred_list,
       type_loss prediction types loss_func w
         = (w', Ok (loss_r, correct_num, true_list, pred_list)) ->
       correct_num = matches pred_type (shifted_truth ty) /\
       correct_num = matches_valid pred_type (shifted_truth ty)) /\
    (forall f loss,
       f (map transpose (shifted_prediction p)) (shifted_truth ty) = Ok loss ->
       exists w' true_list pred_list,
         type_loss prediction types (Criterion f) w
           = (w', Ok (sum_all loss, matches pred_type (shifted_truth ty),
                      true_list, pred_list))).
Proof.
  intros Hty Hp Hne Hs.
  destruct (argmax_all _ Hne) as (pred_type & Harg & _ & _ & Hcls).
  exists pred_type. split; [exact Harg|]. split; [|split].
  - intros i j row c Hrow Hc. pose proof (Hcls i j row c Hrow Hc) as Hm.
    split; [exact Hm|]. apply argmax_spec in Hm. lia.
  - intros w' loss_r correct_num true_list pred_list Hrun.
    destruct (type_loss_result w prediction types loss_func p ty Hty Hp Hne Hs)
      as (pt & Harg' & _ & Hpos & Heq).
    assert (pt = pred_type) as -> by congruence.
    rewrite Heq in Hrun.
    destruct (run_loss loss_func _ _ _) as [w2 [loss|e]]; [|discriminate].
    injection Hrun as _ _ <- _ _.
    split; [reflexivity|]. symmetry. apply matches_valid_eq, Hpos.
  - intros f loss Hf.
    destruct (type_loss_result w prediction types (Criterion f) p ty Hty Hp Hne Hs)
      as (pt & Harg' & _ & _ & Heq).
    assert (pt = pred_type) as -> by congruence.
    rewrite Heq. erewrite run_loss_criterion; [rewrite Hf; eauto | |].
    + simpl. rewrite lookup_app_r by lia.
      replace (S (length (heap w)) - length (heap w))%nat with 1%nat by lia.
      reflexivity.
    + simpl. rewrite lookup_app_r by lia.
      replace (length (heap w) - length (heap w))%nat with 0%nat by lia.
      reflexivity.
Qed.

(** One sequence of three events, the last one padding: the first shifted
    position is predicted right, the padded one cannot be. *)
Lemma type_loss_correct_num_witness :
  exists w' true_list pred_list,
    type_loss 0%nat 1%nat (Criterion (fun _ _ => Ok (F2 [[0.5; 0]])))
      (mkWorld [F3 [[[1; 9]; [8; 2]; [5; 5]]]; L2 [[1; 2; 0]]%Z] (fun _ => 0))
    = (w', Ok (sum_all (F2 [[0.5; 0]]), 1%Z, true_list, pred_list)).
Proof.
  destruct (type_loss_correct_num
              (mkWorld [F3 [[[1; 9]; [8; 2]; [5; 5]]]; L2 [[1; 2; 0]]%Z] (fun _ => 0))
              0%nat 1%nat (Criterion (fun _ _ => Ok (F2 [[0.5; 0]])))
              [[[1; 9]; [8; 2]; [5; 5]]] [[1; 2; 0]]%Z)
    as (pred_type & Harg & _ & _ & Hret).
  - reflexivity.
  - reflexivity.
  - repeat constructor; discriminate.
  - repeat constructor.
  - assert (pred_type = [[1; 0]]%Z) as ->.
    { simpl in Harg.
      destruct (Rlt_dec 1 9); [|lra]. destruct (Rlt_dec 8 2); [lra|].
      injection Harg as <-. reflexivity. }
    destruct (Hret (fun _ _ => Ok (F2 [[0.5; 0]])) (F2 [[0.5; 0]]) eq_refl)
      as (w' & tl & pl & Hrun).
    exists w', tl, pl. exact Hrun.
Defined.

Lemma before_pad_spec (truth_i : vec Z) :
  Forall (fun z => z <> (-1)%Z) (take (before_pad truth_i) truth_i) /\
  (before_pad truth_i = length truth_i \/
   truth_i !! before_pad truth_i = Some (-1)%Z).
Proof.
  induction truth_i as [|z r [IH1 IH2]]; simpl.
  - split; [constructor | left; reflexivity].
  - destruct (Z.eqb_spec z (-1)) as [->|Hz]; simpl.
    + split; [constructor | right; reflexivity].
    + split; [constructor; assumption|].
      destruct IH2 as [->|IH2]; [left; reflexivity | right; exact IH2].
Qed.

(** C7: for every sequence, [type_loss] reports the entries of the shifted
    truth and of the arg-max prediction that come before the first -1 of the
    shifted truth, and the whole row when it holds no -1; the lists of the
    sequences are concatenated in batch order.  For the types [1; 2; 0] the
    shifted truth is [1; -1], and the lists hold the one entry before the
    -1. *)
Theorem type_loss_reported_lists :
  (forall w prediction types loss_func p ty,
     heap w !! types = Some (L2 ty) ->
     heap w !! prediction = Some (F3 p) ->
     Forall (Forall (fun row => row <> [])) (shifted_prediction p) ->
     same_shape (shifted_prediction p) (shifted_truth ty) ->
     exists pred_type,
       mapM (mapM argmax) (shifted_prediction p) = Ok pred_type /\
       same_shape pred_type (shifted_truth ty) /\
       (forall w' loss_r correct_num true_list pred_list,
          type_loss prediction types loss_func w
            = (w', Ok (loss_r, correct_num, true_list, pred_list)) ->
          true_list
            = concat (map (fun r => take (before_pad r) r) (shifted_truth ty)) /\
          pred_list
            = concat (zip_with (fun r q => take (before_pad r) q)
                        (shifted_truth ty) pred_type)) /\
       (forall f loss,
          f (map transpose (shifted_prediction p)) (shifted_truth ty) = Ok loss ->
          exists w' correct_num,
            type_loss prediction types (Criterion f) w
              = (w', Ok (sum_all loss, correct_num,
                         concat (map (fun r => take (before_pad r) r)
                                   (shifted_truth ty)),
                         concat (zip_with (fun r q => take (before_pad r) q)
                                   (shifted_truth ty) pred_type))))) /\
  (forall truth_i,
     Forall (fun z => z <> (-1)%Z) (take (before_pad truth_i) truth_i) /\
     (before_pad truth_i = length truth_i \/
      truth_i !! before_pad truth_i = Some (-1)%Z)) /\
  shifted_truth [[1; 2; 0]]%Z = [[1; -1]]%Z /\
  (forall w prediction types loss_func p,
     heap w !! types = Some (L2 [[1; 2; 0]]%Z) ->
     heap w !! prediction = Some (F3 p) ->
     Forall (Forall (fun row => row <> [])) (shifted_prediction p) ->
     same_shape (shifted_prediction p) (shifted_truth [[1; 2; 0]]%Z) ->
     forall w' loss_r correct_num true_list pred_list,
       type_loss prediction types loss_func w
         = (w', Ok (loss_r, correct_num, true_list, pred_list)) ->
       true_list = [1%Z] /\ exists c, pred_list = [c] /\ c <> (-1)%Z).
Proof.
  assert (Hgen : forall w prediction types loss_func p ty,
     heap w !! types = Some (L2 ty) ->
     heap w !! prediction = Some (F3 p) ->
     Forall (Forall (fun row => row <> [])) (shifted_prediction p) ->
     same_shape (shifted_prediction p) (shifted_truth ty) ->
     exists pred_type,
       mapM (mapM argmax) (shifted_prediction p) = Ok pred_type /\
       same_shape pred_type (shifted_truth ty) /\
       Forall (Forall (fun c => (0 <= c)%Z)) pred_type /\
       (forall w' loss_r correct_num true_list pred_list,
          type_loss prediction types loss_func w
            = (w', Ok (loss_r, correct_num, true_list, pred_list)) ->
          true_list
            = concat (map (fun r => take (before_pad r) r) (shifted_truth ty)) /\
          pred_list
            = concat (zip_with (fun r q => take (before_pad r) q)
                        (shifted_truth ty) pred_type))).
  { intros w prediction types loss_func p ty Hty Hp Hne Hs.
    destruct (type_loss_result w prediction types loss_func p ty Hty Hp Hne Hs)
      as (pred_type & Harg & Hshape & Hpos & Heq).
    exists pred_type. split; [exact Harg|]. split; [exact Hshape|].
    split; [exact Hpos|].
    intros w' loss_r correct_num true_list pred_list Hrun. rewrite Heq in Hrun.
    destruct (run_loss loss_func _ _ _) as [w2 [loss|e]]; [|discriminate].
    injection Hrun as _ _ _ <- <-. split; reflexivity. }
  split; [|split; [exact before_pad_spec | split; [reflexivity|]]].
  - intros w prediction types loss_func p ty Hty Hp Hne Hs.
    destruct (Hgen w prediction types loss_func p ty Hty Hp Hne Hs)
      as (pred_type & Harg & Hshape & _ & Hlists).
    exists pred_type. split; [exact Harg|]. split; [exact Hshape|].
    split; [exact Hlists|].
    intros f loss Hf.
    destruct (type_loss_result w prediction types (Criterion f) p ty Hty Hp Hne Hs)
      as (pt & Harg' & _ & _ & Heq).
    assert (pt = pred_type) as -> by congruence.
    rewrite Heq. erewrite run_loss_criterion; [rewrite Hf; eauto | |].
    + simpl. rewrite lookup_app_r by lia.
      replace (S (length (heap w)) - length (heap w))%nat with 1%nat by lia.
      reflexivity.
    + simpl. rewrite lookup_app_r by lia.
      replace (length (heap w) - length (heap w))%nat with 0%nat by lia.
      reflexivity.
  - intros w prediction types loss_func p Hty Hp Hne Hs
      w' loss_r correct_num true_list pred_list Hrun.
    destruct (Hgen w prediction types loss_func p _ Hty Hp Hne Hs)
      as (pred_type & _ & Hshape & Hpos & Hlists).
    destruct (Hlists _ _ _ _ _ Hrun) as [-> ->].
    split; [reflexivity|].
    change (shifted_truth [[1; 2; 0]]%Z) with [[1; -1]]%Z in *.
    inversion Hshape as [|row tr pt' t' Hlen Hrest]; subst.
    inversion Hrest; subst.
    destruct row as [|c [|c' [|c'' row]]]; simpl in Hlen; try discriminate.
    exists c. split; [reflexivity|].
    inversion Hpos as [|? ? Hrow _]; subst. inversion Hrow; subst. lia.
Qed.

(** The sequence [1; 2; 0] with a label-smoothing loss that ignores -1: the
    call returns, and reports one true class and one predicted class. *)
Lemma type_loss_reported_lists_witness :
  exists w' loss_r correct_num c,
    type_loss 0%nat 1%nat (Smoothing (mkLabelSmoothingLoss 0.5 2 (-1)))
      (mkWorld [F3 [[[1; 9]; [8; 2]; [5; 5]]]; L2 [[1; 2; 0]]%Z] (fun _ => 0))
    = (w', Ok (loss_r, correct_num, [1%Z], [c])) /\ c <> (-1)%Z.
Proof.
  destruct (type_loss 0%nat 1%nat (Smoothing (mkLabelSmoothingLoss 0.5 2 (-1)))
              (mkWorld [F3 [[[1; 9]; [8; 2]; [5; 5]]]; L2 [[1; 2; 0]]%Z]
                 (fun _ => 0))) as [w' r] eqn:Hrun.
  assert (Hok : exists loss_r correct_num true_list pred_list,
             r = Ok (loss_r, correct_num, true_list, pred_list)).
  { revert Hrun.
    unfold type_loss, run_loss, forward, loadF3, loadL2, bind, load, store,
      alloc, lift, ret. simpl.
    destruct (Rlt_dec 1 9); [|lra]. destruct (Rlt_dec 8 2); [lra|]. simpl.
    intros [= _ <-]. eauto. }
  destruct Hok as (loss_r & correct_num & true_list & pred_list & ->).
  destruct (proj2 (proj2 (proj2 type_loss_reported_lists))
              (mkWorld [F3 [[[1; 9]; [8; 2]; [5; 5]]]; L2 [[1; 2; 0]]%Z]
                 (fun _ => 0))
              0%nat 1%nat (Smoothing (mkLabelSmoothingLoss 0.5 2 (-1)))
              [[[1; 9]; [8; 2]; [5; 5]]]
              eq_refl eq_refl
              ltac:(repeat constructor; discriminate)
              ltac:(repeat constructor)
              _ _ _ _ _ Hrun) as (-> & c & -> & Hc).
  exists w', loss_r, correct_num, c. split; [reflexivity | exact Hc].
Defined.

(** ** A run of log_likelihood *)

(** On one sequence of two events and one padding position, with a
    generator that delivers 0.5 throughout, [log_likelihood] returns one
    event term and one non-event term. *)
Example log_likelihood_returns :
  exists event_ll non_event_ll w',
    log_likelihood toy_model 0 0%nat 1%nat 2%nat
      (mkWorld [F3 [[[1; 2]; [3; 4]; [0; 0]]]; F2 [[0; 1; 1]]; L2 [[1; 2; 0]]%Z]
         (fun _ => 0.5))
    = (w', Ok ([event_ll], [non_event_ll])).
Proof.
  eexists _, _, _.
  lazy -[Rplus Rmult Rminus Rdiv Ropp Rinv ln exp Rabs IZR INR Rlt_dec Req_dec_T
         clamp20 to_bool sum_list].
  reflexivity.
Qed.

(** * Further properties *)

(** ** softplus: range, saturation, monotonicity *)

Lemma entries_pointwise (f : R -> R) (t : tensor) :
  entries (pointwise f t) = map f (entries t).
Proof.
  destruct t as [v|m|c|v|m]; simpl.
  - reflexivity.
  - induction m as [|r m IH]; simpl; [reflexivity|].
    rewrite map_app, IH. reflexivity.
  - induction c as [|m c IH]; simpl; [reflexivity|].
    rewrite map_app, IH. f_equal.
    induction m as [|r m IHm]; simpl; [reflexivity|].
    rewrite map_app, IHm. reflexivity.
  - rewrite map_map. reflexivity.
  - induction m as [|r m IH]; simpl; [reflexivity|].
    rewrite !map_app, IH, !map_map. reflexivity.
Qed.

Lemma clamp20_le (v : R) : clamp20 v <= 20.
Proof. unfold clamp20. destruct (Rlt_dec 20 v); lra. Qed.

Lemma clamp20_mono (u v : R) : u <= v -> clamp20 u <= clamp20 v.
Proof. unfold clamp20. destruct (Rlt_dec 20 u), (Rlt_dec 20 v); lra. Qed.

Lemma ln1p_exp_mono (u v : R) : u <= v -> ln (1 + exp u) <= ln (1 + exp v).
Proof.
  intros [Hlt| ->]; [|lra].
  apply Rlt_le, ln_increasing.
  - pose proof (exp_pos u). lra.
  - pose proof (exp_increasing _ _ Hlt). lra.
Qed.

Lemma ln1p_exp_pos (u : R) : 0 < ln (1 + exp u).
Proof.
  rewrite <- ln_1. apply ln_increasing; [lra|]. pose proof (exp_pos u). lra.
Qed.

Lemma softplus_value_range (beta v : R) :
  0 < beta -> 0 < softplus_value beta v <= softplus_cap beta.
Proof.
  intros Hb. unfold softplus_value, softplus_cap.
  assert (H1 : 0 < 1 / beta) by (apply Rdiv_lt_0_compat; lra).
  split.
  - apply Rmult_lt_0_compat; [exact H1 | apply ln1p_exp_pos].
  - apply Rmult_le_compat_l; [lra|]. apply ln1p_exp_mono, clamp20_le.
Qed.

Lemma softplus_value_mono (beta u v : R) :
  0 < beta -> u <= v -> softplus_value beta u <= softplus_value beta v.
Proof.
  intros Hb Huv. unfold softplus_value.
  assert (H1 : 0 < 1 / beta) by (apply Rdiv_lt_0_compat; lra).
  apply Rmult_le_compat_l; [lra|]. apply ln1p_exp_mono, clamp20_mono. nra.
Qed.

(** X1: for [beta > 0], [softplus] maps every entry [v] of [x] to a value
    between 0 and [ln(1 + e^20) / beta]: the plain softplus of [v] as long
    as [beta * v <= 20], and exactly the cap above that. *)
Theorem softplus_saturates (w : world) (x : loc) (beta : R) (t : tensor) :
  heap w !! x = Some t ->
  0 < beta ->
  exists w' r out,
    softplus x beta w = (w', Ok r) /\
    heap w' !! r = Some out /\
    entries out = map (softplus_value beta) (entries t) /\
    (forall v, 0 <= softplus_value beta v <= softplus_cap beta) /\
    (forall v, beta * v <= 20 ->
       softplus_value beta v = 1 / beta * ln (1 + exp (beta * v))) /\
    (forall v, 20 < beta * v -> softplus_value beta v = softplus_cap beta).
Proof.
  intros Hx Hb. rewrite (softplus_run _ _ _ _ Hx).
  eexists _, _, _. split; [reflexivity|]. simpl. split.
  { rewrite lookup_app_r by lia.
    replace (S (length (heap w)) - length (heap w))%nat with 1%nat by lia.
    reflexivity. }
  split; [apply entries_pointwise|].
  split.
  { intros v. pose proof (softplus_value_range beta v Hb). lra. }
  split; intros v Hv; unfold softplus_value, softplus_cap, clamp20;
    destruct (Rlt_dec 20 (beta * v)); try lra; reflexivity.
Qed.

Lemma softplus_saturates_witness :
  exists w' r out,
    softplus 0%nat 2 (mkWorld [F2 [[-1; 30]]] (fun _ => 0)) = (w', Ok r) /\
    heap w' !! r = Some out /\
    entries out = [softplus_value 2 (-1); softplus_cap 2].
Proof.
  destruct (softplus_saturates (mkWorld [F2 [[-1; 30]]] (fun _ => 0)) 0%nat 2
              (F2 [[-1; 30]]) eq_refl ltac:(lra))
    as (w' & r & out & Hrun & Hout & Hent & _ & _ & Hcap).
  exists w', r, out. split; [exact Hrun|]. split; [exact Hout|].
  rewrite Hent. simpl. rewrite (Hcap 30) by lra. reflexivity.
Defined.

(** X2: for [beta > 0], [softplus] is non-decreasing: a larger entry of [x]
    never gives a smaller entry of the result. *)
Theorem softplus_monotone (w : world) (x : loc) (beta : R) (t : tensor) :
  heap w !! x = Some t ->
  0 < beta ->
  exists w' r out,
    softplus x beta w = (w', Ok r) /\
    heap w' !! r = Some out /\
    length (entries out) = length (entries t) /\
    (forall i j u v su sv,
       entries t !! i = Some u -> entries t !! j = Some v ->
       entries out !! i = Some su -> entries out !! j = Some sv ->
       u <= v -> su <= sv).
Proof.
  intros Hx Hb. rewrite (softplus_run _ _ _ _ Hx).
  eexists _, _, _. split; [reflexivity|]. simpl. split.
  { rewrite lookup_app_r by lia.
    replace (S (length (heap w)) - length (heap w))%nat with 1%nat by lia.
    reflexivity. }
  rewrite entries_pointwise. split; [apply length_map|].
  intros i j u v su sv Hu Hv. rewrite !lookup_map, Hu, Hv. simpl.
  intros [= <-] [= <-] Huv. apply (softplus_value_mono beta u v Hb Huv).
Qed.

Lemma softplus_monotone_witness :
  exists w' r out,
    softplus 0%nat 1 (mkWorld [F1 [1; 2]] (fun _ => 0)) = (w', Ok r) /\
    heap w' !! r = Some out /\
    length (entries out) = 2%nat.
Proof.
  destruct (softplus_monotone (mkWorld [F1 [1; 2]] (fun _ => 0)) 0%nat 1
              (F1 [1; 2]) eq_refl ltac:(lra))
    as (w' & r & out & Hrun & Hout & Hlen & _).
  exists w', r, out. auto.
Defined.

(** ** compute_event: what is written and what is returned *)




(** ** compute_integral_biased: sign of the result *)

Lemma at2_map_inv {A B : Type} (f : A -> B) (m : mat A) (i j : nat) (v : B) :
  at2 (map (map f) m) i j = Some v -> exists x, at2 m i j = Some x /\ v = f x.
Proof.
  rewrite at2_map. destruct (at2 m i j) as [x|]; simpl; [|discriminate].
  intros [= <-]. eauto.
Qed.

Lemma at2_zip_with_inv {A B C : Type} (g : A -> B -> C) (a : mat A) (b : mat B)
    (i j : nat) (v : C) :
  at2 (zip_with (zip_with g) a b) i j = Some v ->
  exists x y, at2 a i j = Some x /\ at2 b i j = Some y /\ v = g x y.
Proof.
  unfold at2. rewrite lookup_zip_with.
  destruct (a !! i) as [r|]; simpl; [|discriminate].
  destruct (b !! i) as [s|]; simpl; [|discriminate].
  rewrite lookup_zip_with.
  destruct (r !! j) as [x|]; simpl; [|discriminate].
  destruct (s !! j) as [y|]; simpl; [|discriminate].
  intros [= <-]. eauto.
Qed.

Lemma at2_init2_inv {A : Type} (m : mat A) (i j : nat) (x : A) :
  at2 (init2 m) i j = Some x -> at2 m i j = Some x.
Proof.
  unfold at2, init2. rewrite lookup_map.
  destruct (m !! i) as [r|]; simpl; [|discriminate].
  intros H. apply lookup_take_Some in H. apply H.
Qed.

(** X4: when no intensity is negative and the times of every sequence do not
    decrease, no entry of the result of [compute_integral_biased] is
    negative, whatever the mask holds. *)
Theorem compute_integral_biased_nonneg (w : world)
    (all_lambda time non_pad_mask : loc) (tl tt tm : tensor) (lam t m : mat R) :
  heap w !! all_lambda = Some tl -> as_N2 tl = Ok lam ->
  heap w !! time = Some tt -> as_N2 tt = Ok t ->
  heap w !! non_pad_mask = Some tm -> as_N2 tm = Ok m ->
  same_shape lam t -> same_shape m t ->
  (forall i j l, at2 lam i j = Some l -> 0 <= l) ->
  (forall i j t0 t1, at2 t i j = Some t0 -> at2 t i (S j) = Some t1 -> t0 <= t1) ->
  exists w' r out,
    compute_integral_biased all_lambda time non_pad_mask w = (w', Ok r) /\
    heap w' !! r = Some (F2 out) /\
    (forall i j v, at2 out i j = Some v -> 0 <= v).
Proof.
  intros Hl Hln Ht Htn Hm Hmn Hlt Hmt Hpos Hmono.
  rewrite (compute_integral_biased_run w _ _ _ tl tt tm lam t m Hl Hln Ht Htn Hm Hmn
             Hlt Hmt).
  eexists _, _, _. split; [reflexivity|]. simpl.
  split; [apply lookup_snoc_new|].
  intros i j v Hv.
  apply at2_map_inv in Hv as (b & Hb & ->).
  apply at2_zip_with_inv in Hb as (dl & dt & Hdl & Hdt & ->).
  apply at2_zip_with_inv in Hdl as (sl & k & Hsl & Hk & ->).
  apply at2_zip_with_inv in Hdt as (gap & k' & Hgap & Hk' & ->).
  assert (k' = k) as -> by congruence.
  apply at2_zip_with_inv in Hsl as (l1 & l0 & Hl1 & Hl0 & ->).
  apply at2_zip_with_inv in Hgap as (t1 & t0 & Ht1 & Ht0 & ->).
  rewrite at2_tail2 in Hl1, Ht1. apply at2_init2_inv in Hl0, Ht0.
  pose proof (Hpos _ _ _ Hl1). pose proof (Hpos _ _ _ Hl0).
  pose proof (Hmono _ _ _ _ Ht0 Ht1).
  assert (0 <= k * k) by nra.
  assert (0 <= (l1 + l0) * (t1 - t0)) by nra.
  replace (0.5 * ((l1 + l0) * k * ((t1 - t0) * k)))
    with (0.5 * (((l1 + l0) * (t1 - t0)) * (k * k))) by ring.
  nra.
Qed.

Lemma compute_integral_biased_nonneg_witness :
  exists w' r out,
    compute_integral_biased 0%nat 1%nat 2%nat
      (mkWorld [F2 [[1; 3; 2]]; F2 [[0; 2; 2]]; F2 [[1; 1; 0]]] (fun _ => 0))
    = (w', Ok r) /\
    heap w' !! r = Some (F2 out) /\
    (forall i j v, at2 out i j = Some v -> 0 <= v).
Proof.
  apply (compute_integral_biased_nonneg
           (mkWorld [F2 [[1; 3; 2]]; F2 [[0; 2; 2]]; F2 [[1; 1; 0]]] (fun _ => 0))
           0%nat 1%nat 2%nat (F2 [[1; 3; 2]]) (F2 [[0; 2; 2]]) (F2 [[1; 1; 0]])
           [[1; 3; 2]] [[0; 2; 2]] [[1; 1; 0]]
           eq_refl eq_refl eq_refl eq_refl eq_refl eq_refl).
  - repeat constructor.
  - repeat constructor.
  - intros [|[|i]] [|[|[|[|j]]]] l; unfold at2; simpl; intros [= <-]; lra.
  - intros [|[|i]] [|[|[|[|j]]]] t0 t1; unfold at2; simpl;
      intros [= <-] [= <-]; lra.
Defined.

(** ** time_loss: sign, zero, and a prediction without trailing dimension *)

Lemma sum_list_nonneg (l : list R) : Forall (fun x => 0 <= x) l -> 0 <= sum_list l.
Proof. induction 1 as [|x l Hx _ IH]; simpl in *; lra. Qed.

Lemma sum_list_zero_inv (l : list R) :
  Forall (fun x => 0 <= x) l -> sum_list l = 0 -> Forall (fun x => x = 0) l.
Proof.
  induction 1 as [|x l Hx Hl IH]; simpl in *; intros Hs; constructor.
  - pose proof (sum_list_nonneg l Hl). lra.
  - apply IH. pose proof (sum_list_nonneg l Hl). lra.
Qed.

Lemma sq_gap_terms_nonneg (prow trow : vec R) :
  Forall (fun x => 0 <= x)
    (map (fun j => (nth j prow 0 - (nth (S j) trow 0 - nth j trow 0)) *
                   (nth j prow 0 - (nth (S j) trow 0 - nth j trow 0)))
       (seq 0 (length trow - 1))).
Proof. apply Forall_map_seq. intros j _. cbv beta. apply Rle_0_sqr. Qed.

Lemma sq_gap_errors_nonneg (p2 t : mat R) :
  Forall (fun x => 0 <= x) (zip_with sq_gap_error p2 t).
Proof.
  revert t. induction p2 as [|prow p2 IH]; intros [|trow t]; simpl;
    constructor; [|apply IH].
  apply sum_list_nonneg, sq_gap_terms_nonneg.
Qed.

(** X5: the value that [time_loss] returns is never negative, and it is 0
    only when every predicted gap is the true gap. *)
Theorem time_loss_zero_only_if_exact (w : world) (prediction event_time : loc)
    (p tt : tensor) (p2 t : mat R) :
  prediction <> event_time ->
  heap w !! prediction = Some p -> squeeze_last p = F2 p2 ->
  heap w !! event_time = Some tt -> as_N2 tt = Ok t ->
  same_shape p2 t ->
  exists w' se,
    time_loss prediction event_time w = (w', Ok se) /\
    0 <= se /\
    (se = 0 ->
     forall i j tj tj1 pj,
       at2 t i j = Some tj -> at2 t i (S j) = Some tj1 ->
       at2 p2 i j = Some pj -> pj = tj1 - tj).
Proof.
  intros Hne Hp Hsq Ht Htn Hs.
  rewrite (time_loss_run w _ _ p tt p2 t Hne Hp Hsq Ht Htn Hs).
  rewrite (time_loss_value p2 t Hs).
  eexists _, _. split; [reflexivity|]. unfold sum_sq_gaps.
  split; [apply sum_list_nonneg, sq_gap_errors_nonneg|].
  intros Hzero i j tj tj1 pj Htj Htj1 Hpj.
  pose proof (sum_list_zero_inv _ (sq_gap_errors_nonneg p2 t) Hzero) as Hrows.
  unfold at2 in Htj, Htj1, Hpj.
  destruct (t !! i) as [trow|] eqn:Htrow; [|discriminate].
  destruct (p2 !! i) as [prow|] eqn:Hprow; [|discriminate].
  assert (Hrow : sq_gap_error prow trow = 0).
  { apply (Forall_lookup_1 _ _ i _ Hrows).
    rewrite lookup_zip_with, Hprow, Htrow. reflexivity. }
  pose proof (sum_list_zero_inv _ (sq_gap_terms_nonneg prow trow) Hrow) as Hterms.
  pose proof (lookup_lt_Some _ _ _ Htj1) as Hlt.
  assert (Hterm : (nth j prow 0 - (nth (S j) trow 0 - nth j trow 0)) *
                  (nth j prow 0 - (nth (S j) trow 0 - nth j trow 0)) = 0).
  { apply (Forall_lookup_1 _ _ j _ Hterms).
    rewrite lookup_map, lookup_seq_lt by lia. reflexivity. }
  rewrite (nth_lookup_Some _ _ _ _ Hpj), (nth_lookup_Some _ _ _ _ Htj),
    (nth_lookup_Some _ _ _ _ Htj1) in Hterm.
  nra.
Qed.

Lemma time_loss_zero_only_if_exact_witness :
  exists w' se,
    time_loss 0%nat 1%nat
      (mkWorld [F3 [[[2]; [5]; [7]]]; F2 [[0; 2; 3]]] (fun _ => 0))
    = (w', Ok se) /\ 0 <= se.
Proof.
  destruct (time_loss_zero_only_if_exact
              (mkWorld [F3 [[[2]; [5]; [7]]]; F2 [[0; 2; 3]]] (fun _ => 0))
              0%nat 1%nat (F3 [[[2]; [5]; [7]]]) (F2 [[0; 2; 3]])
              [[2; 5; 7]] [[0; 2; 3]])
    as (w' & se & Hrun & Hpos & _).
  - discriminate.
  - reflexivity.
  - reflexivity.
  - reflexivity.
  - reflexivity.
  - repeat constructor.
  - exists w', se. auto.
Defined.

(** X6: a prediction of rank 2 with a single column (shape (B, 1), B > 0) is
    squeezed to rank 1 by [time_loss]; the slice [prediction[:, :-1]] then
    fails with [IndexError], and the caller's tensor stays squeezed. *)
Theorem time_loss_single_column (w : world) (prediction event_time : loc)
    (m : mat R) (tt : tensor) (t : mat R) :
  prediction <> event_time ->
  heap w !! prediction = Some (F2 m) ->
  m <> [] -> forallb singleton m = true ->
  heap w !! event_time = Some tt -> as_N2 tt = Ok t ->
  time_loss prediction event_time w =
    (mkWorld (<[prediction := F1 (map (hd 0) m)]> (heap w)) (rng w),
     Raise IndexError).
Proof.
  intros Hne Hp _ Hsingle Ht Htn.
  pose proof (lookup_lt_Some _ _ _ Hp) as Hlt.
  unfold time_loss.
  rewrite (bind_ok _ _ _ _ _ (load_ok _ _ _ Hp)).
  rewrite (bind_ok _ _ _ _ _ (store_ok _ _ _)). simpl squeeze_last. rewrite Hsingle.
  erewrite bind_ok;
    [|eapply loadN2_ok;
      [simpl; rewrite list_lookup_insert_ne by exact Hne; exact Ht | exact Htn]].
  erewrite bind_ok; [|apply lift_ok, ew2_ok; auto with shape].
  erewrite bind_ok;
    [|apply load_ok; simpl; apply list_lookup_insert_eq; exact Hlt].
  erewrite bind_raise; [reflexivity|]. reflexivity.
Qed.

Lemma time_loss_single_column_witness :
  time_loss 0%nat 1%nat (mkWorld [F2 [[4]; [6]]; F2 [[0]; [1]]] (fun _ => 0)) =
    (mkWorld [F1 [4; 6]; F2 [[0]; [1]]] (fun _ => 0), Raise IndexError).
Proof.
  apply (time_loss_single_column
           (mkWorld [F2 [[4]; [6]]; F2 [[0]; [1]]] (fun _ => 0)) 0%nat 1%nat
           [[4]; [6]] (F2 [[0]; [1]]) [[0]; [1]]).
  - discriminate.
  - reflexivity.
  - discriminate.
  - reflexivity.
  - reflexivity.
  - reflexivity.
Defined.

(** ** LabelSmoothingLoss.forward: the loss it returns *)

Lemma one_hot_row_ok (K : nat) (z : Z) :
  (0 <= z < Z.of_nat K)%Z ->
  one_hot_row K z = Ok (<[Z.to_nat z := 1]> (replicate K 0)).
Proof.
  intros Hz. unfold one_hot_row.
  destruct (Z.leb_spec 0 z); [|lia]. destruct (Z.ltb_spec z (Z.of_nat K)); [|lia].
  reflexivity.
Qed.

Lemma mapM_ok_map {A B : Type} (f : A -> result B) (g : A -> B) (l : list A) :
  Forall (fun a => f a = Ok (g a)) l -> mapM f l = Ok (map g l).
Proof.
  induction 1 as [|a l Ha _ IH]; simpl; [reflexivity|].
  rewrite Ha. simpl. rewrite IH. reflexivity.
Qed.

Lemma position_losses (self : LabelSmoothingLoss) (v : vec Z) (o : mat R) :
  map Ropp
    (sum_last2
       (zip_with (zip_with Rmult)
          (map (map (smooth (eps self) (num_classes self)))
             (map (fun z => <[Z.to_nat (clear_ignored self z) := 1]>
                              (replicate (num_classes self) 0)) v))
          (map log_softmax_row o)))
  = zip_with (position_loss self) v o.
Proof.
  unfold sum_last2. revert o.
  induction v as [|z v IH]; intros [|row o]; simpl; try reflexivity.
  rewrite IH. reflexivity.
Qed.

(** [forward] on a rank-1 target whose classes are in range and a matrix of
    logits with one row of [K] logits per target. *)
Lemma forward_run_rank1 (self : LabelSmoothingLoss) (w : world)
    (output target : loc) (v : vec Z) (o : mat R) :
  heap w !! target = Some (L1 v) ->
  heap w !! output = Some (F2 o) ->
  (0 < num_classes self)%nat ->
  Forall (class_in_range self) v ->
  Forall2 (fun z row => length row = num_classes self) v o ->
  forward self output target w =
    (mkWorld
       (<[target := L1 (map (clear_ignored self) v)]> (heap w) ++
        [F1 (zip_with Rmult (zip_with (position_loss self) v o) (map (keep self) v))])
       (rng w),
     Ok (length (heap w))).
Proof.
  intros Ht Ho HK Hrange Hshape.
  pose proof (lookup_lt_Some _ _ _ Ht) as Hlt.
  assert (Hne : target <> output) by (intros ->; congruence).
  assert (HK0 : (num_classes self =? 0)%nat = false) by (apply Nat.eqb_neq; lia).
  set (ohs := map (fun z => <[Z.to_nat (clear_ignored self z) := 1]>
                              (replicate (num_classes self) 0)) v).
  assert (Hoh : one_hot (num_classes self) (L1 (map (clear_ignored self) v))
                = Ok (F2 ohs)).
  { unfold one_hot. rewrite HK0.
    rewrite (mapM_ok_map _
               (fun z => <[Z.to_nat z := 1]> (replicate (num_classes self) 0))).
    - simpl. unfold ohs. rewrite map_map. reflexivity.
    - clear -Hrange. induction Hrange as [|z v Hz _ IH]; simpl; constructor;
        [apply one_hot_row_ok, Hz | exact IH]. }
  assert (Hsh : same_shape
                  (map (map (smooth (eps self) (num_classes self))) ohs)
                  (map log_softmax_row o)).
  { unfold ohs. clear -Hshape.
    induction Hshape as [|z row v o Hrow _ IH]; simpl; constructor; [|exact IH].
    unfold log_softmax_row. rewrite !length_map, length_insert, length_replicate.
    congruence. }
  unfold forward.
  rewrite (bind_ok _ _ _ _ _ (load_ok _ _ _ Ht)).
  erewrite bind_ok; [|apply lift_ok; reflexivity].
  rewrite (bind_ok _ _ _ _ _ (load_ok _ _ _ Ht)).
  erewrite bind_ok; [|apply lift_ok; reflexivity].
  rewrite (bind_ok _ _ _ _ _ (store_ok _ _ _)).
  erewrite bind_ok;
    [|apply load_ok; simpl; apply list_lookup_insert_eq; exact Hlt].
  erewrite bind_ok; [|apply lift_ok; exact Hoh].
  erewrite bind_ok;
    [|apply load_ok; simpl; rewrite list_lookup_insert_ne by exact Hne; exact Ho].
  erewrite bind_ok; [|apply lift_ok; reflexivity].
  erewrite bind_ok;
    [|apply lift_ok; simpl; rewrite (ew2_ok _ _ _ Hsh); reflexivity].
  erewrite bind_ok; [|apply lift_ok; reflexivity].
  erewrite bind_ok.
  2:{ apply lift_ok. simpl. rewrite ew1_ok; [reflexivity|].
      unfold sum_last2. rewrite !length_map, length_zip_with, !length_map.
      unfold ohs. rewrite length_map. apply Forall2_length in Hshape. lia. }
  rewrite alloc_ok. simpl. rewrite length_insert.
  fold ohs. unfold ohs. rewrite position_losses. reflexivity.
Qed.

Lemma sum_zip_replicate_0 (f : R -> R) (lp : vec R) :
  sum_list (zip_with Rmult (map f (replicate (length lp) 0)) lp)
  = f 0 * sum_list lp.
Proof. induction lp as [|x lp IH]; simpl; [lra | rewrite IH; lra]. Qed.

Lemma sum_zip_one_hot (f : R -> R) (lp : vec R) (n : nat) :
  (n < length lp)%nat ->
  sum_list (zip_with Rmult (map f (<[n := 1]> (replicate (length lp) 0))) lp)
  = f 1 * nth n lp 0 + f 0 * (sum_list lp - nth n lp 0).
Proof.
  revert n. induction lp as [|x lp IH]; intros n Hn; simpl in Hn; [lia|].
  destruct n as [|n]; simpl.
  - rewrite sum_zip_replicate_0. lra.
  - rewrite IH by lia. lra.
Qed.

Lemma keep_ignored (self : LabelSmoothingLoss) (z : Z) :
  z = ignore_index self -> keep self z = 0.
Proof. intros ->. unfold keep. rewrite Z.eqb_refl. reflexivity. Qed.

Lemma keep_other (self : LabelSmoothingLoss) (z : Z) :
  z <> ignore_index self -> keep self z = 1 /\ clear_ignored self z = z.
Proof.
  intros Hz. unfold keep, clear_ignored.
  destruct (Z.eqb_spec z (ignore_index self)); [contradiction | auto].
Qed.

(** X7: on targets in range, [forward] returns one loss per target: exactly
    0 where the target is the ignore index, and elsewhere
    [-((1 - eps) * lp[c] + eps / K * (sum lp - lp[c]))] for the class [c] of
    the target and the log-probabilities [lp] of its logits. *)
Theorem forward_loss_per_position (self : LabelSmoothingLoss) (w : world)
    (output target : loc) (v : vec Z) (o : mat R) :
  heap w !! target = Some (L1 v) ->
  heap w !! output = Some (F2 o) ->
  (0 < num_classes self)%nat ->
  Forall (class_in_range self) v ->
  Forall2 (fun z row => length row = num_classes self) v o ->
  exists w' r loss,
    forward self output target w = (w', Ok r) /\
    heap w' !! r = Some (F1 loss) /\
    length loss = length v /\
    (forall i z, v !! i = Some z -> z = ignore_index self -> loss !! i = Some 0) /\
    (forall i z row, v !! i = Some z -> o !! i = Some row ->
       z <> ignore_index self ->
       loss !! i =
         Some (- ((1 - eps self) * nth (Z.to_nat z) (log_softmax_row row) 0 +
                  eps self / INR (num_classes self) *
                    (sum_list (log_softmax_row row)
                     - nth (Z.to_nat z) (log_softmax_row row) 0)))).
Proof.
  intros Ht Ho HK Hrange Hshape.
  rewrite (forward_run_rank1 self w output target v o Ht Ho HK Hrange Hshape).
  pose proof (Forall2_length _ _ _ Hshape) as Hlen.
  eexists _, _, _. split; [reflexivity|]. simpl.
  split.
  { rewrite <- (length_insert (heap w) target (L1 (map (clear_ignored self) v))).
    apply lookup_snoc_new. }
  split; [rewrite !length_zip_with, length_map; lia|].
  split.
  - intros i z Hz Hign.
    destruct (Forall2_lookup_l _ _ _ _ _ Hshape Hz) as (row & Hrow & _).
    rewrite !lookup_zip_with, Hz, Hrow, lookup_map, Hz. simpl.
    rewrite (keep_ignored _ _ Hign). f_equal. lra.
  - intros i z row Hz Hrow Hother.
    pose proof (Forall2_lookup_lr _ _ _ _ _ _ Hshape Hz Hrow) as Hrowlen.
    pose proof (Forall_lookup_1 _ _ _ _ Hrange Hz) as Hcls.
    destruct (keep_other _ _ Hother) as [Hkeep Hclear].
    unfold class_in_range in Hcls. rewrite Hclear in Hcls.
    rewrite !lookup_zip_with, Hz, Hrow, lookup_map, Hz. simpl.
    rewrite Hkeep. f_equal. unfold position_loss. rewrite Hclear.
    assert (Hl : length (log_softmax_row row) = num_classes self)
      by (unfold log_softmax_row; rewrite length_map; exact Hrowlen).
    pose proof (sum_zip_one_hot (smooth (eps self) (num_classes self))
                  (log_softmax_row row) (Z.to_nat z) ltac:(lia)) as Hsum.
    rewrite Hl in Hsum. rewrite Hsum.
    unfold smooth. field.
    apply not_0_INR. lia.
Qed.

Lemma forward_loss_per_position_witness :
  exists w' r loss,
    forward (mkLabelSmoothingLoss 0.5 2 (-1)) 0%nat 1%nat
      (mkWorld [F2 [[0; 0]; [1; 2]]; L1 [1; -1]%Z] (fun _ => 0)) = (w', Ok r) /\
    heap w' !! r = Some (F1 loss) /\
    length loss = 2%nat /\
    loss !! 1%nat = Some 0.
Proof.
  destruct (forward_loss_per_position (mkLabelSmoothingLoss 0.5 2 (-1))
              (mkWorld [F2 [[0; 0]; [1; 2]]; L1 [1; -1]%Z] (fun _ => 0))
              0%nat 1%nat [1; -1]%Z [[0; 0]; [1; 2]] eq_refl eq_refl)
    as (w' & r & loss & Hrun & Hloss & Hlen & Hign & _).
  - simpl. lia.
  - repeat constructor; unfold class_in_range, clear_ignored; simpl; lia.
  - repeat constructor.
  - exists w', r, loss. split; [exact Hrun|]. split; [exact Hloss|].
    split; [exact Hlen|]. apply (Hign 1%nat (-1)%Z); reflexivity.
Defined.

Lemma exp_le_sum (row : vec R) (x : R) :
  In x row -> exp x <= sum_list (map exp row).
Proof.
  assert (Hpos : forall l, 0 <= sum_list (map exp l)).
  { intros l. apply sum_list_nonneg, Forall_map_all. intros a.
    apply Rlt_le, exp_pos. }
  induction row as [|y row IH]; simpl; [contradiction|].
  intros [->|Hin].
  - pose proof (Hpos row). lra.
  - pose proof (IH Hin). pose proof (exp_pos y). lra.
Qed.

Lemma log_softmax_nonpos (row : vec R) :
  Forall (fun lp => lp <= 0) (log_softmax_row row).
Proof.
  unfold log_softmax_row. apply List.Forall_forall. intros lp Hin.
  apply in_map_iff in Hin as (x & <- & Hx).
  pose proof (exp_le_sum row x Hx) as Hle. pose proof (exp_pos x) as Hpos.
  destruct Hle as [Hlt|Heq].
  - pose proof (ln_increasing _ _ Hpos Hlt) as H. rewrite ln_exp in H. lra.
  - rewrite <- Heq, ln_exp. lra.
Qed.

Lemma smooth_one_hot_nonneg (eps : R) (K n : nat) :
  0 <= eps <= 1 -> (0 < K)%nat ->
  Forall (fun q => 0 <= q) (map (smooth eps K) (<[n := 1]> (replicate K 0))).
Proof.
  intros Heps HK.
  assert (H01 : Forall (fun h => h = 0 \/ h = 1) (<[n := 1]> (replicate K 0))).
  { apply List.Forall_forall. intros h Hin. apply list_elem_of_In in Hin.
    apply list_elem_of_lookup in Hin as [i Hi].
    destruct (decide (i = n)) as [->|Hne].
    - pose proof (lookup_lt_Some _ _ _ Hi) as Hlt. rewrite length_insert in Hlt.
      rewrite list_lookup_insert_eq in Hi by exact Hlt. right. congruence.
    - rewrite list_lookup_insert_ne in Hi by congruence.
      apply lookup_replicate in Hi as [-> _]. left. reflexivity. }
  assert (HK' : 0 < / INR K) by (apply Rinv_0_lt_compat, lt_0_INR; lia).
  induction H01 as [|h l Hh _ IH]; simpl; constructor; [|exact IH].
  unfold smooth, Rdiv. destruct Hh as [-> | ->]; nra.
Qed.

Lemma sum_products_nonpos (qs lps : vec R) :
  Forall (fun q => 0 <= q) qs -> Forall (fun lp => lp <= 0) lps ->
  sum_list (zip_with Rmult qs lps) <= 0.
Proof.
  intros Hq. revert lps. induction Hq as [|q qs Hq0 _ IH]; intros lps Hlp; simpl;
    [lra|].
  destruct Hlp as [|lp lps Hlp0 Hlps]; simpl in *; [lra|].
  pose proof (IH lps Hlps). nra.
Qed.

Lemma position_loss_nonneg (self : LabelSmoothingLoss) (z : Z) (row : vec R) :
  0 <= eps self <= 1 -> (0 < num_classes self)%nat ->
  0 <= position_loss self z row.
Proof.
  intros Heps HK. unfold position_loss.
  pose proof (sum_products_nonpos _ _
                (smooth_one_hot_nonneg (eps self) (num_classes self)
                   (Z.to_nat (clear_ignored self z)) Heps HK)
                (log_softmax_nonpos row)).
  lra.
Qed.

(** X8: for a smoothing factor in [0, 1] (every object the constructor
    builds has one), no entry of the loss that [forward] returns is
    negative. *)
Theorem forward_loss_nonneg (self : LabelSmoothingLoss) (w : world)
    (output target : loc) (v : vec Z) (o : mat R) :
  heap w !! target = Some (L1 v) ->
  heap w !! output = Some (F2 o) ->
  (0 < num_classes self)%nat ->
  Forall (class_in_range self) v ->
  Forall2 (fun z row => length row = num_classes self) v o ->
  0 <= eps self <= 1 ->
  exists w' r loss,
    forward self output target w = (w', Ok r) /\
    heap w' !! r = Some (F1 loss) /\
    (forall i x, loss !! i = Some x -> 0 <= x).
Proof.
  intros Ht Ho HK Hrange Hshape Heps.
  rewrite (forward_run_rank1 self w output target v o Ht Ho HK Hrange Hshape).
  eexists _, _, _. split; [reflexivity|]. simpl.
  split.
  { rewrite <- (length_insert (heap w) target (L1 (map (clear_ignored self) v))).
    apply lookup_snoc_new. }
  intros i x. rewrite !lookup_zip_with, lookup_map.
  destruct (v !! i) as [z|]; simpl; [|discriminate].
  destruct (o !! i) as [row|]; simpl; [|discriminate].
  intros [= <-].
  pose proof (position_loss_nonneg self z row Heps HK).
  unfold keep. destruct (z =? ignore_index self)%Z; nra.
Qed.

Lemma forward_loss_nonneg_witness :
  exists w' r loss,
    forward (mkLabelSmoothingLoss 0.5 2 (-1)) 0%nat 1%nat
      (mkWorld [F2 [[0; 0]; [1; 2]]; L1 [1; -1]%Z] (fun _ => 0)) = (w', Ok r) /\
    heap w' !! r = Some (F1 loss) /\
    (forall i x, loss !! i = Some x -> 0 <= x).
Proof.
  apply (forward_loss_nonneg (mkLabelSmoothingLoss 0.5 2 (-1))
           (mkWorld [F2 [[0; 0]; [1; 2]]; L1 [1; -1]%Z] (fun _ => 0))
           0%nat 1%nat [1; -1]%Z [[0; 0]; [1; 2]] eq_refl eq_refl).
  - simpl. lia.
  - repeat constructor; unfold class_in_range, clear_ignored; simpl; lia.
  - repeat constructor.
  - simpl. lra.
Defined.

(** ** LabelSmoothingLoss.forward: a class out of range *)

Lemma one_hot_row_bad (K : nat) (z : Z) :
  ~ (0 <= z < Z.of_nat K)%Z -> one_hot_row K z = Raise RuntimeError.
Proof.
  intros Hz. unfold one_hot_row.
  destruct (Z.leb_spec 0 z); destruct (Z.ltb_spec z (Z.of_nat K)); simpl;
    try reflexivity. lia.
Qed.

Lemma one_hot_row_raises (K : nat) (z : Z) (e : exn) :
  one_hot_row K z = Raise e -> e = RuntimeError.
Proof. unfold one_hot_row. destruct (_ && _); congruence. Qed.

Lemma mapM_raise {A B : Type} (f : A -> result B) (e : exn) (l : list A) :
  (forall a e', f a = Raise e' -> e' = e) ->
  Exists (fun a => f a = Raise e) l -> mapM f l = Raise e.
Proof.
  intros Hf. induction 1 as [a l Ha|a l _ IH]; simpl.
  - rewrite Ha. reflexivity.
  - destruct (f a) as [b|e'] eqn:Hfa; simpl.
    + rewrite IH. reflexivity.
    + f_equal. eapply Hf, Hfa.
Qed.

Lemma mapM_raises {A B : Type} (f : A -> result B) (e : exn) (l : list A) :
  (forall a e', f a = Raise e' -> e' = e) ->
  forall e', mapM f l = Raise e' -> e' = e.
Proof.
  intros Hf. induction l as [|a l IH]; simpl; intros e'; [discriminate|].
  destruct (f a) as [b|e''] eqn:Hfa; simpl.
  - destruct (mapM f l) as [bs|e3]; simpl; [discriminate|].
    intros [= <-]. apply IH. reflexivity.
  - intros [= <-]. eapply Hf, Hfa.
Qed.

Lemma one_hot_bad_rank1 (K : nat) (v : vec Z) :
  Exists (fun z => ~ (0 <= z < Z.of_nat K)%Z) v ->
  one_hot K (L1 v) = Raise RuntimeError.
Proof.
  intros Hbad. unfold one_hot. destruct (K =? 0)%nat; [reflexivity|].
  rewrite (mapM_raise _ RuntimeError); [reflexivity | apply one_hot_row_raises |].
  eapply Exists_impl; [exact Hbad|]. intros z Hz. apply one_hot_row_bad, Hz.
Qed.

Lemma one_hot_bad_rank2 (K : nat) (m : mat Z) :
  Exists (Exists (fun z => ~ (0 <= z < Z.of_nat K)%Z)) m ->
  one_hot K (L2 m) = Raise RuntimeError.
Proof.
  intros Hbad. unfold one_hot. destruct (K =? 0)%nat; [reflexivity|].
  rewrite (mapM_raise _ RuntimeError); [reflexivity | |].
  - intros row e'. apply mapM_raises, one_hot_row_raises.
  - eapply Exists_impl; [exact Hbad|]. intros row Hrow.
    apply mapM_raise; [apply one_hot_row_raises|].
    eapply Exists_impl; [exact Hrow|]. intros z Hz. apply one_hot_row_bad, Hz.
Qed.

(** [forward] up to [F.one_hot], when that fails. *)
Lemma forward_one_hot_fails (self : LabelSmoothingLoss) (w : world)
    (output target : loc) (t t' : tensor) :
  heap w !! target = Some t ->
  long_map (clear_ignored self) t = Ok t' ->
  one_hot (num_classes self) t' = Raise RuntimeError ->
  forward self output target w =
    (mkWorld (<[target := t']> (heap w)) (rng w), Raise RuntimeError).
Proof.
  intros Ht Hmap Hoh.
  pose proof (lookup_lt_Some _ _ _ Ht) as Hlt.
  assert (Hfloat : exists f,
            long_to_float (fun z => if (z =? ignore_index self)%Z then 0 else 1) t
            = Ok f).
  { destruct t; try discriminate; simpl; eauto. }
  destruct Hfloat as [f Hf].
  unfold forward.
  rewrite (bind_ok _ _ _ _ _ (load_ok _ _ _ Ht)).
  erewrite bind_ok; [|apply lift_ok; exact Hf].
  rewrite (bind_ok _ _ _ _ _ (load_ok _ _ _ Ht)).
  erewrite bind_ok; [|apply lift_ok; exact Hmap].
  rewrite (bind_ok _ _ _ _ _ (store_ok _ _ _)).
  erewrite bind_ok;
    [|apply load_ok; simpl; apply list_lookup_insert_eq; exact Hlt].
  erewrite bind_raise; [reflexivity|]. unfold lift. rewrite Hoh. reflexivity.
Qed.

(** X9: when a target that is not the ignore index is no class of the [K]
    classes (negative, or [K] and above), [forward] fails with the
    [RuntimeError] of [F.one_hot]; the ignored entries of the caller's
    target have been set to 0 by then. *)
Theorem forward_class_out_of_range (self : LabelSmoothingLoss) (w : world)
    (output target : loc) (v : vec Z) :
  heap w !! target = Some (L1 v) ->
  Exists (fun z => ~ class_in_range self z) v ->
  forward self output target w =
    (mkWorld (<[target := L1 (map (clear_ignored self) v)]> (heap w)) (rng w),
     Raise RuntimeError).
Proof.
  intros Ht Hbad.
  apply (forward_one_hot_fails self w output target (L1 v) _ Ht eq_refl).
  apply one_hot_bad_rank1. unfold class_in_range in Hbad.
  clear -Hbad. induction Hbad as [z v Hz|z v _ IH]; simpl;
    [left; exact Hz | right; exact IH].
Qed.

Lemma forward_class_out_of_range_witness :
  forward (mkLabelSmoothingLoss 0.5 2 (-100)) 0%nat 1%nat
    (mkWorld [F2 [[0; 0]; [0; 0]; [0; 0]]; L1 [1; -100; 2]%Z] (fun _ => 0)) =
  (mkWorld [F2 [[0; 0]; [0; 0]; [0; 0]]; L1 [1; 0; 2]%Z] (fun _ => 0),
   Raise RuntimeError).
Proof.
  apply (forward_class_out_of_range (mkLabelSmoothingLoss 0.5 2 (-100))
           (mkWorld [F2 [[0; 0]; [0; 0]; [0; 0]]; L1 [1; -100; 2]%Z] (fun _ => 0))
           0%nat 1%nat [1; -100; 2]%Z eq_refl).
  right. right. left. unfold class_in_range, clear_ignored. simpl. lia.
Defined.

Lemma Exists_map_intro {A B : Type} (P : B -> Prop) (f : A -> B) (l : list A) :
  Exists (fun a => P (f a)) l -> Exists P (map f l).
Proof. induction 1; simpl; [left | right]; assumption. Qed.

(** X10: [type_loss] shifts a padding type 0 to the truth -1.  With a
    label-smoothing loss whose ignore index is not -1 (the default is -100),
    a batch that holds a padding type after its first position makes the
    call fail with the [RuntimeError] of [F.one_hot]. *)
Theorem type_loss_padding_not_ignored (w : world) (prediction types : loc)
    (self : LabelSmoothingLoss) (p : cube R) (ty : mat Z) :
  heap w !! types = Some (L2 ty) ->
  heap w !! prediction = Some (F3 p) ->
  Forall (Forall (fun row => row <> [])) (shifted_prediction p) ->
  same_shape (shifted_prediction p) (shifted_truth ty) ->
  ignore_index self <> (-1)%Z ->
  Exists (Exists (fun z => z = 0%Z)) (tail2 ty) ->
  exists w',
    type_loss prediction types (Smoothing self) w = (w', Raise RuntimeError) /\
    unchanged w w'.
Proof.
  intros Hty Hp Hne Hs Hign Hpad.
  destruct (type_loss_result w prediction types (Smoothing self) p ty Hty Hp Hne Hs)
    as (pred_type & _ & _ & _ & Heq).
  rewrite Heq. simpl run_loss.
  erewrite bind_raise.
  2:{ eapply (forward_one_hot_fails self _ _ _ (L2 (shifted_truth ty))).
      - simpl. rewrite lookup_app_r by lia.
        replace (length (heap w) - length (heap w))%nat with 0%nat by lia.
        reflexivity.
      - reflexivity.
      - apply one_hot_bad_rank2. apply Exists_map_intro.
        unfold shifted_truth. apply Exists_map_intro.
        eapply Exists_impl; [exact Hpad|]. intros row Hrow.
        apply Exists_map_intro, Exists_map_intro.
        eapply Exists_impl; [exact Hrow|]. intros z ->.
        unfold clear_ignored. cbv beta. change (0 - 1)%Z with (-1)%Z.
        destruct (Z.eqb_spec (-1) (ignore_index self)); [congruence | lia]. }
  eexists. split; [reflexivity|].
  intros l t Hl. simpl.
  pose proof (lookup_lt_Some _ _ _ Hl) as Hlt.
  rewrite list_lookup_insert_ne by lia.
  rewrite lookup_app_l by exact Hlt. exact Hl.
Qed.

Lemma type_loss_padding_not_ignored_witness :
  exists w',
    type_loss 0%nat 1%nat (Smoothing (mkLabelSmoothingLoss 0.5 2 default_ignore_index))
      (mkWorld [F3 [[[1; 9]; [8; 2]; [5; 5]]]; L2 [[1; 2; 0]]%Z] (fun _ => 0))
    = (w', Raise RuntimeError) /\
    unchanged
      (mkWorld [F3 [[[1; 9]; [8; 2]; [5; 5]]]; L2 [[1; 2; 0]]%Z] (fun _ => 0)) w'.
Proof.
  apply (type_loss_padding_not_ignored
           (mkWorld [F3 [[[1; 9]; [8; 2]; [5; 5]]]; L2 [[1; 2; 0]]%Z] (fun _ => 0))
           0%nat 1%nat (mkLabelSmoothingLoss 0.5 2 default_ignore_index)
           [[[1; 9]; [8; 2]; [5; 5]]] [[1; 2; 0]]%Z eq_refl eq_refl).
  - repeat constructor; discriminate.
  - repeat constructor.
  - discriminate.
  - left. right. left. reflexivity.
Defined.

(** ** type_loss: the lists pair up, the count is bounded *)

Lemma reported_lengths (truth pred_type : mat Z) :
  same_shape pred_type truth ->
  length (concat (zip_with (fun r q => take (before_pad r) q) truth pred_type))
  = length (concat (map (fun r => take (before_pad r) r) truth)) /\
  (length (concat (map (fun r => take (before_pad r) r) truth))
   <= length (concat truth))%nat.
Proof.
  induction 1 as [|q r pred_type truth Hlen _ [IH1 IH2]]; simpl; [auto|].
  rewrite !length_app, !length_take, IH1. split; lia.
Qed.

Lemma matches_bound (pred_type truth : mat Z) :
  (0 <= matches pred_type truth <= Z.of_nat (length (concat truth)))%Z.
Proof.
  unfold matches. split; [lia|]. apply inj_le. revert truth.
  induction pred_type as [|q pred_type IH]; intros [|r truth]; simpl; try lia.
  rewrite length_app. specialize (IH truth).
  assert (row_matches q r <= length r)%nat; [|lia].
  unfold row_matches.
  etransitivity; [apply length_filter|]. rewrite length_seq. lia.
Qed.

(** X11: for a prediction of shape [(B, L, K)], [K > 0], and types of shape
    [(B, L)]: whenever [type_loss] returns, [true_list] and [pred_list] have
    the same length, which is at most the number [B * (L - 1)] of shifted
    positions, and [correct_num] lies between 0 and that number. *)
Theorem type_loss_lists_pair_up (w : world) (prediction types : loc)
    (loss_func : loss_fn) (p : cube R) (ty : mat Z) :
  heap w !! types = Some (L2 ty) ->
  heap w !! prediction = Some (F3 p) ->
  Forall (Forall (fun row => row <> [])) (shifted_prediction p) ->
  same_shape (shifted_prediction p) (shifted_truth ty) ->
  (forall w' loss_r correct_num true_list pred_list,
     type_loss prediction types loss_func w
       = (w', Ok (loss_r, correct_num, true_list, pred_list)) ->
     length pred_list = length true_list /\
     (length true_list <= length (concat (shifted_truth ty)))%nat /\
     (0 <= correct_num <= Z.of_nat (length (concat (shifted_truth ty))))%Z) /\
  (forall f loss,
     f (map transpose (shifted_prediction p)) (shifted_truth ty) = Ok loss ->
     exists w' correct_num true_list pred_list,
       type_loss prediction types (Criterion f) w
         = (w', Ok (sum_all loss, correct_num, true_list, pred_list))).
Proof.
  intros Hty Hp Hne Hs. split.
  - intros w' loss_r correct_num true_list pred_list Hrun.
    destruct (type_loss_result w prediction types loss_func p ty Hty Hp Hne Hs)
      as (pred_type & _ & Hshape & _ & Heq).
    rewrite Heq in Hrun.
    destruct (run_loss loss_func _ _ _) as [w2 [loss|e]]; [|discriminate].
    injection Hrun as _ _ <- <- <-.
    destruct (reported_lengths _ _ Hshape) as [H1 H2].
    split; [exact H1|]. split; [exact H2 | apply matches_bound].
  - intros f loss Hf.
    destruct (type_loss_result w prediction types (Criterion f) p ty Hty Hp Hne Hs)
      as (pred_type & _ & _ & _ & Heq).
    rewrite Heq. erewrite run_loss_criterion; [rewrite Hf; eauto 6 | |].
    + simpl. rewrite lookup_app_r by lia.
      replace (S (length (heap w)) - length (heap w))%nat with 1%nat by lia.
      reflexivity.
    + simpl. rewrite lookup_app_r by lia.
      replace (length (heap w) - length (heap w))%nat with 0%nat by lia.
      reflexivity.
Qed.

Lemma type_loss_lists_pair_up_witness :
  exists w' correct_num true_list pred_list,
    type_loss 0%nat 1%nat (Criterion (fun _ _ => Ok (F2 [[0.5; 0]])))
      (mkWorld [F3 [[[1; 9]; [8; 2]; [5; 5]]]; L2 [[1; 2; 0]]%Z] (fun _ => 0))
    = (w', Ok (sum_all (F2 [[0.5; 0]]), correct_num, true_list, pred_list)) /\
    length pred_list = length true_list.
Proof.
  destruct (type_loss_lists_pair_up
              (mkWorld [F3 [[[1; 9]; [8; 2]; [5; 5]]]; L2 [[1; 2; 0]]%Z] (fun _ => 0))
              0%nat 1%nat (Criterion (fun _ _ => Ok (F2 [[0.5; 0]])))
              [[[1; 9]; [8; 2]; [5; 5]]] [[1; 2; 0]]%Z eq_refl eq_refl)
    as [Hprop Hret].
  - repeat constructor; discriminate.
  - repeat constructor.
  - destruct (Hret (fun _ _ => Ok (F2 [[0.5; 0]])) (F2 [[0.5; 0]]) eq_refl)
      as (w' & c & tl & pl & Hrun).
    exists w', c, tl, pl. split; [exact Hrun|].
    apply (Hprop _ _ _ _ _ Hrun).
Defined.

(** ** compute_integral_unbiased *)

Lemma bcast1_single_l (g : R -> R -> R) (d : R) (s : vec R) :
  bcast1 g [d] s = Ok (map (g d) s).
Proof. reflexivity. Qed.

Lemma bcast1_single_r (g : R -> R -> R) (s : vec R) (d : R) :
  bcast1 g s [d] = Ok (map (fun v => g v d) s).
Proof. destruct s as [|x [|y s]]; reflexivity. Qed.

Lemma bcast_rows_l (g : R -> R -> R) (r : vec R) (ur : mat R) :
  length r = length ur ->
  zip_same (bcast1 g) (map (fun v => [v]) r) ur
  = Ok (zip_with (fun d s => map (g d) s) r ur).
Proof.
  revert ur. induction r as [|d r IH]; intros [|s ur] Hlen; simpl in Hlen;
    try discriminate; [reflexivity|].
  cbn [map zip_same zip_with]. rewrite bcast1_single_l. simpl.
  rewrite IH by lia. reflexivity.
Qed.

Lemma bcast_rows_r (g : R -> R -> R) (sr : mat R) (r : vec R) :
  length sr = length r ->
  zip_same (bcast1 g) sr (map (fun v => [v]) r)
  = Ok (zip_with (fun s d => map (fun v => g v d) s) sr r).
Proof.
  revert r. induction sr as [|s sr IH]; intros [|d r] Hlen; simpl in Hlen;
    try discriminate; [reflexivity|].
  cbn [map zip_same zip_with]. rewrite bcast1_single_r. simpl.
  rewrite IH by lia. reflexivity.
Qed.

Lemma ew3_bcast_l (g : R -> R -> R) (a : mat R) (u : cube R) :
  same_shape a u ->
  ew3_bcast g (unsqueeze2 a) u
  = Ok (zip_with (zip_with (fun d s => map (g d) s)) a u).
Proof.
  unfold ew3_bcast, unsqueeze2.
  induction 1 as [|r ur a u Hlen _ IH]; simpl; [reflexivity|].
  rewrite (bcast_rows_l g r ur Hlen). simpl. rewrite IH. reflexivity.
Qed.

Lemma ew3_bcast_r (g : R -> R -> R) (u : cube R) (a : mat R) :
  same_shape u a ->
  ew3_bcast g u (unsqueeze2 a)
  = Ok (zip_with (zip_with (fun s d => map (fun v => g v d) s)) u a).
Proof.
  unfold ew3_bcast, unsqueeze2.
  induction 1 as [|ur r u a Hlen _ IH]; simpl; [reflexivity|].
  rewrite (bcast_rows_r g ur r Hlen). simpl. rewrite IH. reflexivity.
Qed.

Lemma reshape_replicate_lengths {A : Type} (l : list A) (b k : nat) :
  length l = (b * k)%nat ->
  Forall (fun c => length c = k) (reshape (replicate b k) l).
Proof.
  revert l. induction b as [|b IH]; intros l Hlen; simpl; constructor.
  - rewrite length_take. lia.
  - apply IH. rewrite length_drop. lia.
Qed.

Lemma rand_cube_shape (g : nat -> R) (b l n : nat) :
  length (rand_cube g b l n) = b /\
  Forall (fun mtx => length mtx = l) (rand_cube g b l n).
Proof.
  unfold rand_cube. split.
  - rewrite length_reshape, length_replicate. reflexivity.
  - apply reshape_replicate_lengths.
    rewrite length_reshape, length_replicate. reflexivity.
Qed.

Lemma Forall_Forall2 {A B : Type} (P : A -> Prop) (Q : B -> Prop)
    (T : A -> B -> Prop) (a : list A) (b : list B) :
  length a = length b -> Forall P a -> Forall Q b ->
  (forall x y, P x -> Q y -> T x y) -> Forall2 T a b.
Proof.
  intros Hlen Ha. revert b Hlen. induction Ha as [|x a Hx _ IH];
    intros [|y b] Hlen Hb HT; simpl in Hlen; try discriminate; constructor.
  - inversion Hb; subst. auto.
  - inversion Hb; subst. apply IH; auto.
Qed.

Lemma diff_time_rows (t m : mat R) :
  same_shape m t ->
  Forall2 (fun d r => length d = (length r - 1)%nat) (diff_time_of t m) t.
Proof.
  unfold diff_time_of, tail2, init2.
  induction 1 as [|mr r m t Hlen _ IH]; simpl; constructor; [|exact IH].
  rewrite !length_zip_with, !length_drop, length_take. lia.
Qed.

Lemma diff_time_rectangular (t m : mat R) :
  same_shape m t -> rectangular t -> rectangular (diff_time_of t m).
Proof.
  intros Hs Hrect. pose proof (diff_time_rows t m Hs) as Hrows.
  unfold rectangular in *.
  destruct Hrows as [|d r dt t' Hd Hrest]; simpl; constructor.
  - reflexivity.
  - simpl in Hrect. inversion Hrect as [|? ? _ Hrect']; subst.
    clear -Hd Hrest Hrect'.
    induction Hrest as [|d' r' dt t' Hd' _ IH]; constructor.
    + inversion Hrect'; subst. lia.
    + inversion Hrect'; subst. apply IH. assumption.
Qed.

Lemma rand_cube_same_shape (g : nat -> R) (dt : mat R) (n : nat) :
  rectangular dt ->
  same_shape dt (rand_cube g (length dt) (cols dt) n).
Proof.
  intros Hrect. destruct (rand_cube_shape g (length dt) (cols dt) n) as [Hlen Hrows].
  eapply Forall_Forall2; [symmetry; exact Hlen | exact Hrect | exact Hrows |].
  intros r ur Hr Hur. simpl in *. congruence.
Qed.

Lemma ew3_ok {A B C : Type} (g : A -> B -> C) (a : cube A) (b : cube B) :
  same_shape3 a b -> ew3 g a b = Ok (zip_with (zip_with (zip_with g)) a b).
Proof.
  intros Hs. apply zip_same_zip_with.
  induction Hs; constructor; auto using ew2_ok.
Qed.

Lemma same_shape3_tail {A B : Type} (a : cube A) (b : cube B) :
  same_shape3 a b -> same_shape3 (map (drop 1) a) (map (drop 1) b).
Proof.
  induction 1 as [|x y a b Hxy _ IH]; simpl; constructor; [|exact IH].
  destruct Hxy; simpl; [constructor | assumption].
Qed.

Lemma same_shape3_outer {A B : Type} (a : cube A) (b : cube B) :
  same_shape3 a b -> same_shape a b.
Proof.
  induction 1 as [|x y a b Hxy _ IH]; constructor; [|exact IH].
  eapply Forall2_length, Hxy.
Qed.

Lemma diff_time_shape (t m : mat R) :
  same_shape m t -> same_shape (diff_time_of t m) (tail2 t).
Proof.
  intros Hs. unfold diff_time_of.
  assert (same_shape (tail2 t) (tail2 m)) by auto using same_shape_sym with shape.
  auto 6 with shape.
Qed.

Lemma sample_times_shape (t m : mat R) (u : cube R) :
  same_shape m t -> same_shape (diff_time_of t m) u ->
  same_shape (sample_times t m u) (diff_time_of t m).
Proof.
  intros Hs Hu. pose proof (diff_time_shape t m Hs) as Hd.
  assert (Hi : same_shape (diff_time_of t m) (init2 t)).
  { eapply same_shape_trans; [exact Hd | apply same_shape_tail_init]. }
  unfold sample_times.
  apply same_shape_zip_with; [|apply same_shape_zip_with; auto with shape].
  apply same_shape_zip_with; auto with shape.
Qed.

Lemma masked_hidden_shape (hid tm : cube R) (t m : mat R) :
  same_shape3 hid tm -> same_shape hid t -> same_shape m t ->
  same_shape (masked_hidden hid tm) (diff_time_of t m).
Proof.
  intros H3 Ht Hs. pose proof (diff_time_shape t m Hs) as Hd.
  unfold masked_hidden. apply same_shape_map_l.
  apply (same_shape_zip_with (zip_with Rmult) (tail2 hid) (tail2 tm)).
  - apply same_shape_tail2, same_shape3_outer, H3.
  - eapply same_shape_trans; [apply same_shape_tail2, Ht|].
    apply same_shape_sym, Hd.
Qed.

Lemma softplus_arg_shape (model : Model) (hid tm : cube R) (t m : mat R) (u : cube R) :
  same_shape3 hid tm -> same_shape hid t -> same_shape m t ->
  same_shape (diff_time_of t m) u ->
  same_shape (softplus_arg model hid tm t m u) (diff_time_of t m).
Proof.
  intros H3 Ht Hs Hu.
  pose proof (masked_hidden_shape hid tm t m H3 Ht Hs) as Hh.
  pose proof (sample_times_shape t m u Hs Hu) as Hst.
  unfold softplus_arg. apply same_shape_zip_with; [|exact Hh].
  apply same_shape_map_r. eapply same_shape_trans; [exact Hh|].
  apply same_shape_sym, Hst.
Qed.

Lemma unbiased_integral_shape (model : Model) (hid tm : cube R) (t m : mat R)
    (u : cube R) :
  same_shape3 hid tm -> same_shape hid t -> same_shape m t ->
  same_shape (diff_time_of t m) u ->
  same_shape (unbiased_integral_of model hid tm t m u) (diff_time_of t m).
Proof.
  intros H3 Ht Hs Hu.
  pose proof (softplus_arg_shape model hid tm t m u H3 Ht Hs Hu) as Ha.
  unfold unbiased_integral_of, sum_last3.
  apply same_shape_zip_with; [|]; repeat apply same_shape_map_l; exact Ha.
Qed.

Lemma scaled_shape (g : R -> vec R -> vec R) (f : R -> R) (t m : mat R) (u : cube R) :
  same_shape m t -> same_shape (diff_time_of t m) u ->
  same_shape (zip_with (zip_with g) (diff_time_of t m) u)
    (map (map f) (init2 t)).
Proof.
  intros Hs Hu. apply same_shape_zip_with; [exact Hu|].
  apply same_shape_map_r.
  eapply same_shape_trans; [apply diff_time_shape, Hs | apply same_shape_tail_init].
Qed.

Lemma lookup_snoc2_new (h : list tensor) (a b : tensor) :
  (h ++ [a; b]) !! S (length h) = Some b.
Proof.
  rewrite lookup_app_r by lia.
  replace (S (length h) - length h)%nat with 1%nat by lia. reflexivity.
Qed.

Lemma temp_hid_unsqueeze (p : cube R) :
  map (map (fun r => [sum_list r])) p = unsqueeze2 (map (map sum_list) p).
Proof.
  unfold unsqueeze2. rewrite map_map. apply map_ext. intros r.
  rewrite map_map. reflexivity.
Qed.

(** The first part of [compute_integral_unbiased], up to and including
    [temp_time /= ...]. *)
Ltac unbiased_sampling w t m Ht Htn Hm Hmn Hs Hrect :=
  unfold compute_integral_unbiased;
  rewrite (bind_ok _ _ _ _ _ (loadN2_ok _ _ _ _ Ht Htn));
  (erewrite bind_ok; [|apply lift_ok, ew2_ok; auto with shape]);
  rewrite (bind_ok _ _ _ _ _ (loadN2_ok _ _ _ _ Hm Hmn));
  (erewrite bind_ok;
     [|apply lift_ok, ew2_ok, same_shape_zip_with;
       [auto with shape | apply same_shape_tail2, same_shape_sym, Hs]]);
  (erewrite bind_ok; [|unfold rand3, draw; reflexivity]);
  change (zip_with (zip_with Rmult) (zip_with (zip_with Rminus) (tail2 t) (init2 t))
            (tail2 m)) with (diff_time_of t m);
  fold (rand_cube (rng w) (length (diff_time_of t m)) (cols (diff_time_of t m))
          num_samples);
  pose proof (rand_cube_same_shape (rng w) (diff_time_of t m) num_samples
                (diff_time_rectangular t m Hs Hrect)) as Hu;
  (erewrite bind_ok; [|apply lift_ok, ew3_bcast_l, Hu]);
  rewrite (bind_ok _ _ _ _ _ (alloc_ok _ _));
  (erewrite bind_ok;
     [|eapply loadN2_ok; [simpl; apply lookup_snoc_old, Ht | exact Htn]]);
  (erewrite bind_ok; [|apply loadF3_ok; simpl; apply lookup_snoc_new]);
  (erewrite bind_ok; [|apply lift_ok, ew3_bcast_r, scaled_shape; [exact Hs | exact Hu]]);
  rewrite (bind_ok _ _ _ _ _ (store_ok _ _ _));
  cbn [heap rng]; rewrite insert_snoc_new;
  fold (sample_times t m
          (rand_cube (rng w) (length (diff_time_of t m)) (cols (diff_time_of t m))
             num_samples));
  fold (after_sampling w t m).

Lemma compute_integral_unbiased_run (model : Model) (process_idx : nat)
    (w : world) (data time non_pad_mask type_mask : loc)
    (tt mt : tensor) (t m : mat R) (d tm hid : cube R)
    (lin : cube R -> result (cube R)) :
  heap w !! time = Some tt -> as_N2 tt = Ok t ->
  heap w !! non_pad_mask = Some mt -> as_N2 mt = Ok m ->
  heap w !! data = Some (F3 d) ->
  heap w !! type_mask = Some (F3 tm) ->
  same_shape m t -> rectangular t ->
  linear_list model !! process_idx = Some lin ->
  lin d = Ok hid ->
  same_shape3 hid tm -> same_shape hid t ->
  let dt := diff_time_of t m in
  let u := rand_cube (rng w) (length dt) (cols dt) num_samples in
  let arg := softplus_arg model hid tm t m u in
  compute_integral_unbiased model process_idx data time non_pad_mask type_mask w =
    (mkWorld
       (heap w ++
        [F3 (sample_times t m u); F3 arg;
         F3 (map (map (map (fun v => clamp20 (Rabs (beta model) * v)))) arg);
         F3 (map (map (map (softplus_value (Rabs (beta model))))) arg);
         F2 (unbiased_integral_of model hid tm t m u)])
       (fun k => rng w (length dt * cols dt * num_samples + k)%nat),
     Ok (length (heap w) + 4)%nat).
Proof.
  intros Ht Htn Hm Hmn Hd Htm Hs Hrect Hlin Hhid H3 Hht dt u arg.
  unbiased_sampling w t m Ht Htn Hm Hmn Hs Hrect.
  erewrite bind_ok; [|apply lift_ok; rewrite Hlin; reflexivity].
  erewrite bind_ok; [|apply loadF3_ok; simpl; apply lookup_snoc_old, Hd].
  erewrite bind_ok; [|apply lift_ok, Hhid].
  erewrite bind_ok; [|apply loadF3_ok; simpl; apply lookup_snoc_old, Htm].
  erewrite bind_ok; [|apply lift_ok, ew3_ok, same_shape3_tail, H3].
  erewrite bind_ok; [|apply loadF3_ok; simpl; apply lookup_snoc_new].
  rewrite temp_hid_unsqueeze. fold (masked_hidden hid tm).
  pose proof (masked_hidden_shape hid tm t m H3 Hht Hs) as Hh.
  pose proof (sample_times_shape t m _ Hs Hu) as Hst.
  erewrite bind_ok;
    [|apply lift_ok, ew3_bcast_l, same_shape_map_r;
      eapply same_shape_trans; [exact Hh | apply same_shape_sym, Hst]].
  fold (softplus_arg model hid tm t m u). fold arg.
  rewrite (bind_ok _ _ _ _ _ (alloc_ok _ _)).
  erewrite bind_ok; [|apply softplus_run; simpl; apply lookup_snoc_new].
  cbn [heap rng pointwise].
  erewrite bind_ok; [|apply loadF3_ok; cbn [heap]; apply lookup_snoc2_new].
  erewrite bind_ok;
    [|apply lift_ok, ew2_ok; unfold sum_last3; repeat apply same_shape_map_l;
      apply (softplus_arg_shape model hid tm t m _ H3 Hht Hs Hu)].
  rewrite alloc_ok. cbn [heap rng]. unfold after_sampling. cbn [heap rng].
  rewrite !length_app, <- !app_assoc. cbn [length app].
  f_equal. f_equal. lia.
Qed.

Lemma diff_time_entry (t m : mat R) (i j : nat) (d : R) :
  at2 (diff_time_of t m) i j = Some d ->
  exists t0 t1 k,
    at2 t i j = Some t0 /\ at2 t i (S j) = Some t1 /\ at2 m i (S j) = Some k /\
    d = (t1 - t0) * k.
Proof.
  unfold diff_time_of. intros Hd.
  apply at2_zip_with_inv in Hd as (gap & k & Hgap & Hk & ->).
  apply at2_zip_with_inv in Hgap as (t1 & t0 & Ht1 & Ht0 & ->).
  rewrite at2_tail2 in Ht1, Hk. apply at2_init2_inv in Ht0.
  exists t0, t1, k. auto.
Qed.

Lemma sample_times_entry (t m : mat R) (u : cube R) (i j : nat) (s : vec R) :
  at2 (sample_times t m u) i j = Some s ->
  exists d t0 us,
    at2 (diff_time_of t m) i j = Some d /\ at2 t i j = Some t0 /\
    at2 u i j = Some us /\ s = map (fun v => d * v / (t0 + 1)) us.
Proof.
  unfold sample_times. intros Hs.
  apply at2_zip_with_inv in Hs as (s1 & tp & Hs1 & Htp & ->).
  apply at2_zip_with_inv in Hs1 as (d & us & Hd & Hus & ->).
  apply at2_map_inv in Htp as (t0 & Ht0 & ->). apply at2_init2_inv in Ht0.
  exists d, t0, us. rewrite map_map. auto.
Qed.

(** One entry of the result: the Monte Carlo estimate of its interval. *)
Lemma unbiased_entry (model : Model) (hid tm : cube R) (t m : mat R) (u : cube R)
    (i j : nat) (r : R) :
  at2 (unbiased_integral_of model hid tm t m u) i j = Some r ->
  exists t0 t1 k h us,
    at2 t i j = Some t0 /\ at2 t i (S j) = Some t1 /\ at2 m i (S j) = Some k /\
    at2 (masked_hidden hid tm) i j = Some h /\ at2 u i j = Some us /\
    r = mc_estimate model h (map (fun v => (t1 - t0) * k * v / (t0 + 1)) us)
          ((t1 - t0) * k).
Proof.
  unfold unbiased_integral_of, sum_last3, softplus_arg. intros Hr.
  apply at2_zip_with_inv in Hr as (a & d & Ha & Hd & ->).
  apply at2_map_inv in Ha as (x & Hx & ->).
  apply at2_map_inv in Hx as (row & Hrow & ->).
  apply at2_map_inv in Hrow as (arow & Harow & ->).
  apply at2_zip_with_inv in Harow as (h & s' & Hh & Hs' & ->).
  apply at2_map_inv in Hs' as (s & Hs & ->).
  apply sample_times_entry in Hs as (d' & t0 & us & Hd' & Ht0 & Hus & ->).
  assert (d' = d) as -> by congruence.
  apply diff_time_entry in Hd as (t0' & t1 & k & Ht0' & Ht1 & Hk & ->).
  assert (t0' = t0) as -> by congruence.
  exists t0, t1, k, h, us. repeat (split; [assumption|]).
  unfold mc_estimate. rewrite !map_map. reflexivity.
Qed.

Lemma reshape_Forall {A : Type} (P : A -> Prop) (ks : list nat) (l : list A) :
  Forall P l -> Forall (Forall P) (reshape ks l).
Proof.
  revert l. induction ks as [|k ks IH]; intros l Hl; simpl; constructor.
  - apply Forall_take, Hl.
  - apply IH, Forall_drop, Hl.
Qed.

Lemma rand_cube_samples (g : nat -> R) (b l n i j : nat) (us : vec R) :
  at2 (rand_cube g b l n) i j = Some us -> length us = n.
Proof.
  unfold at2, rand_cube. intros H.
  destruct (reshape (replicate b l) _ !! i) as [mtx|] eqn:Hm; [|discriminate].
  simpl in H.
  pose proof (reshape_Forall (fun c => length c = n) (replicate b l) _
                (reshape_replicate_lengths (map g (seq 0 (b * l * n))) (b * l) n
                   ltac:(rewrite length_map, length_seq; reflexivity))) as Hall.
  pose proof (Forall_lookup_1 _ _ _ _ Hall Hm) as Hmtx.
  apply (Forall_lookup_1 _ _ _ _ Hmtx H).
Qed.

Lemma diff_time_length (t m : mat R) :
  same_shape m t -> length (diff_time_of t m) = length t.
Proof. intros Hs. eapply Forall2_length, diff_time_rows, Hs. Qed.

Lemma diff_time_cols (t m : mat R) :
  same_shape m t -> cols (diff_time_of t m) = (cols t - 1)%nat.
Proof.
  intros Hs. destruct (diff_time_rows t m Hs); simpl; [reflexivity | assumption].
Qed.

Lemma lookup_snoc5_new (h : list tensor) (a b c d e : tensor) :
  (h ++ [a; b; c; d; e]) !! (length h + 4)%nat = Some e.
Proof.
  rewrite lookup_app_r by lia.
  replace (length h + 4 - length h)%nat with 4%nat by lia. reflexivity.
Qed.



(** X12: when [beta] is not 0 and no time is -1, every entry of the result
    of [compute_integral_unbiased] is the
    Monte Carlo estimate of its interval: with [d] the gap to the next time
    multiplied by the mask of the later position, and [u] the 100 random
    numbers of the interval, the mean over [u] of
    [softplus(h + alpha * d * u / (t0 + 1), |beta|)], multiplied by [d]; the
    result has one entry per interval. *)
Theorem compute_integral_unbiased_estimate (model : Model) (process_idx : nat)
    (w : world) (data time non_pad_mask type_mask : loc)
    (tt mt : tensor) (t m : mat R) (d tm hid : cube R)
    (lin : cube R -> result (cube R)) :
  heap w !! time = Some tt -> as_N2 tt = Ok t ->
  heap w !! non_pad_mask = Some mt -> as_N2 mt = Ok m ->
  heap w !! data = Some (F3 d) ->
  heap w !! type_mask = Some (F3 tm) ->
  same_shape m t -> rectangular t ->
  linear_list model !! process_idx = Some lin ->
  lin d = Ok hid ->
  same_shape3 hid tm -> same_shape hid t ->
  beta model <> 0 ->
  (forall i j t0, at2 t i j = Some t0 -> t0 <> -1) ->
  exists w' r out,
    compute_integral_unbiased model process_idx data time non_pad_mask type_mask w
    = (w', Ok r) /\
    heap w' !! r = Some (F2 out) /\
    same_shape out (tail2 t) /\
    forall i j v, at2 out i j = Some v ->
      exists t0 t1 k h us,
        at2 t i j = Some t0 /\ at2 t i (S j) = Some t1 /\
        at2 m i (S j) = Some k /\
        at2 (masked_hidden hid tm) i j = Some h /\
        at2 (rand_cube (rng w) (length t) (cols t - 1) num_samples) i j = Some us /\
        length us = num_samples /\
        v = mc_estimate model h
              (map (fun u => (t1 - t0) * k * u / (t0 + 1)) us) ((t1 - t0) * k).
Proof.
  intros Ht Htn Hm Hmn Hd Htm Hs Hrect Hlin Hhid H3 Hht _ _.
  pose proof (compute_integral_unbiased_run model process_idx w data time
                non_pad_mask type_mask tt mt t m d tm hid lin
                Ht Htn Hm Hmn Hd Htm Hs Hrect Hlin Hhid H3 Hht) as Hrun.
  cbv zeta in Hrun. rewrite Hrun. clear Hrun.
  pose proof (rand_cube_same_shape (rng w) (diff_time_of t m) num_samples
                (diff_time_rectangular t m Hs Hrect)) as Hu.
  eexists _, _, _. split; [reflexivity|]. cbn [heap].
  split; [apply lookup_snoc5_new|].
  split.
  { eapply same_shape_trans;
      [apply (unbiased_integral_shape model hid tm t m _ H3 Hht Hs Hu)
      |apply diff_time_shape, Hs]. }
  intros i j v Hv.
  apply unbiased_entry in Hv as (t0 & t1 & k & h & us & H0 & H1 & Hk & Hh & Hus & ->).
  rewrite (diff_time_length t m Hs), (diff_time_cols t m Hs) in Hus.
  exists t0, t1, k, h, us. repeat (split; [assumption|]).
  split; [eapply rand_cube_samples, Hus | reflexivity].
Qed.

Lemma compute_integral_unbiased_estimate_witness :
  exists w' r out,
    compute_integral_unbiased toy_model 0 0%nat 1%nat 2%nat 3%nat toy_world
    = (w', Ok r) /\
    heap w' !! r = Some (F2 out) /\
    same_shape out (tail2 [[0; 1; 1]]) /\
    forall i j v, at2 out i j = Some v ->
      exists t0 t1 k h us,
        at2 [[0; 1; 1]] i j = Some t0 /\ at2 [[0; 1; 1]] i (S j) = Some t1 /\
        at2 [[1; 1; 0]] i (S j) = Some k /\
        at2 (masked_hidden [[[1 + (2 + 0); 1]; [3 + (4 + 0); 1]; [0 + (0 + 0); 1]]]
               [[[1; 0]; [0; 1]; [0; 0]]]) i j = Some h /\
        at2 (rand_cube (fun _ => 0.5) 1 2 num_samples) i j = Some us /\
        length us = num_samples /\
        v = mc_estimate toy_model h
              (map (fun u => (t1 - t0) * k * u / (t0 + 1)) us) ((t1 - t0) * k).
Proof.
  apply (compute_integral_unbiased_estimate toy_model 0 toy_world
           0%nat 1%nat 2%nat 3%nat (F2 [[0; 1; 1]]) (F2 [[1; 1; 0]])
           [[0; 1; 1]] [[1; 1; 0]] [[[1; 2]; [3; 4]; [0; 0]]]
           [[[1; 0]; [0; 1]; [0; 0]]]
           [[[1 + (2 + 0); 1]; [3 + (4 + 0); 1]; [0 + (0 + 0); 1]]]
           (fun d => Ok (map (map (fun r => [sum_list r; 1])) d))
           eq_refl eq_refl eq_refl eq_refl eq_refl eq_refl).
  - repeat constructor.
  - repeat constructor.
  - reflexivity.
  - reflexivity.
  - repeat constructor.
  - repeat constructor.
  - simpl. lra.
  - intros [|[|i]] [|[|[|[|j]]]] t0; unfold at2; simpl; intros [= <-]; lra.
Defined.

(** X13: when [beta] is not 0 and no time is -1,
    [compute_integral_unbiased] returns 0 for every interval whose later
    position is padding (mask 0), whatever the hidden values, the gap and
    the random numbers are. *)
Theorem compute_integral_unbiased_padding_zero (model : Model) (process_idx : nat)
    (w : world) (data time non_pad_mask type_mask : loc)
    (tt mt : tensor) (t m : mat R) (d tm hid : cube R)
    (lin : cube R -> result (cube R)) (i j : nat) :
  heap w !! time = Some tt -> as_N2 tt = Ok t ->
  heap w !! non_pad_mask = Some mt -> as_N2 mt = Ok m ->
  heap w !! data = Some (F3 d) ->
  heap w !! type_mask = Some (F3 tm) ->
  same_shape m t -> rectangular t ->
  linear_list model !! process_idx = Some lin ->
  lin d = Ok hid ->
  same_shape3 hid tm -> same_shape hid t ->
  beta model <> 0 ->
  (forall i j t0, at2 t i j = Some t0 -> t0 <> -1) ->
  at2 m i (S j) = Some 0 ->
  exists w' r out,
    compute_integral_unbiased model process_idx data time non_pad_mask type_mask w
    = (w', Ok r) /\
    heap w' !! r = Some (F2 out) /\
    at2 out i j = Some 0.
Proof.
  intros Ht Htn Hm Hmn Hd Htm Hs Hrect Hlin Hhid H3 Hht _ _ Hpad.
  pose proof (compute_integral_unbiased_run model process_idx w data time
                non_pad_mask type_mask tt mt t m d tm hid lin
                Ht Htn Hm Hmn Hd Htm Hs Hrect Hlin Hhid H3 Hht) as Hrun.
  cbv zeta in Hrun. rewrite Hrun. clear Hrun.
  pose proof (rand_cube_same_shape (rng w) (diff_time_of t m) num_samples
                (diff_time_rectangular t m Hs Hrect)) as Hu.
  eexists _, _, _. split; [reflexivity|]. cbn [heap].
  split; [apply lookup_snoc5_new|].
  assert (Hex : exists v, at2 (unbiased_integral_of model hid tm t m
                    (rand_cube (rng w) (length (diff_time_of t m))
                       (cols (diff_time_of t m)) num_samples)) i j = Some v).
  { rewrite <- at2_tail2 in Hpad.
    eapply same_shape_at2; [|exact Hpad].
    eapply same_shape_trans;
      [apply (unbiased_integral_shape model hid tm t m _ H3 Hht Hs Hu)|].
    eapply same_shape_trans; [apply diff_time_shape, Hs|].
    apply same_shape_tail2, same_shape_sym, Hs. }
  destruct Hex as [v Hv]. rewrite Hv. f_equal.
  apply unbiased_entry in Hv as (t0 & t1 & k & h & us & _ & _ & Hk & _ & _ & ->).
  assert (k = 0) as -> by congruence.
  unfold mc_estimate. ring.
Qed.

Lemma compute_integral_unbiased_padding_zero_witness :
  exists w' r out,
    compute_integral_unbiased toy_model 0 0%nat 1%nat 2%nat 3%nat toy_world
    = (w', Ok r) /\
    heap w' !! r = Some (F2 out) /\
    at2 out 0 1 = Some 0.
Proof.
  apply (compute_integral_unbiased_padding_zero toy_model 0 toy_world
           0%nat 1%nat 2%nat 3%nat (F2 [[0; 1; 1]]) (F2 [[1; 1; 0]])
           [[0; 1; 1]] [[1; 1; 0]] [[[1; 2]; [3; 4]; [0; 0]]]
           [[[1; 0]; [0; 1]; [0; 0]]]
           [[[1 + (2 + 0); 1]; [3 + (4 + 0); 1]; [0 + (0 + 0); 1]]]
           (fun d => Ok (map (map (fun r => [sum_list r; 1])) d)) 0%nat 1%nat
           eq_refl eq_refl eq_refl eq_refl eq_refl eq_refl).
  - repeat constructor.
  - repeat constructor.
  - reflexivity.
  - reflexivity.
  - repeat constructor.
  - repeat constructor.
  - simpl. lra.
  - intros [|[|i]] [|[|[|[|j]]]] t0; unfold at2; simpl; intros [= <-]; lra.
  - reflexivity.
Defined.

(** X14: a call of [compute_integral_unbiased] that returns takes exactly
    [B * (L - 1) * 100] numbers from the random generator, for times of
    shape [(B, L)], whatever the mask holds. *)
Theorem compute_integral_unbiased_draws (model : Model) (process_idx : nat)
    (w : world) (data time non_pad_mask type_mask : loc)
    (tt mt : tensor) (t m : mat R) (d tm hid : cube R)
    (lin : cube R -> result (cube R)) :
  heap w !! time = Some tt -> as_N2 tt = Ok t ->
  heap w !! non_pad_mask = Some mt -> as_N2 mt = Ok m ->
  heap w !! data = Some (F3 d) ->
  heap w !! type_mask = Some (F3 tm) ->
  same_shape m t -> rectangular t ->
  linear_list model !! process_idx = Some lin ->
  lin d = Ok hid ->
  same_shape3 hid tm -> same_shape hid t ->
  exists w' r,
    compute_integral_unbiased model process_idx data time non_pad_mask type_mask w
    = (w', Ok r) /\
    (forall k, rng w' k = rng w (length t * (cols t - 1) * 100 + k)%nat).
Proof.
  intros Ht Htn Hm Hmn Hd Htm Hs Hrect Hlin Hhid H3 Hht.
  pose proof (compute_integral_unbiased_run model process_idx w data time
                non_pad_mask type_mask tt mt t m d tm hid lin
                Ht Htn Hm Hmn Hd Htm Hs Hrect Hlin Hhid H3 Hht) as Hrun.
  cbv zeta in Hrun. rewrite Hrun. clear Hrun.
  eexists _, _. split; [reflexivity|]. cbn [heap rng].
  intros k. rewrite (diff_time_length t m Hs), (diff_time_cols t m Hs).
  reflexivity.
Qed.

Lemma compute_integral_unbiased_draws_witness :
  exists w' r,
    compute_integral_unbiased toy_model 0 0%nat 1%nat 2%nat 3%nat toy_world
    = (w', Ok r) /\
    (forall k, rng w' k = rng toy_world (1 * (3 - 1) * 100 + k)%nat).
Proof.
  apply (compute_integral_unbiased_draws toy_model 0 toy_world
           0%nat 1%nat 2%nat 3%nat (F2 [[0; 1; 1]]) (F2 [[1; 1; 0]])
           [[0; 1; 1]] [[1; 1; 0]] [[[1; 2]; [3; 4]; [0; 0]]]
           [[[1; 0]; [0; 1]; [0; 0]]]
           [[[1 + (2 + 0); 1]; [3 + (4 + 0); 1]; [0 + (0 + 0); 1]]]
           (fun d => Ok (map (map (fun r => [sum_list r; 1])) d))
           eq_refl eq_refl eq_refl eq_refl eq_refl eq_refl).
  - repeat constructor.
  - repeat constructor.
  - reflexivity.
  - reflexivity.
  - repeat constructor.
  - repeat constructor.
Defined.

(** X15: with a process index that names no linear layer,
    [compute_integral_unbiased] fails with an [IndexError], but only after
    the sampling: the generator has handed out its [B * (L - 1) * 100]
    numbers, and every tensor of the caller is unchanged. *)
Theorem compute_integral_unbiased_bad_index (model : Model) (process_idx : nat)
    (w : world) (data time non_pad_mask type_mask : loc)
    (tt mt : tensor) (t m : mat R) :
  heap w !! time = Some tt -> as_N2 tt = Ok t ->
  heap w !! non_pad_mask = Some mt -> as_N2 mt = Ok m ->
  same_shape m t -> rectangular t ->
  linear_list model !! process_idx = None ->
  exists w',
    compute_integral_unbiased model process_idx data time non_pad_mask type_mask w
    = (w', Raise IndexError) /\
    (forall k, rng w' k = rng w (length t * (cols t - 1) * 100 + k)%nat) /\
    (forall l x, heap w !! l = Some x -> heap w' !! l = Some x).
Proof.
  intros Ht Htn Hm Hmn Hs Hrect Hlin.
  unbiased_sampling w t m Ht Htn Hm Hmn Hs Hrect.
  erewrite bind_raise; [|unfold lift; rewrite Hlin; reflexivity].
  eexists. split; [reflexivity|]. unfold after_sampling. cbn [heap rng].
  split.
  - intros k. rewrite (diff_time_length t m Hs), (diff_time_cols t m Hs).
    reflexivity.
  - intros l x Hl. apply lookup_snoc_old, Hl.
Qed.

Lemma compute_integral_unbiased_bad_index_witness :
  exists w',
    compute_integral_unbiased toy_model 1 0%nat 1%nat 2%nat 3%nat toy_world
    = (w', Raise IndexError) /\
    (forall k, rng w' k = rng toy_world (1 * (3 - 1) * 100 + k)%nat) /\
    (forall l x, heap toy_world !! l = Some x -> heap w' !! l = Some x).
Proof.
  apply (compute_integral_unbiased_bad_index toy_model 1 toy_world
           0%nat 1%nat 2%nat 3%nat (F2 [[0; 1; 1]]) (F2 [[1; 1; 0]])
           [[0; 1; 1]] [[1; 1; 0]] eq_refl eq_refl eq_refl eq_refl).
  - repeat constructor.
  - repeat constructor.
  - reflexivity.
Defined.



(** ** log_likelihood *)

Lemma squeeze_non_pad_mask (ty : mat Z) :
  squeeze_last (F3 (get_non_pad_mask ty)) = F2 (pad_mask ty).
Proof.
  unfold squeeze_last, get_non_pad_mask, pad_mask.
  assert (Hs : forallb (forallb singleton)
                 (map (map (fun z : Z => [if (z =? 0)%Z then 0 else 1])) ty) = true).
  { induction ty as [|r ty IH]; simpl; [reflexivity|].
    rewrite IH, andb_true_r. induction r as [|z r IHr]; simpl; auto. }
  rewrite Hs. f_equal. rewrite map_map. apply map_ext. intros r.
  rewrite map_map. reflexivity.
Qed.

Lemma lookup_map_seq {A : Type} (f : nat -> A) (n c : nat) :
  map f (seq 0 n) !! c = if (c <? n)%nat then Some (f c) else None.
Proof.
  rewrite lookup_map. destruct (Nat.ltb_spec c n) as [Hlt|Hge].
  - rewrite lookup_seq_lt by exact Hlt. reflexivity.
  - rewrite lookup_seq_ge by exact Hge. reflexivity.
Qed.

Lemma type_row_0 (nt : nat) (z : Z) : type_row nt 0 z = replicate nt 0.
Proof.
  unfold type_row.
  assert (H : forall s,
             map (fun c => if (c <? 0)%nat && (z =? Z.of_nat (c + 1))%Z then 1 else 0)
               (seq s nt) = replicate nt 0).
  { induction nt as [|nt IH]; intros s; simpl; [reflexivity|].
    f_equal. apply IH. }
  apply H.
Qed.

Lemma type_row_step (nt i : nat) (z : Z) :
  <[i := if (z =? Z.of_nat (i + 1))%Z then 1 else 0]> (type_row nt i z)
  = type_row nt (S i) z.
Proof.
  apply list_eq. intros c. unfold type_row.
  destruct (decide (c = i)) as [->|Hne].
  - destruct (Nat.ltb_spec i nt) as [Hlt|Hge].
    + rewrite list_lookup_insert_eq by (rewrite length_map, length_seq; exact Hlt).
      rewrite lookup_map_seq.
      destruct (Nat.ltb_spec i nt); [|lia].
      destruct (Nat.ltb_spec i (S i)); [|lia]. reflexivity.
    + rewrite list_insert_ge by (rewrite length_map, length_seq; exact Hge).
      rewrite !lookup_map_seq. destruct (Nat.ltb_spec i nt); [lia|]. reflexivity.
  - rewrite list_lookup_insert_ne by congruence.
    rewrite !lookup_map_seq. destruct (Nat.ltb_spec c nt); [|reflexivity].
    destruct (Nat.ltb_spec c i), (Nat.ltb_spec c (S i)); try lia; reflexivity.
Qed.

Lemma zip_with_map_self {A B C : Type} (g : B -> A -> C) (f : A -> B) (l : list A) :
  zip_with g (map f l) l = map (fun x => g (f x) x) l.
Proof. induction l as [|x l IH]; simpl; [reflexivity|]. rewrite IH. reflexivity. Qed.

Lemma same_shape_map_self {A B : Type} (f : A -> B) (m : mat A) :
  same_shape (map (map f) m) m.
Proof. apply same_shape_map_l, same_shape_refl. Qed.

(** The loop that fills [type_mask], one column per round: after the rounds
    [i, ..., i + k - 1] the columns below [i + k] are filled. *)
Lemma type_mask_loop (types type_mask : loc) (nt : nat) (ty : mat Z)
    (g : nat -> R) (k : nat) :
  types <> type_mask ->
  forall (i : nat) (h : list tensor),
  h !! types = Some (L2 ty) ->
  h !! type_mask = Some (F3 (map (map (type_row nt i)) ty)) ->
  for_range (seq i k) (fun i =>
    ty <- loadL2 types ;;
    tm <- loadF3 type_mask ;;
    tm' <- lift (zip_same
                   (zip_same (fun row z =>
                      Ok (<[i := if (z =? Z.of_nat (i + 1))%Z then 1 else 0]> row)))
                   tm ty) ;;
    store type_mask (F3 tm')) (mkWorld h g)
  = (mkWorld (<[type_mask := F3 (map (map (type_row nt (i + k))) ty)]> h) g, Ok tt).
Proof.
  intros Hne. induction k as [|k IH]; intros i h Hty Htm.
  - simpl. rewrite Nat.add_0_r, list_insert_id by exact Htm. reflexivity.
  - pose proof (lookup_lt_Some _ _ _ Htm) as Hlt.
    cbn [seq for_range].
    erewrite bind_ok.
    2:{ erewrite bind_ok; [|apply loadL2_ok; exact Hty].
        erewrite bind_ok; [|apply loadF3_ok; exact Htm].
        erewrite bind_ok;
          [|apply lift_ok;
            apply (ew2_ok (fun (row : vec R) (z : Z) =>
                     <[i := if (z =? Z.of_nat (i + 1))%Z then 1 else 0]> row));
            apply same_shape_map_self].
        apply store_ok. }
    cbn [heap rng].
    assert (Hstep :
      zip_with (zip_with (fun (row : vec R) (z : Z) =>
                  <[i := if (z =? Z.of_nat (i + 1))%Z then 1 else 0]> row))
        (map (map (type_row nt i)) ty) ty
      = map (map (type_row nt (S i))) ty).
    { rewrite zip_with_map_self. apply map_ext. intros r.
      rewrite zip_with_map_self. apply map_ext. intros z.
      apply type_row_step. }
    rewrite Hstep.
    rewrite (IH (S i)).
    + rewrite list_insert_insert_eq.
      replace (S i + k)%nat with (i + S k)%nat by lia. reflexivity.
    + rewrite list_lookup_insert_ne by congruence. exact Hty.
    + apply list_lookup_insert_eq. exact Hlt.
Qed.

Lemma length_type_row (nt i : nat) (z : Z) : length (type_row nt i z) = nt.
Proof. unfold type_row. rewrite length_map, length_seq. reflexivity. Qed.

Lemma hid_type_mask_shape (f : R -> R) (nt : nat) (hid : cube R) (ty : mat Z) :
  same_shape hid ty -> Forall (Forall (fun r => length r = nt)) hid ->
  same_shape3 (map (map (map f)) hid) (type_mask_of nt ty).
Proof.
  unfold same_shape3, type_mask_of.
  induction 1 as [|hb tb hid ty Hlen _ IH]; intros Hk; simpl; constructor.
  - inversion Hk as [|? ? Hb _]; subst. clear -Hlen Hb.
    revert tb Hlen. induction Hb as [|r hb Hr _ IHb]; intros [|z tb] Hlen;
      simpl in Hlen; try discriminate; simpl; constructor.
    + rewrite length_map, length_type_row. exact Hr.
    + apply IHb. lia.
  - apply IH. inversion Hk; assumption.
Qed.

Lemma map_id_ext {A : Type} (f : A -> A) (l : list A) :
  (forall x, f x = x) -> map f l = l.
Proof. intros Hf. induction l as [|x l IH]; simpl; [reflexivity|]. rewrite Hf, IH. reflexivity. Qed.

Lemma hid_type_mask_shape_id (nt : nat) (hid : cube R) (ty : mat Z) :
  same_shape hid ty -> Forall (Forall (fun r => length r = nt)) hid ->
  same_shape3 hid (type_mask_of nt ty).
Proof.
  intros Hs Hk. pose proof (hid_type_mask_shape (fun v => v) nt hid ty Hs Hk) as H.
  replace (map (map (map (fun v : R => v))) hid) with hid in H; [exact H|].
  symmetry. apply map_id_ext. intros m. apply map_id_ext. intros r.
  apply map_id_ext. reflexivity.
Qed.

Lemma type_lambda_shape (model : Model) (nt : nat) (hid : cube R) (ty : mat Z) :
  same_shape hid ty -> Forall (Forall (fun r => length r = nt)) hid ->
  same_shape (type_lambda_of model nt hid ty) ty.
Proof.
  intros Hs Hk. unfold type_lambda_of, sum_last3. apply same_shape_map_l.
  apply same_shape_zip_with.
  - apply same_shape3_outer, hid_type_mask_shape; assumption.
  - apply same_shape_map_l, Hs.
Qed.

Lemma lookup_app_old (h h' : list tensor) (l : loc) (x : tensor) :
  h !! l = Some x -> (h ++ h') !! l = Some x.
Proof. intros H. rewrite lookup_app_l; [exact H | eapply lookup_lt_Some; eauto]. Qed.

(** A tensor that an earlier allocation put at the end of a heap that has
    grown since. *)
Ltac heap_lookup :=
  cbn [heap];
  repeat (rewrite lookup_app_l by (rewrite ?length_app; simpl; lia));
  first [apply lookup_snoc_new | apply lookup_snoc2_new | apply lookup_snoc5_new].

Lemma log_likelihood_run (model : Model) (process_idx : nat) (w : world)
    (data time types : loc) (tt : tensor) (t : mat R) (d hid : cube R)
    (ty : mat Z) (lin : cube R -> result (cube R)) (nt : nat) :
  heap w !! types = Some (L2 ty) ->
  heap w !! data = Some (F3 d) ->
  heap w !! time = Some tt -> as_N2 tt = Ok t ->
  num_types model !! process_idx = Some nt ->
  linear_list model !! process_idx = Some lin ->
  lin d = Ok hid ->
  same_shape ty t -> rectangular t ->
  same_shape hid ty -> Forall (Forall (fun r => length r = nt)) hid ->
  exists w',
    log_likelihood model process_idx data time types w =
      (w',
       Ok (sum_last2 (event_of (type_lambda_of model nt hid ty) (pad_mask ty)),
           sum_last2
             (unbiased_integral_of model hid (type_mask_of nt ty) t (pad_mask ty)
                (rand_cube (rng w) (length t) (cols t - 1) num_samples)))) /\
    (forall k, rng w' k = rng w (length t * (cols t - 1) * 100 + k)%nat) /\
    (forall l x, heap w !! l = Some x -> heap w' !! l = Some x).
Proof.
  intros Hty Hd Ht Htn Hnt Hlin Hhid Hs Hrect Hhs Hk.
  unfold log_likelihood.
  rewrite (bind_ok _ _ _ _ _ (loadL2_ok _ _ _ Hty)).
  rewrite squeeze_non_pad_mask.
  rewrite (bind_ok _ _ _ _ _ (alloc_ok _ _)).
  erewrite bind_ok; [|apply lift_ok; rewrite Hnt; reflexivity].
  erewrite bind_ok; [|apply loadL2_ok; cbn [heap]; apply lookup_snoc_old, Hty].
  rewrite (bind_ok _ _ _ _ _ (alloc_ok _ _)).
  cbn [heap rng].
  assert (Htm0 : map (map (fun _ : Z => replicate nt 0)) ty
                 = map (map (type_row nt 0)) ty).
  { apply map_ext. intros r. apply map_ext. intros z. symmetry. apply type_row_0. }
  rewrite Htm0. clear Htm0.
  pose proof (lookup_lt_Some _ _ _ Hty) as Hlt.
  set (h1 := heap w ++ [F2 (pad_mask ty)]).
  assert (Hne : types <> length h1).
  { unfold h1. rewrite length_app. simpl. lia. }
  erewrite bind_ok;
    [|apply (type_mask_loop types (length h1) nt ty (rng w) nt Hne 0%nat);
      [unfold h1; repeat apply lookup_app_old; exact Hty | apply lookup_snoc_new]].
  rewrite insert_snoc_new. cbn [Nat.add]. fold (type_mask_of nt ty).
  erewrite bind_ok; [|apply lift_ok; rewrite Hlin; reflexivity].
  erewrite bind_ok;
    [|apply loadF3_ok; cbn [heap]; unfold h1; repeat apply lookup_app_old; exact Hd].
  erewrite bind_ok; [|apply lift_ok, Hhid].
  rewrite (bind_ok _ _ _ _ _ (alloc_ok _ _)).
  erewrite bind_ok; [|apply softplus_run; heap_lookup].
  cbn [heap rng pointwise].
  erewrite bind_ok; [|apply loadF3_ok; heap_lookup].
  erewrite bind_ok; [|apply loadF3_ok; heap_lookup].
  erewrite bind_ok;
    [|apply lift_ok, ew3_ok, hid_type_mask_shape; assumption].
  fold (type_lambda_of model nt hid ty).
  rewrite (bind_ok _ _ _ _ _ (alloc_ok _ _)).
  cbn [heap rng].
  change (sum_last3 (zip_with (zip_with (zip_with Rmult)) _ (type_mask_of nt ty)))
    with (type_lambda_of model nt hid ty).
  set (h4 := ((h1 ++ [F3 (type_mask_of nt ty)]) ++ [F3 hid]) ++ _).
  assert (Hlen4 : length h4 = (length (heap w) + 5)%nat).
  { unfold h4, h1. rewrite !length_app. simpl. lia. }
  pose proof (type_lambda_shape model nt hid ty Hhs Hk) as Hlam.
  assert (Hpm : same_shape (type_lambda_of model nt hid ty) (pad_mask ty)).
  { unfold pad_mask. apply same_shape_map_r, Hlam. }
  assert (Hmask : (h4 ++ [F2 (type_lambda_of model nt hid ty)]) !! length (heap w)
                  = Some (F2 (pad_mask ty))).
  { unfold h4, h1. repeat (rewrite lookup_app_l by (rewrite ?length_app; simpl; lia)).
    apply lookup_snoc_new. }
  pose proof (compute_event_run
                (mkWorld (h4 ++ [F2 (type_lambda_of model nt hid ty)]) (rng w))
                (length h4) (length (heap w))
                (type_lambda_of model nt hid ty) (F2 (pad_mask ty)) (pad_mask ty)
                ltac:(lia) (lookup_snoc_new _ _) Hmask eq_refl Hpm) as Hev.
  cbv zeta in Hev. cbn [heap rng] in Hev.
  rewrite (bind_ok _ _ _ _ _ Hev). clear Hev.
  rewrite insert_snoc_new.
  set (filled := zip_with (zip_with (fun v k : R => if negb (to_bool k) then 1 else v))
                   (map (map (fun v => v + tiny)) (type_lambda_of model nt hid ty))
                   (pad_mask ty)).
  set (h6 := h4 ++ [F2 filled]).
  assert (Hlen6 : length (h4 ++ [F2 (type_lambda_of model nt hid ty)]) = length h6).
  { unfold h6. rewrite !length_app. reflexivity. }
  rewrite Hlen6.
  erewrite bind_ok; [|apply loadF2_ok; cbn [heap]; apply lookup_snoc_new].
  set (w7 := mkWorld (h6 ++ [F2 (map (map ln) filled)]) (rng w)).
  assert (Hold : forall l x, heap w !! l = Some x -> heap w7 !! l = Some x).
  { intros l x Hl. unfold w7, h6, h4, h1. cbn [heap].
    repeat apply lookup_app_old. exact Hl. }
  assert (Hm7 : heap w7 !! length (heap w) = Some (F2 (pad_mask ty))).
  { unfold w7, h6, h4, h1. cbn [heap].
    repeat (rewrite lookup_app_l by (rewrite ?length_app; simpl; lia)).
    apply lookup_snoc_new. }
  assert (Htm7 : heap w7 !! length h1 = Some (F3 (type_mask_of nt ty))).
  { unfold w7, h6, h4. cbn [heap].
    repeat (rewrite lookup_app_l by (rewrite ?length_app; simpl; lia)).
    apply lookup_snoc_new. }
  assert (Hmt : same_shape (pad_mask ty) t).
  { unfold pad_mask. apply same_shape_map_l, Hs. }
  pose proof (compute_integral_unbiased_run model process_idx w7 data time
                (length (heap w)) (length h1) tt (F2 (pad_mask ty)) t (pad_mask ty)
                d (type_mask_of nt ty) hid lin
                (Hold _ _ Ht) Htn Hm7 eq_refl (Hold _ _ Hd) Htm7 Hmt Hrect Hlin Hhid
                (hid_type_mask_shape_id nt hid ty Hhs Hk)
                (same_shape_trans _ _ _ Hhs Hs)) as Hrun.
  cbv zeta in Hrun.
  rewrite (diff_time_length t _ Hmt), (diff_time_cols t _ Hmt) in Hrun.
  rewrite (bind_ok _ _ _ _ _ Hrun). clear Hrun.
  erewrite bind_ok; [|apply loadF2_ok; cbn [heap]; apply lookup_snoc5_new].
  eexists. split; [reflexivity|]. cbn [heap rng]. split.
  - intros k. reflexivity.
  - intros l x Hl. apply lookup_app_old, Hold, Hl.
Qed.

(** X17: with a process index that names no entry of [num_types],
    [log_likelihood] fails with an [IndexError] before anything is sampled:
    the random generator is where it was, and every tensor of the caller is
    unchanged. *)
Theorem log_likelihood_bad_index (model : Model) (process_idx : nat) (w : world)
    (data time types : loc) (ty : mat Z) :
  heap w !! types = Some (L2 ty) ->
  num_types model !! process_idx = None ->
  exists w',
    log_likelihood model process_idx data time types w = (w', Raise IndexError) /\
    rng w' = rng w /\
    (forall l x, heap w !! l = Some x -> heap w' !! l = Some x).
Proof.
  intros Hty Hnt. unfold log_likelihood.
  rewrite (bind_ok _ _ _ _ _ (loadL2_ok _ _ _ Hty)).
  rewrite (bind_ok _ _ _ _ _ (alloc_ok _ _)).
  erewrite bind_raise; [|unfold lift; rewrite Hnt; reflexivity].
  eexists. split; [reflexivity|]. cbn [heap rng]. split; [reflexivity|].
  intros l x Hl. apply lookup_app_old, Hl.
Qed.

Lemma log_likelihood_bad_index_witness :
  exists w',
    log_likelihood toy_model 1 0%nat 1%nat 0%nat
      (mkWorld [L2 [[1; 2; 0]]%Z] (fun _ => 0.5))
    = (w', Raise IndexError) /\
    rng w' = (fun _ => 0.5) /\
    (forall l x, [L2 [[1; 2; 0]]%Z] !! l = Some x -> heap w' !! l = Some x).
Proof.
  apply (log_likelihood_bad_index toy_model 1
           (mkWorld [L2 [[1; 2; 0]]%Z] (fun _ => 0.5)) 0%nat 1%nat 0%nat
           [[1; 2; 0]]%Z eq_refl eq_refl).
Defined.

Lemma sum_indicator (z : Z) (xs : list R) (s : nat) :
  sum_list
    (zip_with Rmult xs
       (map (fun c => if (z =? Z.of_nat (c + 1))%Z then 1 else 0)
          (seq s (length xs))))
  = if (Z.of_nat s <? z)%Z
    then match xs !! (Z.to_nat z - 1 - s)%nat with Some x => x | None => 0 end
    else 0.
Proof.
  revert s. induction xs as [|x xs IH]; intros s.
  - simpl. destruct (Z.of_nat s <? z)%Z; reflexivity.
  - cbn [length seq map zip_with sum_list fold_right]. fold (sum_list).
    change (fold_right Rplus 0) with sum_list.
    rewrite IH.
    destruct (Z.eqb_spec z (Z.of_nat (s + 1))) as [->|Hne].
    + destruct (Z.ltb_spec (Z.of_nat (S s)) (Z.of_nat (s + 1))); [lia|].
      destruct (Z.ltb_spec (Z.of_nat s) (Z.of_nat (s + 1))); [|lia].
      replace (Z.to_nat (Z.of_nat (s + 1)) - 1 - s)%nat with 0%nat by lia.
      simpl. lra.
    + destruct (Z.ltb_spec (Z.of_nat (S s)) z) as [Hlt|Hge].
      * destruct (Z.ltb_spec (Z.of_nat s) z); [|lia].
        replace (Z.to_nat z - 1 - s)%nat with (S (Z.to_nat z - 1 - S s)) by lia.
        simpl. lra.
      * destruct (Z.ltb_spec (Z.of_nat s) z); [lia|]. lra.
Qed.

Lemma type_row_full (nt : nat) (z : Z) :
  type_row nt nt z
  = map (fun c => if (z =? Z.of_nat (c + 1))%Z then 1 else 0) (seq 0 nt).
Proof.
  unfold type_row. apply map_ext_in. intros c Hc. apply in_seq in Hc.
  destruct (Nat.ltb_spec c nt); [reflexivity | lia].
Qed.

Lemma type_intensity_sum (model : Model) (nt : nat) (z : Z) (hrow : vec R) :
  length hrow = nt ->
  sum_list
    (zip_with Rmult (map (softplus_value (Rabs (beta model))) hrow)
       (type_row nt nt z))
  = type_intensity model z hrow.
Proof.
  intros Hlen. rewrite type_row_full.
  rewrite <- Hlen, <- (length_map (softplus_value (Rabs (beta model))) hrow).
  rewrite sum_indicator. unfold type_intensity.
  change (Z.of_nat 0) with 0%Z. rewrite Nat.sub_0_r, lookup_map.
  destruct (0 <? z)%Z; [|reflexivity].
  destruct (hrow !! _); reflexivity.
Qed.

Lemma to_bool_1 : to_bool 1 = true.
Proof. unfold to_bool. destruct (Req_dec_T 1 0); [lra | reflexivity]. Qed.

Lemma event_position (model : Model) (nt : nat) (z : Z) (hrow : vec R) :
  length hrow = nt ->
  ln (if negb (to_bool (if (z =? 0)%Z then 0 else 1)) then 1
      else sum_list
             (zip_with Rmult (map (softplus_value (Rabs (beta model))) hrow)
                (type_row nt nt z)) + tiny)
  = event_term model z hrow.
Proof.
  intros Hlen. unfold event_term. destruct (z =? 0)%Z.
  - rewrite to_bool_0. simpl. apply ln_1.
  - rewrite to_bool_1. simpl. rewrite (type_intensity_sum model nt z hrow Hlen).
    reflexivity.
Qed.

Lemma event_row (model : Model) (nt : nat) (hs : mat R) (tys : vec Z) :
  Forall (fun r => length r = nt) hs ->
  map ln
    (zip_with (fun v k : R => if negb (to_bool k) then 1 else v)
       (map (fun v => v + tiny)
          (map sum_list
             (zip_with (zip_with Rmult)
                (map (map (softplus_value (Rabs (beta model)))) hs)
                (map (type_row nt nt) tys))))
       (map (fun z => if (z =? 0)%Z then 0 else 1) tys))
  = zip_with (event_term model) tys hs.
Proof.
  intros Hk. revert tys. induction Hk as [|h hs Hh _ IH]; intros [|z tys];
    try reflexivity.
  cbn [map zip_with]. rewrite IH. f_equal.
  apply (event_position model nt z h Hh).
Qed.

(** [event_ll], position by position. *)
Lemma event_ll_terms (model : Model) (nt : nat) (hid : cube R) (ty : mat Z) :
  Forall (Forall (fun r => length r = nt)) hid ->
  sum_last2 (event_of (type_lambda_of model nt hid ty) (pad_mask ty))
  = zip_with (fun tys hs => sum_list (zip_with (event_term model) tys hs)) ty hid.
Proof.
  unfold sum_last2, event_of, type_lambda_of, sum_last3, type_mask_of, pad_mask.
  intros Hk. revert ty. induction Hk as [|hs hid Hhs _ IH]; intros [|tys ty];
    try reflexivity.
  cbn [map zip_with]. rewrite IH. f_equal.
  rewrite (event_row model nt hs tys Hhs). reflexivity.
Qed.

(** X18: when [beta] is not 0, [event_ll] of a sequence is the sum over its
    positions of: nothing
    for a padding position (type 0), and for an event of type [z] the
    logarithm of [softplus(hidden[z - 1], |beta|) + 1e-9]; a type above
    [num_types] is not rejected, it counts with intensity 0, that is with
    [ln 1e-9]. *)
Theorem log_likelihood_event_ll (model : Model) (process_idx : nat) (w : world)
    (data time types : loc) (tt : tensor) (t : mat R) (d hid : cube R)
    (ty : mat Z) (lin : cube R -> result (cube R)) (nt : nat) :
  heap w !! types = Some (L2 ty) ->
  heap w !! data = Some (F3 d) ->
  heap w !! time = Some tt -> as_N2 tt = Ok t ->
  num_types model !! process_idx = Some nt ->
  linear_list model !! process_idx = Some lin ->
  lin d = Ok hid ->
  same_shape ty t -> rectangular t ->
  same_shape hid ty -> Forall (Forall (fun r => length r = nt)) hid ->
  beta model <> 0 ->
  exists w' non_event_ll,
    log_likelihood model process_idx data time types w
    = (w',
       Ok (zip_with (fun tys hs => sum_list (zip_with (event_term model) tys hs))
             ty hid,
           non_event_ll)) /\
    (forall z hrow, (Z.of_nat (length hrow) < z)%Z ->
       event_term model z hrow = ln tiny).
Proof.
  intros Hty Hd Ht Htn Hnt Hlin Hhid Hs Hrect Hhs Hk _.
  destruct (log_likelihood_run model process_idx w data time types tt t d hid ty
              lin nt Hty Hd Ht Htn Hnt Hlin Hhid Hs Hrect Hhs Hk)
    as (w' & Hrun & _ & _).
  rewrite Hrun, (event_ll_terms model nt hid ty Hk).
  eexists _, _. split; [reflexivity|].
  intros z hrow Hz. unfold event_term, type_intensity.
  destruct (Z.eqb_spec z 0); [lia|].
  destruct (Z.ltb_spec 0 z); [|lia].
  rewrite lookup_ge_None_2 by lia. rewrite Rplus_0_l. reflexivity.
Qed.

Lemma log_likelihood_event_ll_witness :
  exists w' non_event_ll,
    log_likelihood toy_model 0 0%nat 1%nat 2%nat
      (mkWorld [F3 [[[1; 2]; [3; 4]; [0; 0]]]; F2 [[0; 1; 1]]; L2 [[1; 2; 0]]%Z]
         (fun _ => 0.5))
    = (w',
       Ok (zip_with (fun tys hs => sum_list (zip_with (event_term toy_model) tys hs))
             [[1; 2; 0]]%Z
             [[[1 + (2 + 0); 1]; [3 + (4 + 0); 1]; [0 + (0 + 0); 1]]],
           non_event_ll)) /\
    (forall z hrow, (Z.of_nat (length hrow) < z)%Z ->
       event_term toy_model z hrow = ln tiny).
Proof.
  apply (log_likelihood_event_ll toy_model 0
           (mkWorld [F3 [[[1; 2]; [3; 4]; [0; 0]]]; F2 [[0; 1; 1]]; L2 [[1; 2; 0]]%Z]
              (fun _ => 0.5))
           0%nat 1%nat 2%nat (F2 [[0; 1; 1]]) [[0; 1; 1]]
           [[[1; 2]; [3; 4]; [0; 0]]]
           [[[1 + (2 + 0); 1]; [3 + (4 + 0); 1]; [0 + (0 + 0); 1]]]
           [[1; 2; 0]]%Z
           (fun d => Ok (map (map (fun r => [sum_list r; 1])) d)) 2%nat
           eq_refl eq_refl eq_refl eq_refl eq_refl eq_refl eq_refl).
  - repeat constructor.
  - repeat constructor.
  - repeat constructor.
  - repeat constructor.
  - simpl. lra.
Defined.



(** X19: [log_likelihood] returns one value per sequence in each of its two
    results, and takes exactly [B * (L - 1) * 100] numbers from the random
    generator, for types of shape [(B, L)]. *)
Theorem log_likelihood_per_sequence (model : Model) (process_idx : nat) (w : world)
    (data time types : loc) (tt : tensor) (t : mat R) (d hid : cube R)
    (ty : mat Z) (lin : cube R -> result (cube R)) (nt : nat) :
  heap w !! types = Some (L2 ty) ->
  heap w !! data = Some (F3 d) ->
  heap w !! time = Some tt -> as_N2 tt = Ok t ->
  num_types model !! process_idx = Some nt ->
  linear_list model !! process_idx = Some lin ->
  lin d = Ok hid ->
  same_shape ty t -> rectangular t ->
  same_shape hid ty -> Forall (Forall (fun r => length r = nt)) hid ->
  exists w' event_ll non_event_ll,
    log_likelihood model process_idx data time types w
    = (w', Ok (event_ll, non_event_ll)) /\
    length event_ll = length ty /\
    length non_event_ll = length ty /\
    (forall k, rng w' k = rng w (length ty * (cols ty - 1) * 100 + k)%nat).
Proof.
  intros Hty Hd Ht Htn Hnt Hlin Hhid Hs Hrect Hhs Hk.
  destruct (log_likelihood_run model process_idx w data time types tt t d hid ty
              lin nt Hty Hd Ht Htn Hnt Hlin Hhid Hs Hrect Hhs Hk)
    as (w' & Hrun & Hrng & _).
  rewrite Hrun, (event_ll_terms model nt hid ty Hk).
  assert (Hmt : same_shape (pad_mask ty) t).
  { unfold pad_mask. apply same_shape_map_l, Hs. }
  assert (Hlen : length ty = length t) by (eapply Forall2_length, Hs).
  assert (Hcols : cols ty = cols t).
  { destruct Hs; simpl; [reflexivity | assumption]. }
  eexists _, _, _. split; [reflexivity|]. split; [|split].
  - rewrite length_zip_with. pose proof (Forall2_length _ _ _ Hhs). lia.
  - unfold sum_last2. rewrite length_map.
    pose proof (rand_cube_same_shape (rng w) (diff_time_of t (pad_mask ty))
                  num_samples (diff_time_rectangular t _ Hmt Hrect)) as Hu.
    rewrite (diff_time_length t _ Hmt), (diff_time_cols t _ Hmt) in Hu.
    pose proof (unbiased_integral_shape model hid (type_mask_of nt ty) t
                  (pad_mask ty) _
                  (hid_type_mask_shape_id nt hid ty Hhs Hk)
                  (same_shape_trans _ _ _ Hhs Hs) Hmt Hu) as Hsh.
    apply Forall2_length in Hsh. rewrite Hsh, (diff_time_length t _ Hmt). lia.
  - intros k. rewrite Hrng, Hlen, Hcols. reflexivity.
Qed.

Lemma log_likelihood_per_sequence_witness :
  exists w' event_ll non_event_ll,
    log_likelihood toy_model 0 0%nat 1%nat 2%nat
      (mkWorld [F3 [[[1; 2]; [3; 4]; [0; 0]]]; F2 [[0; 1; 1]]; L2 [[1; 2; 0]]%Z]
         (fun _ => 0.5))
    = (w', Ok (event_ll, non_event_ll)) /\
    length event_ll = 1%nat /\
    length non_event_ll = 1%nat /\
    (forall k, rng w' k = 0.5).
Proof.
  apply (log_likelihood_per_sequence toy_model 0
           (mkWorld [F3 [[[1; 2]; [3; 4]; [0; 0]]]; F2 [[0; 1; 1]]; L2 [[1; 2; 0]]%Z]
              (fun _ => 0.5))
           0%nat 1%nat 2%nat (F2 [[0; 1; 1]]) [[0; 1; 1]]
           [[[1; 2]; [3; 4]; [0; 0]]]
           [[[1 + (2 + 0); 1]; [3 + (4 + 0); 1]; [0 + (0 + 0); 1]]]
           [[1; 2; 0]]%Z
           (fun d => Ok (map (map (fun r => [sum_list r; 1])) d)) 2%nat
           eq_refl eq_refl eq_refl eq_refl eq_refl eq_refl eq_refl).
  - repeat constructor.
  - repeat constructor.
  - repeat constructor.
  - repeat constructor.
Defined.


